(** * Steganography OCaml: RSA key generation, block encryption and
      least-significant-bit image embedding

    A shallow embedding of the OCaml program listed in
    [src/content/projects/Steganography.md] (sections 3.3 and 7.1), and the
    properties of the specification checked against it.

    Conventions of the embedding.
    - Zarith's [Z.t] is Rocq's [Z]; the operations of Zarith used by the
      program are collected in module [Zarith] with the exceptions they raise.
    - OCaml exceptions and non-termination are explicit: a computation yields
      an [outcome], which is a value, a raised exception, or [OutOfFuel] when
      the recursion budget given to a loop is exhausted.  A larger budget
      never changes a value or an exception; a loop that yields [OutOfFuel]
      for every budget does not terminate.
    - [Random] and the file system are threaded through a [world].
    - OCaml's native [int] has 63 bits.  The size of the image buffer is a
      product of numbers read from a file and wraps around ([int_mul]).  The
      other native integers of the program are string lengths, indices into
      them and counters that go down by 1 to 0; they are integers of [Z],
      and a counter that starts below 0 runs out of fuel.
    - Strings and bytes are [string] and [ascii]; a byte buffer is a list
      of [ascii]. *)

From Stdlib Require Import ZArith Zcong Zdivisibility Zpow_facts.
From Stdlib Require Import List String Ascii Bool Lia Permutation FinFun.
From Stdlib Require Import DecimalString DecimalPos DecimalZ.
Import ListNotations.

Local Open Scope Z_scope.

(* ================================================================== *)
(** ** The OCaml runtime: exceptions, fuel, randomness, files         *)
(* ================================================================== *)

Inductive exn : Type :=
| Division_by_zero
| Invalid_argument (fn : string)
| Failure (msg : string)
| End_of_file
| Overflow
| Sys_error (msg : string).

Inductive outcome (A : Type) : Type :=
| Val (a : A)
| Exn (e : exn)
| OutOfFuel.

Arguments Val {A} a.
Arguments Exn {A} e.
Arguments OutOfFuel {A}.

Definition obind {A B : Type} (m : outcome A) (k : A -> outcome B) : outcome B :=
  match m with
  | Val a => k a
  | Exn e => Exn e
  | OutOfFuel => OutOfFuel
  end.

Notation "'let*' x ':=' m 'in' k" := (obind m (fun x => k))
  (at level 10, x name, m at level 100, k at level 200).

(** The part of the outside world the program touches: the stream of raw
    values behind [Random], how many of them were consumed, and the files
    written so far (most recent first). *)
Record world : Type := mkWorld {
  entropy : nat -> Z;
  cursor : nat;
  files : list (string * string)
}.

Definition io (A : Type) : Type := world -> outcome (A * world).

Definition ret {A : Type} (a : A) : io A := fun w => Val (a, w).

Definition raise {A : Type} (e : exn) : io A := fun _ => Exn e.

Definition out_of_fuel {A : Type} : io A := fun _ => OutOfFuel.

Definition lift {A : Type} (m : outcome A) : io A :=
  fun w => match m with
           | Val a => Val (a, w)
           | Exn e => Exn e
           | OutOfFuel => OutOfFuel
           end.

Definition bind {A B : Type} (m : io A) (k : A -> io B) : io B :=
  fun w => match m w with
           | Val (a, w') => k a w'
           | Exn e => Exn e
           | OutOfFuel => OutOfFuel
           end.

Notation "x <- m ;; k" := (bind m (fun x => k))
  (at level 100, m at next level, right associativity).

(** OCaml's native [int] is a 63-bit two's complement integer. *)
Definition max_int : Z := 2 ^ 62 - 1.
Definition min_int : Z := - 2 ^ 62.
Definition int_wrap (x : Z) : Z := (x + 2 ^ 62) mod 2 ^ 63 - 2 ^ 62.
Definition int_mul (a b : Z) : Z := int_wrap (a * b).

Module Int64.
Definition max_int : Z := 2 ^ 63 - 1.
Definition min_int : Z := - 2 ^ 63.
End Int64.

Module Random.
(** The world after one raw value was consumed. *)
Definition consumed (w : world) : world :=
  mkWorld (entropy w) (S (cursor w)) (files w).

(** One draw: the next raw value of the stream reduced into [0, bound). *)
Definition draw (bound : Z) : io Z :=
  fun w => Val (entropy w (cursor w) mod bound, consumed w).

(** [Random.int bound]: uniform in [0, bound); [bound] must be positive
    and less than 2^30. *)
Definition int (bound : Z) : io Z :=
  if (bound <=? 0) || (2 ^ 30 <=? bound)
  then raise (Invalid_argument "Random.int")
  else draw bound.

(** [Random.int64 bound]: uniform in [0, bound); [bound] must be positive. *)
Definition int64 (bound : Z) : io Z :=
  if bound <=? 0
  then raise (Invalid_argument "Random.int64")
  else draw bound.
End Random.

(** The operations of the Zarith library the program calls, after the
    library's documentation. *)
Module Zarith.
(** [Z.div]: truncated division. *)
Definition div (a b : Z) : outcome Z :=
  if b =? 0 then Exn Division_by_zero else Val (Z.quot a b).

(** [Z.(mod)] is [Z.rem]: the remainder has the sign of the dividend. *)
Definition rem (a b : Z) : outcome Z :=
  if b =? 0 then Exn Division_by_zero else Val (Z.rem a b).

(** [Z.invert a n]: the inverse of [a] modulo [n], in [0, |n|);
    [Division_by_zero] when [a] has none.  Modulo 0 only 1 and -1 have an
    inverse, and the library returns them as they are. *)
Definition invert (a n : Z) : outcome Z :=
  if negb (Z.gcd a n =? 1) then Exn Division_by_zero
  else if n =? 0 then Val a
  else Val (Z.invmod a (Z.abs n)).

(** [Z.powm a b n]: [a ^ b mod |n|] by square-and-multiply; a negative
    exponent goes through the inverse of the base. *)
Definition powm (a b n : Z) : outcome Z :=
  if n =? 0 then Exn Division_by_zero
  else if 0 <=? b then Val (Zpow_mod a b (Z.abs n))
  else let* i := invert a n in Val (Zpow_mod i (- b) (Z.abs n)).

(** [Z.numbits x]: 0 for 0, else the [k] with [2^(k-1) <= |x| < 2^k]. *)
Definition numbits (x : Z) : Z :=
  if x =? 0 then 0 else Z.log2 (Z.abs x) + 1.

Definition to_int64 (x : Z) : outcome Z :=
  if (Int64.min_int <=? x) && (x <=? Int64.max_int)
  then Val x else Exn Overflow.

(** [Z.to_string]: decimal notation. *)
Definition to_string (x : Z) : string :=
  NilZero.string_of_int (Z.to_int x).
End Zarith.

(** [String.sub s ofs len] and [String.concat sep l] of OCaml's standard library. *)
Module Str.
Definition length (s : string) : Z := Z.of_nat (String.length s).

Definition sub (s : string) (ofs len : Z) : outcome string :=
  if (ofs <? 0) || (len <? 0) || (length s <? ofs + len)
  then Exn (Invalid_argument "String.sub / Bytes.sub")
  else Val (String.substring (Z.to_nat ofs) (Z.to_nat len) s).

Fixpoint concat (sep : string) (l : list string) : string :=
  match l with
  | [] => ""
  | [s] => s
  | s :: l' => (s ++ sep ++ concat sep l')%string
  end.
End Str.

(* ================================================================== *)
(** ** RSA (appendix 7.1 of the write-up)                              *)
(* ================================================================== *)

Record rsa_config : Type := { p_len : Z; q_len : Z; e_len : Z }.

Record private_key : Type := { n : Z; p : Z; q : Z; e : Z; d : Z }.

Record public_key : Type := { pub_n : Z; pub_e : Z }.

Record plaintext : Type := { message : Z; types : string }.

Record ciphertext : Type := { c : Z; c_types : string }.

(** [let coprime a b = Z.gcd a b = Z.one] *)
Definition coprime (a b : Z) : bool := Z.gcd a b =? 1.

Fixpoint prime_phi (plist : list Z) : Z :=
  match plist with
  | [] => 1
  | p :: plist' => (p - 1) * prime_phi plist'
  end.

Definition mod_exp (a b n : Z) : outcome Z := Zarith.powm a b n.

Definition mod_minv (a n : Z) : outcome Z := Zarith.invert a n.

(** [z_gen len]: [len] random decimal digits, most significant first. *)
Fixpoint z_gen' (fuel : nat) (len : Z) (acc : Z) : io Z :=
  match fuel with
  | O => out_of_fuel
  | S fuel' =>
      if len =? 0 then ret acc
      else
        digit <- Random.int 10 ;;
        z_gen' fuel' (len - 1) (acc * 10 + digit)
  end.

Definition z_gen (fuel : nat) (len : Z) : io Z := z_gen' fuel len 0.

(** The odd part of [num]: divide by 2 while the remainder is 0. *)
Fixpoint get_factor_q (fuel : nat) (num : Z) : outcome Z :=
  match fuel with
  | O => OutOfFuel
  | S fuel' =>
      let* r := Zarith.rem num 2 in
      if r =? 0 then
        let* half := Zarith.div num 2 in
        get_factor_q fuel' half
      else Val num
  end.

(** The innermost loop of [miller_rabin_test]; [next_trial] stands for the
    call [miller_rabin_test' (trails - 1)] of the enclosing function. *)
Fixpoint miller_rabin_test'' (fuel : nat) (n a : Z) (next_trial : io bool)
    (expp : Z) : io bool :=
  match fuel with
  | O => out_of_fuel
  | S fuel' =>
      x <- lift (Zarith.powm a expp n) ;;
      if Z.abs x =? 1 then next_trial
      else if expp =? n - 1 then ret false
      else
        y <- lift (Zarith.powm a expp n) ;;
        r <- lift (Zarith.rem y n) ;;
        if r =? n - 1 then miller_rabin_test'' fuel' n a next_trial (expp * 2)
        else ret false
  end.

Fixpoint miller_rabin_test' (fuel : nat) (n q : Z) (trails : Z) : io bool :=
  match fuel with
  | O => out_of_fuel
  | S fuel' =>
      if trails =? 0 then ret true
      else
        bound <- lift (Zarith.to_int64 (Z.min n Int64.max_int)) ;;
        a <- Random.int64 bound ;;
        miller_rabin_test'' fuel' n a
          (miller_rabin_test' fuel' n q (trails - 1)) q
  end.

(** The optional argument [?(trails = 50)]. *)
Definition default_trails (trails : option Z) : Z :=
  match trails with Some t => t | None => 50 end.

Definition miller_rabin_test (fuel : nat) (trails : option Z) (n : Z) : io bool :=
  if 2 =? n then ret true
  else
    q <- lift (get_factor_q fuel (n - 1)) ;;
    miller_rabin_test' fuel n q (default_trails trails).

Fixpoint prime_gen' (fuel : nat) (trails : option Z) (len : Z) : io Z :=
  match fuel with
  | O => out_of_fuel
  | S fuel' =>
      p <- z_gen fuel' len ;;
      is_prime <- miller_rabin_test fuel' (Some (default_trails trails)) p ;;
      if is_prime then ret p else prime_gen' fuel' trails len
  end.

Definition prime_gen (fuel : nat) (trails : option Z) (len : Z) : io Z :=
  prime_gen' fuel trails len.

Fixpoint e_gen' (fuel : nat) (rc : rsa_config) (phi : Z) : io Z :=
  match fuel with
  | O => out_of_fuel
  | S fuel' =>
      e <- z_gen fuel' (e_len rc) ;;
      if coprime e phi then ret e else e_gen' fuel' rc phi
  end.

Definition e_gen (fuel : nat) (rc : rsa_config) (phi : Z) : io Z :=
  e_gen' fuel rc phi.

Definition d_gen (e phi : Z) : outcome Z := mod_minv e phi.

Definition private_key_gen (fuel : nat) (rc : rsa_config) : io private_key :=
  p <- prime_gen fuel None (p_len rc) ;;
  q <- prime_gen fuel None (q_len rc) ;;
  let phi := (p - 1) * (q - 1) in
  e <- e_gen fuel rc phi ;;
  d <- lift (d_gen e phi) ;;
  ret {| n := p * q; p := p; q := q; e := e; d := d |}.

Definition public_key_gen (pk : private_key) : public_key :=
  {| pub_n := n pk; pub_e := e pk |}.

(** [Char.code]. *)
Definition char_code (ch : ascii) : Z := Z.of_nat (nat_of_ascii ch).

(** The inner [encode] of [plaintext_input_string]. *)
Fixpoint encode (acc : Z) (chars : list ascii) : Z :=
  match chars with
  | [] => acc
  | h :: t => encode (acc * 256 + char_code h) t
  end.

Definition plaintext_input_string (s : string) : plaintext :=
  let encoded := encode 0 (list_ascii_of_string s) in
  {| message := encoded; types := "String" |}.

Definition plaintext_encrypt (pt : plaintext) (pk : public_key) : outcome ciphertext :=
  let* c := Zarith.powm (message pt) (pub_e pk) (pub_n pk) in
  Val {| c := c; c_types := types pt |}.

(** The names [open_out] refuses on every file system: the empty name and
    a name with a null character. *)
Definition unopenable (filename : string) : bool :=
  String.eqb filename "" || existsb (Ascii.eqb zero) (list_ascii_of_string filename).

(** [open_out], [output_string], [close_out]: the file is created or
    replaced.  [open_out] raises [Sys_error] on a name it cannot open; the
    refusals that depend on the state of the file system (a directory, a
    missing folder, permissions) are outside the world record. *)
Definition write_to_file (filename content : string) : io unit :=
  fun w =>
    if unopenable filename
    then Exn (Sys_error (filename ++ ": No such file or directory"))
    else Val (tt, mkWorld (entropy w) (cursor w) ((filename, content) :: files w)).

Definition newline : string := String (ascii_of_nat 10) "".

Definition serialize_private_key (pk : private_key) : string :=
  ("n=" ++ Zarith.to_string (n pk) ++ newline ++
   "p=" ++ Zarith.to_string (p pk) ++ newline ++
   "q=" ++ Zarith.to_string (q pk) ++ newline ++
   "e=" ++ Zarith.to_string (e pk) ++ newline ++
   "d=" ++ Zarith.to_string (d pk))%string.

Definition serialize_ciphertext (c : Z) : string := Zarith.to_string c.

Definition private_key_gen_and_save (fuel : nat) (rc : rsa_config)
    (filename : string) : io private_key :=
  p <- prime_gen fuel None (p_len rc) ;;
  q <- prime_gen fuel None (q_len rc) ;;
  let phi := (p - 1) * (q - 1) in
  e <- e_gen fuel rc phi ;;
  d <- lift (d_gen e phi) ;;
  let pk := {| n := p * q; p := p; q := q; e := e; d := d |} in
  let serialized_pk := serialize_private_key pk in
  _ <- write_to_file filename serialized_pk ;;
  ret pk.

(** The inner [encode_blocks] of [encrypt_and_return_message]. *)
Fixpoint encode_blocks (fuel : nat) (public_key : public_key) (block_size : Z)
    (msg : string) (acc : list string) : outcome (list string) :=
  match fuel with
  | O => OutOfFuel
  | S fuel' =>
      if String.eqb msg "" then Val (rev acc)
      else
        let* block := Str.sub msg 0 (Z.min block_size (Str.length msg)) in
        let* remaining :=
          Str.sub msg (Z.min block_size (Str.length msg))
                  (Str.length msg - Z.min block_size (Str.length msg)) in
        let encoded := plaintext_input_string block in
        let* encrypted := plaintext_encrypt encoded public_key in
        encode_blocks fuel' public_key block_size remaining
                      (serialize_ciphertext (c encrypted) :: acc)
  end.

Definition encrypt_and_return_message (fuel : nat) (message : string)
    (rc : rsa_config) : io string :=
  pk <- private_key_gen_and_save fuel rc "private_key.txt" ;;
  let public_key := public_key_gen pk in
  let block_size := Z.quot (Zarith.numbits (n pk)) 8 - 1 in
  blocks <- lift (encode_blocks fuel public_key block_size message []) ;;
  ret (Str.concat " " blocks).

(* ================================================================== *)
(** ** Writing into the image (section 3.3 of the write-up)           *)
(* ================================================================== *)

Module Char.
Definition code (ch : ascii) : Z := char_code ch.

Definition chr (v : Z) : outcome ascii :=
  if (v <? 0) || (255 <? v)
  then Exn (Invalid_argument "Char.chr")
  else Val (ascii_of_nat (Z.to_nat v)).
End Char.

(** Mutable byte buffers; the buffer is threaded explicitly. *)
Module Bytes.
Definition t : Type := list ascii.

Definition length (b : t) : Z := Z.of_nat (List.length b).

(** [Sys.max_string_length] on a 64-bit system. *)
Definition max_length : Z := 2 ^ 57 - 9.

(** [Bytes.create size]; the allocation itself is taken to succeed
    ([Out_of_memory] is outside the model). *)
Definition create (size : Z) : outcome t :=
  if (size <? 0) || (max_length <? size)
  then Exn (Invalid_argument "Bytes.create")
  else Val (repeat zero (Z.to_nat size)).

Definition get (b : t) (i : Z) : outcome ascii :=
  if (i <? 0) || (length b <=? i)
  then Exn (Invalid_argument "index out of bounds")
  else Val (nth (Z.to_nat i) b zero).

Fixpoint update (b : t) (i : nat) (ch : ascii) : t :=
  match b, i with
  | [], _ => []
  | _ :: b', O => ch :: b'
  | x :: b', S i' => x :: update b' i' ch
  end.

Definition set (b : t) (i : Z) (ch : ascii) : outcome t :=
  if (i <? 0) || (length b <=? i)
  then Exn (Invalid_argument "index out of bounds")
  else Val (update b (Z.to_nat i) ch).
End Bytes.

(** [s.[i]] *)
Definition string_get (s : string) (i : Z) : outcome ascii :=
  if i <? 0 then Exn (Invalid_argument "index out of bounds")
  else match String.get (Z.to_nat i) s with
       | Some ch => Val ch
       | None => Exn (Invalid_argument "index out of bounds")
       end.

(** [really_input ic buf pos len]: the next [len] bytes of the channel are
    stored in [buf] from position [pos]; [End_of_file] if the channel holds
    fewer. *)
Definition really_input (ic : list ascii) (buf : Bytes.t) (pos len : Z)
  : outcome Bytes.t :=
  if (pos <? 0) || (len <? 0) || (Bytes.length buf <? pos + len)
  then Exn (Invalid_argument "really_input")
  else if Z.of_nat (List.length ic) <? len then Exn End_of_file
  else Val (firstn (Z.to_nat pos) buf ++ firstn (Z.to_nat len) ic
            ++ skipn (Z.to_nat (pos + len)) buf)%list.

(** [for i = lo to lo + count - 1 do body i done] over a loop state. *)
Fixpoint for_loop {S : Type} (count : nat) (i : Z)
    (body : Z -> S -> outcome S) (s : S) : outcome S :=
  match count with
  | O => Val s
  | Datatypes.S count' => let* s' := body i s in for_loop count' (i + 1) body s'
  end.

Definition overwrite_last_bit (byte : Z) (message_bit : ascii) : outcome Z :=
  if Ascii.eqb message_bit "1" then Val (Z.lor byte 1)
  else if Ascii.eqb message_bit "0" then Val (Z.land byte 254)
  else Exn (Failure "Message bit must be '0' or '1'").

(** A binary PPM file as [insert_message] sees it: the three header fields
    that [read_header] returns and the bytes that follow the header. *)
Record ppm : Type := {
  width : Z;
  height : Z;
  max_val : string;
  pixels : list ascii
}.

(** Modelled from the spec: [int_to_fixed_length_binary] is called by
    [insert_message] but not listed in the write-up.  The specification has
    the header be the fixed-width big-endian binary encoding of the length:
    [nbits] characters '0'/'1', most significant bit first. *)
Fixpoint int_to_fixed_length_binary (nbits : nat) (v : Z) : string :=
  match nbits with
  | O => ""
  | S nbits' =>
      String (if Z.testbit v (Z.of_nat nbits') then "1" else "0")%char
             (int_to_fixed_length_binary nbits' v)
  end.

(** Modelled from the spec: [insert_message] uses [message_length] but the
    write-up binds it nowhere.  The specification has the header encode the
    number of payload bits. *)
Definition message_length (binary_message : string) : Z :=
  Str.length binary_message.

Section InsertMessage.

(** [string_to_binary] is called by [insert_message] but not listed in the
    write-up: it is a parameter of the embedding. *)
Variable string_to_binary : string -> string.

(** The body of the [for] loop; the loop state is the buffer and the
    reference [message_index]. *)
Definition insert_step (full_message : string) (i : Z)
    (st : Bytes.t * Z) : outcome (Bytes.t * Z) :=
  let (buffer, message_index) := st in
  if message_index <? Str.length full_message then
    let* ch := Bytes.get buffer i in
    let byte := Char.code ch in
    let* msg_bit := string_get full_message message_index in
    let message_index := message_index + 1 in
    let* v := overwrite_last_bit byte msg_bit in
    let* ch' := Char.chr v in
    let* buffer := Bytes.set buffer i ch' in
    Val (buffer, message_index)
  else Val (buffer, message_index).

(** [insert_message file_path message]: [file] is the content of the file
    at [file_path]; the result is the content of [output.ppm]. *)
Definition insert_message (file : ppm) (message : string) : outcome ppm :=
  let image_size := int_mul (int_mul (width file) (height file)) 3 in
  let* buffer := Bytes.create image_size in
  let* buffer := really_input (pixels file) buffer 0 image_size in
  let binary_message := string_to_binary message in
  let binary_length :=
    int_to_fixed_length_binary 30 (message_length binary_message) in
  let full_message := (binary_length ++ binary_message)%string in
  let message_index := 0 in
  let* st := for_loop (Z.to_nat image_size) 0 (insert_step full_message)
                      (buffer, message_index) in
  Val {| width := width file; height := height file;
         max_val := max_val file; pixels := fst st |}.

End InsertMessage.

(* ================================================================== *)
(** ** Definitions used to state the properties                        *)
(* ================================================================== *)

(** *** Worlds *)

(** A world whose entropy stream is constant, or starts with a list. *)
Definition constant_world (v : Z) : world :=
  mkWorld (fun _ => v) 0 [].

Definition scripted_world (script : list Z) (rest : Z) : world :=
  mkWorld (fun i => nth i script rest) 0 [].

(** *** Primality test *)

(** The test one round of [miller_rabin_test] applies to the base [a],
    read off the code: with [x = a ^ q mod n], the round passes when [x] is
    1, or when [x] is [n - 1] and [q] is not [n - 1]. *)
Definition round_passes (n q a : Z) : bool :=
  let x := a ^ q mod n in
  (x =? 1) || ((x =? n - 1) && negb (q =? n - 1)).

(** The round of the Miller-Rabin test as the specification words it, for
    [n - 1 = 2 ^ s * q]: [a ^ q mod n] is 1 or [n - 1], or squaring it at
    most [s - 1] times yields [n - 1]. *)
Definition spec_round_passes (n : Z) (s : nat) (q a : Z) : bool :=
  let x := a ^ q mod n in
  (x =? 1) || existsb (fun i => x ^ (2 ^ Z.of_nat i) mod n =? n - 1) (seq 0 s).

(** [trails] rounds over the bases drawn from [0, bound): the verdict and
    the world left behind.  The rounds stop at the first base that fails. *)
Fixpoint run_trials (pass : Z -> bool) (bound : Z) (trails : nat) (w : world)
  : bool * world :=
  match trails with
  | O => (true, w)
  | S trails' =>
      let a := entropy w (cursor w) mod bound in
      if pass a then run_trials pass bound trails' (Random.consumed w)
      else (false, Random.consumed w)
  end.

(** Trial division: no number from 2 to [m - 1] divides [m]. *)
Definition no_divisor_below (m : Z) : bool :=
  forallb (fun k => negb (m mod Z.of_nat k =? 0)) (seq 2 (Z.to_nat (m - 2))).

(** *** Blocks *)

(** The value of a byte string read as a big-endian base-256 numeral. *)
Fixpoint base256_value (chars : list ascii) : Z :=
  match chars with
  | [] => 0
  | h :: t => char_code h * 256 ^ Z.of_nat (List.length t) + base256_value t
  end.

(** Consecutive chunks of [size] elements, the last one possibly shorter. *)
Fixpoint chunks_aux {A : Type} (fuel size : nat) (l : list A) : list (list A) :=
  match fuel with
  | O => []
  | S fuel' =>
      match l with
      | [] => []
      | _ :: _ => firstn size l :: chunks_aux fuel' size (skipn size l)
      end
  end.

Definition chunks {A : Type} (size : nat) (l : list A) : list (list A) :=
  chunks_aux (List.length l) size l.

(** The block size [encrypt_and_return_message] derives from a modulus. *)
Definition block_size_of (modulus : Z) : Z :=
  Z.quot (Zarith.numbits modulus) 8 - 1.

(** The ciphertext integer of one chunk: its big-endian value raised to the
    public exponent modulo the modulus. *)
Definition chunk_cipher (pk : public_key) (chunk : list ascii) : Z :=
  base256_value chunk ^ pub_e pk mod pub_n pk.

(** *** Decryption *)

(** Modelled from the spec: the write-up lists no decryption code.  The
    specification has [decryptBlock(c, priv)] compute [c ^ d mod n]. *)
Definition decrypt_block (c : Z) (priv : private_key) : outcome Z :=
  Zarith.powm c (d priv) (n priv).

(** Modelled from the spec: "decode back to bytes" is absent from the
    write-up; it is taken as the inverse of the big-endian encoding, the
    base-256 digits of the integer, most significant first, with no leading
    zero byte.  This is the digit loop. *)
Fixpoint integer_to_bytes_aux (fuel : nat) (m : Z) (acc : list ascii)
  : list ascii :=
  match fuel with
  | O => acc
  | S fuel' =>
      if m <=? 0 then acc
      else integer_to_bytes_aux fuel' (m / 256)
             (ascii_of_nat (Z.to_nat (m mod 256)) :: acc)
  end.

(** Modelled from the spec: "decode back to bytes", see
    [integer_to_bytes_aux]; an integer of [k] bits has at most [k] digits. *)
Definition integer_to_bytes (m : Z) : list ascii :=
  integer_to_bytes_aux (S (Z.to_nat (Z.log2 m))) m [].

(** Modelled from the spec: [decryptMessage] is absent from the write-up;
    the specification has it decrypt each block, decode it back to bytes
    and concatenate the results in order. *)
Fixpoint decrypt_message (blocks : list Z) (priv : private_key)
  : outcome string :=
  match blocks with
  | [] => Val ""%string
  | block :: rest =>
      let* m := decrypt_block block priv in
      let* tail := decrypt_message rest priv in
      Val (string_of_list_ascii (integer_to_bytes m) ++ tail)%string
  end.

(** Modelled from the spec: reading a persisted ciphertext back is absent
    from the write-up.  The specification has the ciphertext persisted as
    decimal strings, space-joined when there are several blocks; it is
    read back by cutting the text at the spaces. *)
Fixpoint split_on_space (s : string) : list string :=
  match s with
  | EmptyString => [""%string]
  | String ch rest =>
      if Ascii.eqb ch " " then ""%string :: split_on_space rest
      else match split_on_space rest with
           | [] => [String ch ""]
           | word :: words => String ch word :: words
           end
  end.

Definition parse_block (word : string) : option Z :=
  option_map Z.of_int (NilZero.int_of_string word).

Fixpoint parse_blocks (words : list string) : option (list Z) :=
  match words with
  | [] => Some []
  | word :: rest =>
      match parse_block word, parse_blocks rest with
      | Some block, Some blocks => Some (block :: blocks)
      | _, _ => None
      end
  end.

Definition deserialize_ciphertext (text : string) : option (list Z) :=
  if String.eqb text "" then Some [] else parse_blocks (split_on_space text).

(** Modelled from the spec: [decryptMessage] applied to the text that
    [encrypt_and_return_message] returns. *)
Definition decrypt_text (text : string) (priv : private_key) : outcome string :=
  match deserialize_ciphertext text with
  | Some blocks => decrypt_message blocks priv
  | None => Exn (Failure "ciphertext is not a list of decimal numbers")
  end.

(** A string without a space character. *)
Fixpoint no_space (s : string) : bool :=
  match s with
  | EmptyString => true
  | String ch rest => negb (Ascii.eqb ch " ") && no_space rest
  end.

(** *** Image embedding *)

(** A bitstream is a string of the characters '0' and '1'. *)
Definition is_bit (ch : ascii) : bool :=
  Ascii.eqb ch "0" || Ascii.eqb ch "1".

Definition is_bitstream (s : string) : bool :=
  forallb is_bit (list_ascii_of_string s).

(** The [k]-th symbol of a string (the zero character past its end). *)
Definition symbol_at (s : string) (k : nat) : ascii :=
  match String.get k s with
  | Some ch => ch
  | None => zero
  end.

(** The value of the [k]-th symbol of a bitstream. *)
Definition bit_at (s : string) (k : Z) : bool :=
  match String.get (Z.to_nat k) s with
  | Some ch => Ascii.eqb ch "1"
  | None => false
  end.

(** The value of the [k]-th byte of a buffer. *)
Definition byte_at (b : Bytes.t) (k : Z) : Z :=
  char_code (nth (Z.to_nat k) b zero).

(** A byte value with its least significant bit replaced. *)
Definition with_last_bit (byte : Z) (bit : bool) : Z :=
  2 * (byte / 2) + Z.b2z bit.

(** The byte [insert_step] stores for a byte and a message bit. *)
Definition stego_byte (byte bit : ascii) : ascii :=
  ascii_of_nat (Z.to_nat (if Ascii.eqb bit "1"
                          then Z.lor (char_code byte) 1
                          else Z.land (char_code byte) 254)).

(** Byte [k] of [output] is byte [k] of [input] with its least significant
    bit overwritten by bit [k] of [bits]: the last bit is that bit, the
    other seven bits are kept, and the value moves by at most 1. *)
Definition carries_bit (bits : string) (input output : Bytes.t) (k : Z) : Prop :=
  Z.testbit (byte_at output k) 0 = bit_at bits k
  /\ byte_at output k = with_last_bit (byte_at input k) (bit_at bits k)
  /\ Z.abs (byte_at output k - byte_at input k) <= 1.

(** Position of channel [chan] (0 = R, 1 = G, 2 = B) of the pixel in row
    [row] and column [col] in the row-major byte sequence of an image of
    the given width. *)
Definition scan_index (width row col chan : Z) : Z :=
  (row * width + col) * 3 + chan.

(** A carrier image whose header agrees with its pixel data. *)
Definition well_formed_image (file : ppm) : Prop :=
  0 <= width file /\ 0 <= height file /\
  Bytes.length (pixels file) = width file * height file * 3 /\
  width file * height file * 3 <= Bytes.max_length.

(** The bitstream [insert_message] embeds for a payload: the 30-bit header
    followed by the payload ([full_message] in the code). *)
Definition full_bitstream (payload : string) : string :=
  (int_to_fixed_length_binary 30 (message_length payload) ++ payload)%string.

(** *** Concrete inputs *)

(** A configuration, an entropy stream and the key they generate: the
    digits 4003, fifty bases, the digits 4007, fifty bases, the digit 7. *)
Definition sample_config : rsa_config :=
  {| p_len := 4; q_len := 4; e_len := 1 |}.

Definition sample_world : world :=
  scripted_world ([4; 0; 0; 3] ++ repeat 2 50 ++ [4; 0; 0; 7] ++ repeat 2 50 ++ [7]) 0.

Definition sample_key : private_key :=
  {| n := 16040021; p := 4003; q := 4007; e := 7; d := 4580575 |}.

(** An entropy stream whose bases for the first candidate are all 1, and
    the key it generates. *)
Definition composite_world : world :=
  scripted_world ([4; 0; 0; 5] ++ repeat 1 50 ++ [4; 0; 0; 7] ++ repeat 2 50 ++ [3]) 0.

Definition composite_key : private_key :=
  {| n := 16048035; p := 4005; q := 4007; e := 3; d := 5346675 |}.

(** A configuration whose public exponent has no digits. *)
Definition degenerate_config : rsa_config :=
  {| p_len := 1; q_len := 1; e_len := 0 |}.

(** The public key [(143, 7)]: 143 = 11 * 13 has 8 bits. *)
Definition tiny_public_key : public_key := {| pub_n := 143; pub_e := 7 |}.

(** The plaintext of the write-up's example run, and a plaintext that
    starts with a zero byte. *)
Definition example_plaintext : string := "OCaml is the best language".

Definition zero_led_plaintext : string := String zero "A".

(** Carriers of one and of eleven pixels. *)
Definition one_pixel_image : ppm :=
  {| width := 1; height := 1; max_val := "255"; pixels := ["A"; "B"; "C"]%char |}.

Definition eleven_pixel_image : ppm :=
  {| width := 11; height := 1; max_val := "255"; pixels := repeat "a"%char 33 |}.

(** A conversion for messages that are already written in '0' and '1'. *)
Definition already_binary (message : string) : string := message.

(** *** Random digits *)

(** The number written by a list of decimal digits, most significant
    first, after the digits already in [acc]. *)
Definition decimal_value (acc : Z) (digits : list Z) : Z :=
  fold_left (fun value digit => value * 10 + digit) digits acc.

(** The next [k] digits that [Random.int 10] draws in a world. *)
Definition drawn_digits (w : world) (k : nat) : list Z :=
  map (fun i => entropy w (cursor w + i)%nat mod 10) (seq 0 k).

(** The [i]-th base that [Random.int64 bound] draws in a world. *)
Definition drawn_base (w : world) (bound : Z) (i : nat) : Z :=
  entropy w (cursor w + i)%nat mod bound.

(** The world after [k] draws. *)
Definition after_draws (w : world) (k : nat) : world :=
  mkWorld (entropy w) (cursor w + k) (files w).

(** *** Text of a saved key *)

(** A string in which the character [ch] does not occur. *)
Fixpoint lacks (ch : ascii) (s : string) : bool :=
  match s with
  | EmptyString => true
  | String ch' rest => negb (Ascii.eqb ch' ch) && lacks ch rest
  end.

(** The line feed that [serialize_private_key] puts between the fields. *)
Definition line_feed : ascii := ascii_of_nat 10.

(** *** Blocks without a leading zero byte *)

(** A string that is empty or starts with a byte other than 0. *)
Definition no_leading_zero (s : string) : bool :=
  match s with
  | EmptyString => true
  | String ch _ => negb (Ascii.eqb ch zero)
  end.

(** *** A key too small to encrypt with *)

(** One-digit primes and a one-digit exponent; on an entropy stream of 13s
    the key generated is [(9, 3, 3, 3, 3)]. *)
Definition degenerate_tiny_config : rsa_config :=
  {| p_len := 1; q_len := 1; e_len := 1 |}.

Definition tiny_key : private_key :=
  {| n := 9; p := 3; q := 3; e := 3; d := 3 |}.

(** *** Carrier files *)

(** A file cut after the pixel bytes its header announces. *)
Definition truncate (file : ppm) : ppm :=
  {| width := width file; height := height file; max_val := max_val file;
     pixels := firstn (Z.to_nat (width file * height file * 3)) (pixels file) |}.

(** A two-pixel header over the bytes of a single pixel. *)
Definition short_image : ppm :=
  {| width := 2; height := 1; max_val := "255"; pixels := ["A"; "B"; "C"]%char |}.

(** An eleven-pixel image followed by two more bytes. *)
Definition padded_image : ppm :=
  {| width := 11; height := 1; max_val := "255";
     pixels := (repeat "a"%char 33 ++ ["x"; "y"]%char)%list |}.

(** *** Rejected candidates *)

(** One turn of the prime search that ends in a rejection: the candidate
    drawn in [w] is answered [false] by the test, which leaves [w']. *)
Definition rejected_prime (f0 : nat) (trails : option Z) (len : Z)
    (w w' : world) : Prop :=
  exists (cand : Z) (mid : world),
    z_gen f0 len w = Val (cand, mid)
    /\ miller_rabin_test f0 (Some (default_trails trails)) cand mid
       = Val (false, w').

(** One turn of the exponent search that ends in a rejection: the
    candidate drawn in [w], leaving [w'], is not coprime to [phi]. *)
Definition rejected_exponent (f0 : nat) (rc : rsa_config) (phi : Z)
    (w w' : world) : Prop :=
  exists cand : Z,
    z_gen f0 (e_len rc) w = Val (cand, w') /\ coprime cand phi = false.

(** The worlds a one-digit prime search goes through on a stream of 9s:
    each turn draws the candidate 9 and the base 0. *)
Definition nines (i : nat) : world :=
  mkWorld (entropy (constant_world 9)) (i * 2) [].

(** The worlds a one-digit exponent search goes through on a stream of
    2s. *)
Definition twos (i : nat) : world :=
  mkWorld (entropy (constant_world 2)) i [].

(* ================================================================== *)
(** ** Properties                                                      *)
(* ================================================================== *)

(** *** Zarith and runtime facts *)

Lemma powm_nonneg_exponent (a b n : Z) :
  0 < n -> 0 <= b -> Zarith.powm a b n = Val (a ^ b mod n).
Proof.
  intros Hn Hb. unfold Zarith.powm.
  destruct (Z.eqb_spec n 0) as [->|_]; [lia|].
  destruct (Z.leb_spec 0 b) as [_|]; [|lia].
  rewrite Z.abs_eq by lia.
  now rewrite Zpow_mod_correct by lia.
Qed.

Lemma char_code_range (ch : ascii) : 0 <= char_code ch < 256.
Proof.
  unfold char_code. pose proof (nat_ascii_bounded ch). lia.
Qed.

(** *** Block encryption *)

(** C4, as the code has it: [plaintext_encrypt] makes no range check on the
    block.  For every integer [m] and every public key with a positive
    modulus and a non-negative exponent it returns [m ^ e mod n], also when
    [m] lies outside [0, n). *)
Theorem plaintext_encrypt_any_block (m : Z) (ty : string) (pk : public_key) :
  0 < pub_n pk -> 0 <= pub_e pk ->
  plaintext_encrypt {| message := m; types := ty |} pk
  = Val {| c := m ^ pub_e pk mod pub_n pk; c_types := ty |}.
Proof.
  intros Hn He. unfold plaintext_encrypt; cbn [message types].
  now rewrite powm_nonneg_exponent.
Qed.

Lemma plaintext_encrypt_any_block_witness :
  0 < 3 /\ 0 <= 1 /\
  plaintext_encrypt {| message := 5; types := "String" |}
                    {| pub_n := 3; pub_e := 1 |}
  = Val {| c := 5 ^ 1 mod 3; c_types := "String" |}.
Proof.
  split; [lia|]. split; [lia|].
  apply (plaintext_encrypt_any_block 5 "String" {| pub_n := 3; pub_e := 1 |});
    cbn; lia.
Defined.

(** The block 5 is not below the modulus 3, and encryption returns a
    ciphertext instead of failing. *)
Lemma plaintext_encrypt_accepts_large_block :
  ~ (0 <= 5 < 3) /\
  plaintext_encrypt {| message := 5; types := "String" |}
                    {| pub_n := 3; pub_e := 1 |}
  = Val {| c := 2; c_types := "String" |}.
Proof.
  split; [lia | reflexivity].
Qed.

(** *** The block-to-integer encoding *)

Lemma encode_base256 (chars : list ascii) (acc : Z) :
  encode acc chars
  = acc * 256 ^ Z.of_nat (List.length chars) + base256_value chars.
Proof.
  revert acc. induction chars as [|h t IH]; intros acc; cbn [encode base256_value List.length].
  - cbn. lia.
  - rewrite IH, Nat2Z.inj_succ, Z.pow_succ_r by lia. ring.
Qed.

Lemma char_code_zero : char_code zero = 0.
Proof. reflexivity. Qed.

Lemma string_cons_neq (ch : ascii) (s : string) : String ch s <> s.
Proof.
  induction s as [|ch' s IH]; [discriminate|].
  intros H. injection H as Hc H. subst ch'. now apply IH.
Qed.

(** C10: [plaintext_input_string] computes the big-endian base-256 value of
    the string.  A leading zero byte does not change that value, so the
    distinct blocks [s] and [0 :: s] have the same encoding and the same
    ciphertext under every key, and no decryption function returns both. *)
Theorem plaintext_input_string_not_injective (s : string) :
  message (plaintext_input_string s) = base256_value (list_ascii_of_string s)
  /\ String zero s <> s
  /\ plaintext_input_string (String zero s) = plaintext_input_string s
  /\ (forall pk : public_key,
        plaintext_encrypt (plaintext_input_string (String zero s)) pk
        = plaintext_encrypt (plaintext_input_string s) pk)
  /\ (forall (pk : public_key) (recover : outcome ciphertext -> string),
        ~ (recover (plaintext_encrypt (plaintext_input_string (String zero s)) pk)
             = String zero s
           /\ recover (plaintext_encrypt (plaintext_input_string s) pk) = s)).
Proof.
  assert (Heq : plaintext_input_string (String zero s) = plaintext_input_string s).
  { unfold plaintext_input_string. cbn [list_ascii_of_string encode].
    now rewrite char_code_zero. }
  split; [|split; [|split; [|split]]].
  - unfold plaintext_input_string; cbn [message].
    rewrite encode_base256. lia.
  - apply string_cons_neq.
  - exact Heq.
  - intros pk. now rewrite Heq.
  - intros pk recover [H1 H2]. rewrite Heq in H1.
    rewrite H2 in H1. symmetry in H1. now apply string_cons_neq in H1.
Qed.

(** *** Embedding into the image *)

Lemma int_wrap_small (x : Z) : - 2 ^ 62 <= x < 2 ^ 62 -> int_wrap x = x.
Proof.
  intros H. unfold int_wrap. rewrite Z.mod_small; lia.
Qed.

Lemma image_size_exact (file : ppm) :
  well_formed_image file ->
  int_mul (int_mul (width file) (height file)) 3
  = width file * height file * 3.
Proof.
  intros (Hw & Hh & _ & Hmax). unfold int_mul, Bytes.max_length in *.
  assert (0 <= width file * height file) by nia.
  rewrite (int_wrap_small (width file * height file)) by lia.
  apply int_wrap_small. lia.
Qed.

Lemma string_get_nth_error (s : string) (k : nat) :
  String.get k s = nth_error (list_ascii_of_string s) k.
Proof.
  revert k. induction s as [|ch s IH]; intros [|k]; cbn; auto.
Qed.

Lemma list_ascii_of_string_app (a b : string) :
  list_ascii_of_string (a ++ b)
  = (list_ascii_of_string a ++ list_ascii_of_string b)%list.
Proof.
  induction a as [|ch a IH]; cbn; [reflexivity | now rewrite IH].
Qed.

Lemma string_length_list (s : string) :
  String.length s = List.length (list_ascii_of_string s).
Proof.
  induction s as [|ch s IH]; cbn; [reflexivity | now rewrite IH].
Qed.

Lemma header_length (nbits : nat) (v : Z) :
  String.length (int_to_fixed_length_binary nbits v) = nbits.
Proof.
  induction nbits as [|w IH]; cbn; [reflexivity | now rewrite IH].
Qed.

Lemma header_is_bitstream (nbits : nat) (v : Z) :
  is_bitstream (int_to_fixed_length_binary nbits v) = true.
Proof.
  unfold is_bitstream.
  induction nbits as [|w IH]; cbn [int_to_fixed_length_binary list_ascii_of_string forallb];
    [reflexivity|].
  rewrite IH. now destruct (Z.testbit v (Z.of_nat w)).
Qed.

Lemma full_bitstream_length (payload : string) :
  Str.length (full_bitstream payload) = 30 + Str.length payload.
Proof.
  unfold Str.length, full_bitstream.
  rewrite !string_length_list, list_ascii_of_string_app, length_app,
    <- !string_length_list, header_length. lia.
Qed.

Lemma full_bitstream_bits (payload : string) :
  is_bitstream payload = true -> is_bitstream (full_bitstream payload) = true.
Proof.
  intros H.
  pose proof (header_is_bitstream 30 (message_length payload)) as Hh.
  unfold is_bitstream, full_bitstream in *.
  now rewrite list_ascii_of_string_app, forallb_app, H, Hh.
Qed.

Lemma bitstream_get (s : string) (k : Z) :
  is_bitstream s = true -> 0 <= k < Str.length s ->
  exists ch, String.get (Z.to_nat k) s = Some ch /\ is_bit ch = true.
Proof.
  unfold is_bitstream, Str.length. intros Hb Hk.
  rewrite string_length_list in Hk. rewrite string_get_nth_error.
  destruct (nth_error (list_ascii_of_string s) (Z.to_nat k)) as [ch|] eqn:E.
  - exists ch. split; [reflexivity|].
    rewrite forallb_forall in Hb. apply Hb. eapply nth_error_In; eauto.
  - apply nth_error_None in E. lia.
Qed.

(** What overwriting the last bit does to a byte, by cases on the byte. *)
Lemma stego_byte_facts (byte bit : ascii) :
  is_bit bit = true ->
  let v := if Ascii.eqb bit "1" then Z.lor (char_code byte) 1
           else Z.land (char_code byte) 254 in
  0 <= v <= 255
  /\ v = with_last_bit (char_code byte) (Ascii.eqb bit "1")
  /\ Z.testbit v 0 = Ascii.eqb bit "1"
  /\ Z.abs (v - char_code byte) <= 1.
Proof.
  intros Hbit.
  assert (Hb : bit = "0"%char \/ bit = "1"%char).
  { unfold is_bit in Hbit. apply orb_true_iff in Hbit.
    destruct Hbit as [H|H]; apply Ascii.eqb_eq in H; auto. }
  destruct byte as [[] [] [] [] [] [] [] []];
    destruct Hb as [-> | ->]; vm_compute; intuition discriminate.
Qed.

Lemma stego_byte_code (byte bit : ascii) :
  is_bit bit = true ->
  char_code (stego_byte byte bit)
  = with_last_bit (char_code byte) (Ascii.eqb bit "1")
  /\ Z.testbit (char_code (stego_byte byte bit)) 0 = Ascii.eqb bit "1"
  /\ Z.abs (char_code (stego_byte byte bit) - char_code byte) <= 1.
Proof.
  intros Hbit. pose proof (stego_byte_facts byte bit Hbit) as (Hr & Hv & Ht & Ha).
  cbv zeta in *.
  assert (E : char_code (stego_byte byte bit)
              = if Ascii.eqb bit "1" then Z.lor (char_code byte) 1
                else Z.land (char_code byte) 254).
  { unfold stego_byte, char_code at 1.
    rewrite nat_ascii_embedding by lia. lia. }
  rewrite E. auto.
Qed.

Lemma update_length (b : Bytes.t) (i : nat) (ch : ascii) :
  List.length (Bytes.update b i ch) = List.length b.
Proof.
  revert i. induction b as [|x b IH]; intros [|i]; cbn; auto.
Qed.

Lemma update_nth (b : Bytes.t) (i j : nat) (ch : ascii) :
  (i < List.length b)%nat ->
  nth j (Bytes.update b i ch) zero = if Nat.eqb j i then ch else nth j b zero.
Proof.
  revert i j. induction b as [|x b IH]; intros [|i] [|j] Hi; cbn in *;
    try lia; auto.
  apply IH. lia.
Qed.

(** One iteration of the loop while message bits remain. *)
Lemma insert_step_writes (bits : string) (i : Z) (buffer : Bytes.t) :
  is_bitstream bits = true ->
  0 <= i < Str.length bits -> i < Bytes.length buffer ->
  exists ch, String.get (Z.to_nat i) bits = Some ch /\ is_bit ch = true /\
    insert_step bits i (buffer, i)
    = Val (Bytes.update buffer (Z.to_nat i)
             (stego_byte (nth (Z.to_nat i) buffer zero) ch), i + 1).
Proof.
  intros Hbits Hi Hlen.
  destruct (bitstream_get bits i Hbits Hi) as (ch & Hget & Hbit).
  exists ch. split; [exact Hget|]. split; [exact Hbit|].
  unfold insert_step, Bytes.get, Bytes.set, string_get, Char.chr, Char.code.
  destruct (Z.ltb_spec i (Str.length bits)) as [_|]; [|lia].
  destruct (Z.ltb_spec i 0) as [|_]; [lia|].
  destruct (Z.leb_spec (Bytes.length buffer) i) as [|_]; [lia|].
  cbn [orb obind]. rewrite Hget. cbn [obind].
  pose proof (stego_byte_facts (nth (Z.to_nat i) buffer zero) ch Hbit) as (Hr & _).
  cbv zeta in Hr.
  assert (Hcases : ch = "0"%char \/ ch = "1"%char).
  { unfold is_bit in Hbit. apply orb_true_iff in Hbit.
    destruct Hbit as [H|H]; apply Ascii.eqb_eq in H; auto. }
  unfold overwrite_last_bit, stego_byte.
  destruct Hcases as [-> | ->]; cbn [Ascii.eqb Bool.eqb obind] in *;
    (destruct (Z.ltb_spec (Z.lor (char_code (nth (Z.to_nat i) buffer zero)) 1) 0);
     destruct (Z.ltb_spec 255 (Z.lor (char_code (nth (Z.to_nat i) buffer zero)) 1));
     destruct (Z.ltb_spec (Z.land (char_code (nth (Z.to_nat i) buffer zero)) 254) 0);
     destruct (Z.ltb_spec 255 (Z.land (char_code (nth (Z.to_nat i) buffer zero)) 254));
     try lia; reflexivity).
Qed.

(** One iteration once the message is exhausted. *)
Lemma insert_step_idle (bits : string) (i k : Z) (buffer : Bytes.t) :
  Str.length bits <= k ->
  insert_step bits i (buffer, k) = Val (buffer, k).
Proof.
  intros Hk. unfold insert_step.
  destruct (Z.ltb_spec k (Str.length bits)); [lia | reflexivity].
Qed.

(** The whole loop: bytes [i .. i + count - 1] receive the message bits of
    the same index as long as there are any; nothing else changes. *)
Lemma for_loop_insert (bits : string) :
  is_bitstream bits = true ->
  forall (count : nat) (i : Z) (buffer : Bytes.t),
    0 <= i -> i + Z.of_nat count <= Bytes.length buffer ->
    exists buffer',
      for_loop count i (insert_step bits) (buffer, Z.min i (Str.length bits))
      = Val (buffer', Z.min (i + Z.of_nat count) (Str.length bits))
      /\ List.length buffer' = List.length buffer
      /\ forall j : nat,
           nth j buffer' zero
           = if (i <=? Z.of_nat j) && (Z.of_nat j <? i + Z.of_nat count)
                && (Z.of_nat j <? Str.length bits)
             then stego_byte (nth j buffer zero) (symbol_at bits j)
             else nth j buffer zero.
Proof.
  intros Hbits. induction count as [|count IH]; intros i buffer Hi Hlen.
  - exists buffer. cbn [for_loop]. rewrite Z.add_0_r.
    split; [reflexivity|]. split; [reflexivity|].
    intros j.
    destruct (Z.leb_spec i (Z.of_nat j)), (Z.ltb_spec (Z.of_nat j) i);
      cbn; try reflexivity; lia.
  - cbn [for_loop]. unfold Bytes.length in *.
    destruct (Z.lt_ge_cases i (Str.length bits)) as [Hlt|Hge].
    + rewrite (Z.min_l i) by lia.
      destruct (insert_step_writes bits i buffer Hbits) as (ch & Hget & Hbit & Hstep);
        [lia | unfold Bytes.length; lia |].
      rewrite Hstep. cbn [obind].
      set (buffer1 := Bytes.update buffer (Z.to_nat i)
                        (stego_byte (nth (Z.to_nat i) buffer zero) ch)) in *.
      destruct (IH (i + 1) buffer1) as (buffer' & Hrun & Hl & Hnth);
        [lia | unfold buffer1; rewrite update_length; lia |].
      rewrite (Z.min_l (i + 1)) in Hrun by lia.
      exists buffer'. split; [|split].
      * rewrite Hrun. f_equal. f_equal. lia.
      * rewrite Hl. unfold buffer1. apply update_length.
      * intros j. rewrite Hnth. unfold buffer1.
        rewrite update_nth by lia.
        destruct (Nat.eqb_spec j (Z.to_nat i)) as [->|Hne].
        -- rewrite Z2Nat.id by lia.
           unfold symbol_at. rewrite Hget.
           destruct (Z.leb_spec (i + 1) i), (Z.leb_spec i i),
             (Z.ltb_spec i (i + Z.of_nat (S count))),
             (Z.ltb_spec i (Str.length bits)); cbn; try reflexivity; lia.
        -- destruct (Z.leb_spec (i + 1) (Z.of_nat j)),
             (Z.leb_spec i (Z.of_nat j)),
             (Z.ltb_spec (Z.of_nat j) (i + 1 + Z.of_nat count)),
             (Z.ltb_spec (Z.of_nat j) (i + Z.of_nat (S count)));
             cbn; try reflexivity; lia.
    + rewrite (Z.min_r i) by lia.
      rewrite insert_step_idle by lia. cbn [obind].
      destruct (IH (i + 1) buffer) as (buffer' & Hrun & Hl & Hnth); [lia | lia |].
      rewrite (Z.min_r (i + 1)) in Hrun by lia.
      exists buffer'. split; [|split].
      * rewrite Hrun. f_equal. f_equal. lia.
      * exact Hl.
      * intros j. rewrite Hnth.
        destruct (Z.leb_spec (i + 1) (Z.of_nat j)),
          (Z.leb_spec i (Z.of_nat j)),
          (Z.ltb_spec (Z.of_nat j) (i + 1 + Z.of_nat count)),
          (Z.ltb_spec (Z.of_nat j) (i + Z.of_nat (S count))),
          (Z.ltb_spec (Z.of_nat j) (Str.length bits));
          cbn; try reflexivity; lia.
Qed.

(** Loading the image: [Bytes.create] followed by [really_input] yields the
    pixel data. *)
Lemma load_buffer (file : ppm) :
  well_formed_image file ->
  (let* buffer := Bytes.create (width file * height file * 3) in
   really_input (pixels file) buffer 0 (width file * height file * 3))
  = Val (pixels file).
Proof.
  intros (Hw & Hh & Hlen & Hmax).
  assert (Hsz : 0 <= width file * height file * 3) by nia.
  unfold Bytes.create.
  destruct (Z.ltb_spec (width file * height file * 3) 0); [lia|].
  destruct (Z.ltb_spec Bytes.max_length (width file * height file * 3)); [lia|].
  cbn [orb obind]. unfold really_input, Bytes.length in *.
  rewrite repeat_length, Z2Nat.id by lia.
  destruct (Z.ltb_spec 0 0); [lia|].
  destruct (Z.ltb_spec (width file * height file * 3) 0); [lia|].
  destruct (Z.ltb_spec (width file * height file * 3)
                       (0 + width file * height file * 3)); [lia|].
  destruct (Z.ltb_spec (Z.of_nat (List.length (pixels file)))
                       (width file * height file * 3)); [lia|].
  cbn [orb]. f_equal.
  change (Z.to_nat 0) with 0%nat. cbn [firstn app].
  rewrite skipn_all2 by (rewrite repeat_length; lia).
  rewrite app_nil_r. apply firstn_all2. lia.
Qed.

(** What [insert_message] returns on a well-formed carrier: it never
    fails, and byte [k] of the output carries bit [k] of header ++ payload
    when there is such a bit and is the input byte otherwise. *)
Lemma insert_message_spec (string_to_binary : string -> string)
    (file : ppm) (message : string) :
  well_formed_image file ->
  is_bitstream (string_to_binary message) = true ->
  exists out,
    insert_message string_to_binary file message = Val out
    /\ width out = width file /\ height out = height file
    /\ max_val out = max_val file
    /\ List.length (pixels out) = List.length (pixels file)
    /\ forall k : Z, 0 <= k < width file * height file * 3 ->
         nth (Z.to_nat k) (pixels out) zero
         = if k <? 30 + Str.length (string_to_binary message)
           then stego_byte (nth (Z.to_nat k) (pixels file) zero)
                  (symbol_at (full_bitstream (string_to_binary message)) (Z.to_nat k))
           else nth (Z.to_nat k) (pixels file) zero.
Proof.
  intros Hwf Hbits. unfold insert_message.
  rewrite (image_size_exact file Hwf).
  pose proof (load_buffer file Hwf) as Hload.
  destruct (Bytes.create (width file * height file * 3)) as [b0| |];
    cbn [obind] in Hload |- *; try discriminate.
  rewrite Hload. cbn [obind].
  destruct Hwf as (Hw & Hh & Hlen & Hmax).
  assert (Hsz : 0 <= width file * height file * 3) by nia.
  fold (full_bitstream (string_to_binary message)).
  destruct (for_loop_insert (full_bitstream (string_to_binary message))
              (full_bitstream_bits _ Hbits)
              (Z.to_nat (width file * height file * 3)) 0 (pixels file))
    as (buffer' & Hrun & Hl & Hnth); [lia | lia |].
  rewrite Z.min_l in Hrun
    by (rewrite full_bitstream_length; unfold Str.length; lia).
  rewrite Hrun. cbn [obind fst].
  eexists. split; [reflexivity|]. cbn [width height max_val pixels].
  repeat split; auto.
  intros k Hk. rewrite Hnth, Z2Nat.id, Z2Nat.id by lia.
  rewrite full_bitstream_length.
  destruct (Z.leb_spec 0 k), (Z.ltb_spec k (0 + width file * height file * 3));
    cbn [andb]; try lia. reflexivity.
Qed.

Lemma bit_at_symbol (bits : string) (k : Z) :
  bit_at bits k = Ascii.eqb (symbol_at bits (Z.to_nat k)) "1".
Proof.
  unfold bit_at, symbol_at. now destruct (String.get (Z.to_nat k) bits).
Qed.

Lemma symbol_is_bit (bits : string) (k : Z) :
  is_bitstream bits = true -> 0 <= k < Str.length bits ->
  is_bit (symbol_at bits (Z.to_nat k)) = true.
Proof.
  intros Hb Hk. destruct (bitstream_get bits k Hb Hk) as (ch & Hget & Hbit).
  unfold symbol_at. now rewrite Hget.
Qed.

Lemma stego_byte_carries (bits : string) (input output : Bytes.t) (k : Z) :
  is_bitstream bits = true -> 0 <= k < Str.length bits ->
  nth (Z.to_nat k) output zero
  = stego_byte (nth (Z.to_nat k) input zero) (symbol_at bits (Z.to_nat k)) ->
  carries_bit bits input output k.
Proof.
  intros Hb Hk Hnth. unfold carries_bit, byte_at. rewrite Hnth, bit_at_symbol.
  pose proof (stego_byte_code (nth (Z.to_nat k) input zero)
                (symbol_at bits (Z.to_nat k)) (symbol_is_bit bits k Hb Hk))
    as (H1 & H2 & H3).
  auto.
Qed.

Lemma scan_index_range (w h row col chan : Z) :
  0 <= row < h -> 0 <= col < w -> 0 <= chan < 3 ->
  0 <= scan_index w row col chan < w * h * 3.
Proof.
  unfold scan_index. intros Hr Hc Hch. nia.
Qed.

(** Every byte of the image is the channel of some pixel. *)
Lemma scan_index_onto (w h k : Z) :
  0 <= w -> 0 <= h -> 0 <= k < w * h * 3 ->
  exists row col chan,
    0 <= row < h /\ 0 <= col < w /\ 0 <= chan < 3
    /\ k = scan_index w row col chan.
Proof.
  intros Hw0 Hh0 Hk. assert (Hw : 0 < w \/ w = 0) by lia.
  destruct Hw as [Hw|Hw].
  - exists (k / 3 / w), ((k / 3) mod w), (k mod 3).
    pose proof (Z.mod_pos_bound k 3 ltac:(lia)).
    pose proof (Z.mod_pos_bound (k / 3) w Hw).
    pose proof (Z.div_mod k 3 ltac:(lia)).
    pose proof (Z.div_mod (k / 3) w ltac:(lia)).
    assert (0 <= k / 3) by (apply Z.div_pos; lia).
    assert (0 <= k / 3 / w) by (apply Z.div_pos; lia).
    assert (k / 3 < w * h) by (apply Z.div_lt_upper_bound; lia).
    assert (k / 3 / w < h) by (apply Z.div_lt_upper_bound; lia).
    unfold scan_index. repeat split; try lia.
  - subst w. lia.
Qed.

(** C7: on a well-formed carrier and a bitstream that fits, [insert_message]
    succeeds and writes bit [k] of header ++ payload into the least
    significant bit of the [k]-th byte in row-major R, G, B order; a byte
    that receives a bit keeps its seven upper bits and moves by at most 1,
    and every byte past the end of the bitstream is unchanged. *)
Theorem insert_message_lsb_embedding (string_to_binary : string -> string)
    (file : ppm) (message : string) :
  well_formed_image file ->
  is_bitstream (string_to_binary message) = true ->
  30 + Str.length (string_to_binary message) <= width file * height file * 3 ->
  exists out,
    insert_message string_to_binary file message = Val out
    /\ List.length (pixels out) = List.length (pixels file)
    /\ forall row col chan : Z,
         0 <= row < height file -> 0 <= col < width file -> 0 <= chan < 3 ->
         let k := scan_index (width file) row col chan in
         let bits := full_bitstream (string_to_binary message) in
         (k < Str.length bits -> carries_bit bits (pixels file) (pixels out) k)
         /\ (Str.length bits <= k -> byte_at (pixels out) k = byte_at (pixels file) k).
Proof.
  intros Hwf Hbits Hfits.
  destruct (insert_message_spec string_to_binary file message Hwf Hbits)
    as (out & Hrun & _ & _ & _ & Hlen & Hnth).
  exists out. split; [exact Hrun|]. split; [exact Hlen|].
  intros row col chan Hr Hc Hch k bits.
  pose proof (scan_index_range (width file) (height file) row col chan Hr Hc Hch) as Hk.
  fold k in Hk. specialize (Hnth k Hk).
  unfold bits. rewrite full_bitstream_length. split.
  - intros Hlt.
    destruct (Z.ltb_spec k (30 + Str.length (string_to_binary message))); [|lia].
    apply stego_byte_carries; auto.
    + now apply full_bitstream_bits.
    + rewrite full_bitstream_length. lia.
  - intros Hge.
    destruct (Z.ltb_spec k (30 + Str.length (string_to_binary message))); [lia|].
    unfold byte_at. now rewrite Hnth.
Qed.

Lemma eleven_pixel_image_well_formed : well_formed_image eleven_pixel_image.
Proof.
  unfold well_formed_image, Bytes.length, Bytes.max_length; cbn. lia.
Qed.

Lemma insert_message_lsb_embedding_witness :
  exists out,
    insert_message already_binary eleven_pixel_image "11" = Val out
    /\ List.length (pixels out) = List.length (pixels eleven_pixel_image)
    /\ forall row col chan : Z,
         0 <= row < 1 -> 0 <= col < 11 -> 0 <= chan < 3 ->
         let k := scan_index 11 row col chan in
         let bits := full_bitstream "11" in
         (k < Str.length bits
          -> carries_bit bits (pixels eleven_pixel_image) (pixels out) k)
         /\ (Str.length bits <= k
             -> byte_at (pixels out) k = byte_at (pixels eleven_pixel_image) k).
Proof.
  apply (insert_message_lsb_embedding already_binary eleven_pixel_image "11").
  - exact eleven_pixel_image_well_formed.
  - reflexivity.
  - vm_compute. discriminate.
Defined.

(** C3, as the code has it: [insert_message] compares nothing with the
    capacity.  On every well-formed carrier and every payload bitstream it
    succeeds; the first [min (30 + len payload) (w * h * 3)] bits of
    header ++ payload are embedded, which is all of them when
    [30 + len payload <= w * h * 3], and the bytes past them are unchanged. *)
Theorem insert_message_no_capacity_check (string_to_binary : string -> string)
    (file : ppm) (message : string) :
  well_formed_image file ->
  is_bitstream (string_to_binary message) = true ->
  exists out,
    insert_message string_to_binary file message = Val out
    /\ (forall k : Z,
          0 <= k < Z.min (30 + Str.length (string_to_binary message))
                         (width file * height file * 3) ->
          Z.testbit (byte_at (pixels out) k) 0
          = bit_at (full_bitstream (string_to_binary message)) k)
    /\ (forall k : Z,
          30 + Str.length (string_to_binary message) <= k
            < width file * height file * 3 ->
          byte_at (pixels out) k = byte_at (pixels file) k).
Proof.
  intros Hwf Hbits.
  destruct (insert_message_spec string_to_binary file message Hwf Hbits)
    as (out & Hrun & _ & _ & _ & Hlen & Hnth).
  exists out. split; [exact Hrun|]. split.
  - intros k Hk. specialize (Hnth k ltac:(lia)).
    destruct (Z.ltb_spec k (30 + Str.length (string_to_binary message))); [|lia].
    apply (stego_byte_carries _ (pixels file)); auto.
    + now apply full_bitstream_bits.
    + rewrite full_bitstream_length. lia.
  - intros k Hk.
    assert (0 <= Str.length (string_to_binary message))
      by (unfold Str.length; lia).
    specialize (Hnth k ltac:(lia)).
    destruct (Z.ltb_spec k (30 + Str.length (string_to_binary message))); [lia|].
    unfold byte_at. now rewrite Hnth.
Qed.

Lemma one_pixel_image_well_formed : well_formed_image one_pixel_image.
Proof.
  unfold well_formed_image, Bytes.length, Bytes.max_length; cbn. lia.
Qed.

Lemma insert_message_no_capacity_check_witness :
  exists out,
    insert_message already_binary one_pixel_image "1" = Val out
    /\ (forall k : Z,
          0 <= k < Z.min (30 + Str.length "1") (1 * 1 * 3) ->
          Z.testbit (byte_at (pixels out) k) 0 = bit_at (full_bitstream "1") k)
    /\ (forall k : Z,
          30 + Str.length "1" <= k < 1 * 1 * 3 ->
          byte_at (pixels out) k = byte_at (pixels one_pixel_image) k).
Proof.
  apply (insert_message_no_capacity_check already_binary one_pixel_image "1").
  - exact one_pixel_image_well_formed.
  - reflexivity.
Defined.

(** A one-pixel carrier has room for 3 bits; header and payload take 31.
    [insert_message] returns an image all the same: the first three header
    bits are embedded and the rest of the bitstream is dropped. *)
Lemma insert_message_accepts_oversized_payload :
  30 + Str.length (already_binary "1")
    > width one_pixel_image * height one_pixel_image * 3
  /\ insert_message already_binary one_pixel_image "1"
     = Val {| width := 1; height := 1; max_val := "255";
              pixels := ["@"; "B"; "B"]%char |}.
Proof.
  split; [vm_compute; reflexivity | reflexivity].
Qed.

(** *** The primality test *)

Lemma rem_by_2 (num : Z) : Zarith.rem num 2 = Val (Z.rem num 2).
Proof. reflexivity. Qed.

Lemma div_by_2 (num : Z) : Zarith.div num 2 = Val (Z.quot num 2).
Proof. reflexivity. Qed.

(** [get_factor_q] returns the odd part of a positive number, given fuel
    for its binary logarithm. *)
Lemma get_factor_q_spec (fuel : nat) :
  forall num : Z,
    0 < num -> Z.log2 num < Z.of_nat fuel ->
    exists (q : Z) (s : nat),
      get_factor_q fuel num = Val q
      /\ Z.odd q = true /\ 0 < q /\ num = 2 ^ Z.of_nat s * q.
Proof.
  induction fuel as [|fuel IH]; intros num Hpos Hfuel.
  - pose proof (Z.log2_nonneg num). lia.
  - cbn [get_factor_q]. rewrite rem_by_2. cbn [obind].
    rewrite Z.rem_mod_nonneg by lia.
    pose proof (Z.div_mod num 2 ltac:(lia)) as Hdm.
    pose proof (Z.mod_pos_bound num 2 ltac:(lia)) as Hmod.
    destruct (Z.eqb_spec (num mod 2) 0) as [Hz|Hnz].
    + rewrite div_by_2. cbn [obind].
      rewrite Z.quot_div_nonneg by lia.
      assert (Hhalf : 0 < num / 2) by lia.
      destruct (IH (num / 2) Hhalf) as (q & s & Hrun & Hodd & Hq & Hnum).
      * replace num with (2 * (num / 2)) in Hfuel by lia.
        rewrite Z.log2_double in Hfuel by lia. lia.
      * exists q, (S s). rewrite Hrun. repeat split; auto.
        rewrite Nat2Z.inj_succ, Z.pow_succ_r by lia. lia.
    + exists num, 0%nat. split; [reflexivity|]. split; [|split; [lia|]].
      * rewrite Zodd_mod. apply Z.eqb_eq. lia.
      * change (Z.of_nat 0) with 0. rewrite Z.pow_0_r. lia.
Qed.

(** [get_factor_q 0] never returns: 0 is even and half of 0 is 0. *)
Lemma get_factor_q_zero_diverges (fuel : nat) : get_factor_q fuel 0 = OutOfFuel.
Proof.
  induction fuel as [|fuel IH]; [reflexivity|].
  cbn [get_factor_q]. rewrite rem_by_2. cbn. exact IH.
Qed.

Lemma io_bind_lift_val {A B : Type} (a : A) (k : A -> io B) (w : world) :
  (x <- lift (Val a) ;; k x) w = k a w.
Proof. reflexivity. Qed.

Lemma square_of_minus_one (n : Z) : 1 < n -> ((n - 1) * (n - 1)) mod n = 1.
Proof.
  intros Hn. replace ((n - 1) * (n - 1)) with (1 + (n - 2) * n) by ring.
  rewrite Z.mod_add by lia. apply Z.mod_small. lia.
Qed.

(** One round: the innermost loop continues with the next trial exactly
    when [round_passes] holds, and answers [false] otherwise. *)
Lemma miller_rabin_round (fuel : nat) (n a q : Z) (next_trial : io bool)
    (w : world) :
  2 < n -> 0 <= q -> (2 <= fuel)%nat ->
  miller_rabin_test'' fuel n a next_trial q w
  = if round_passes n q a then next_trial w else Val (false, w).
Proof.
  intros Hn Hq Hfuel.
  destruct fuel as [|[|fuel]]; try lia.
  cbn [miller_rabin_test''].
  rewrite !powm_nonneg_exponent by lia. rewrite !io_bind_lift_val.
  unfold round_passes. cbv zeta.
  pose proof (Z.mod_pos_bound (a ^ q) n ltac:(lia)) as Hx.
  set (x := a ^ q mod n) in *.
  rewrite Z.abs_eq by lia.
  destruct (Z.eqb_spec x 1) as [_|Hx1]; [reflexivity|].
  cbn [orb].
  destruct (Z.eqb_spec q (n - 1)) as [_|Hqn].
  { rewrite andb_false_r. reflexivity. }
  rewrite andb_true_r.
  unfold Zarith.rem. destruct (Z.eqb_spec n 0); [lia|].
  rewrite io_bind_lift_val, Z.rem_small by lia.
  rewrite io_bind_lift_val.
  destruct (Z.eqb_spec x (n - 1)) as [Hxn|_]; [|reflexivity].
  rewrite ?powm_nonneg_exponent by lia. rewrite io_bind_lift_val.
  replace (a ^ (q * 2) mod n) with 1.
  - reflexivity.
  - rewrite Z.pow_mul_r, Z.pow_2_r by lia.
    rewrite Z.mul_mod by lia. fold x. rewrite Hxn.
    symmetry. apply square_of_minus_one. lia.
Qed.

(** The loop over the trials. *)
Lemma miller_rabin_trials (n q : Z) :
  2 < n -> 0 <= q ->
  forall (trails fuel : nat) (w : world),
    (trails + 2 <= fuel)%nat ->
    miller_rabin_test' fuel n q (Z.of_nat trails) w
    = Val (run_trials (round_passes n q) (Z.min n Int64.max_int) trails w).
Proof.
  intros Hn Hq. induction trails as [|trails IH]; intros fuel w Hfuel.
  - destruct fuel as [|fuel]; [lia|]. reflexivity.
  - destruct fuel as [|fuel]; [lia|].
    cbn [miller_rabin_test' run_trials].
    destruct (Z.eqb_spec (Z.of_nat (S trails)) 0) as [|_]; [lia|].
    unfold Zarith.to_int64, Int64.min_int, Int64.max_int.
    destruct (Z.leb_spec (- 2 ^ 63) (Z.min n (2 ^ 63 - 1))); [|lia].
    destruct (Z.leb_spec (Z.min n (2 ^ 63 - 1)) (2 ^ 63 - 1)); [|lia].
    cbn [andb]. rewrite io_bind_lift_val.
    unfold bind at 1. unfold Random.int64.
    destruct (Z.leb_spec (Z.min n (2 ^ 63 - 1)) 0); [lia|].
    unfold Random.draw.
    rewrite miller_rabin_round by lia.
    destruct (round_passes n q _); [|reflexivity].
    replace (Z.of_nat (S trails) - 1) with (Z.of_nat trails) by lia.
    apply IH. lia.
Qed.

(** The whole test on a number above 2: [q] is the odd part of [n - 1] and
    each of the [trails] rounds applies [round_passes] to a base drawn from
    [0, min n Int64.max_int). *)
Lemma miller_rabin_test_spec (n : Z) (trails fuel : nat) (w : world) :
  2 < n -> Z.log2 n + Z.of_nat trails + 2 <= Z.of_nat fuel ->
  exists (q : Z) (s : nat),
    Z.odd q = true /\ 0 < q /\ n - 1 = 2 ^ Z.of_nat s * q
    /\ miller_rabin_test fuel (Some (Z.of_nat trails)) n w
       = Val (run_trials (round_passes n q) (Z.min n Int64.max_int) trails w).
Proof.
  intros Hn Hfuel.
  pose proof (Z.log2_nonneg n) as Hlog.
  assert (Hlog' : Z.log2 (n - 1) <= Z.log2 n) by (apply Z.log2_le_mono; lia).
  destruct (get_factor_q_spec fuel (n - 1)) as (q & s & Hq & Hodd & Hpos & Hdec);
    [lia | lia |].
  exists q, s. repeat split; auto.
  unfold miller_rabin_test.
  destruct (Z.eqb_spec 2 n); [lia|].
  rewrite Hq, io_bind_lift_val. cbn [default_trails].
  apply miller_rabin_trials; lia.
Qed.

Lemma run_trials_ext (pass pass' : Z -> bool) (bound : Z) :
  (forall a, pass a = pass' a) ->
  forall (trails : nat) (w : world),
    run_trials pass bound trails w = run_trials pass' bound trails w.
Proof.
  intros Hext. induction trails as [|trails IH]; intros w; cbn [run_trials].
  - reflexivity.
  - rewrite Hext. destruct (pass' _); [apply IH | reflexivity].
Qed.

(** On an odd number the round of the code passes exactly when
    [a ^ q mod n] is 1 or [n - 1]: nothing is squared in search of [n - 1]. *)
Lemma round_passes_odd (n q a : Z) :
  Z.odd n = true -> Z.odd q = true ->
  round_passes n q a = ((a ^ q mod n =? 1) || (a ^ q mod n =? n - 1)).
Proof.
  intros Hn Hq. unfold round_passes. cbv zeta.
  destruct (Z.eqb_spec q (n - 1)) as [E|_].
  - exfalso. rewrite E, Z.odd_sub, Hn in Hq. discriminate.
  - now rewrite andb_true_r.
Qed.

Lemma miller_rabin_test_odd (n : Z) (trails fuel : nat) (w : world) :
  2 < n -> Z.odd n = true ->
  Z.log2 n + Z.of_nat trails + 2 <= Z.of_nat fuel ->
  exists (q : Z) (s : nat),
    Z.odd q = true /\ 0 < q /\ n - 1 = 2 ^ Z.of_nat s * q
    /\ miller_rabin_test fuel (Some (Z.of_nat trails)) n w
       = Val (run_trials
                (fun a => (a ^ q mod n =? 1) || (a ^ q mod n =? n - 1))
                (Z.min n Int64.max_int) trails w).
Proof.
  intros Hn Hodd Hfuel.
  destruct (miller_rabin_test_spec n trails fuel w Hn Hfuel)
    as (q & s & Hq & Hpos & Hdec & Hrun).
  exists q, s. repeat split; auto.
  rewrite Hrun. f_equal. apply run_trials_ext.
  intros a. now apply round_passes_odd.
Qed.

(** C2 at n = 5 with one round and the base 2: 5 - 1 = 2^2 * 1, and
    squaring 2^1 mod 5 once gives 4 = 5 - 1, so the round passes as the
    specification words it; the code answers that 5 is composite. *)
Theorem miller_rabin_test_rejects_prime_5 :
  get_factor_q 10 (5 - 1) = Val 1
  /\ 5 - 1 = 2 ^ 2 * 1
  /\ entropy (constant_world 2) 0 mod Z.min 5 Int64.max_int = 2
  /\ spec_round_passes 5 2 1 2 = true
  /\ round_passes 5 1 2 = false
  /\ miller_rabin_test 10 (Some 1) 5 (constant_world 2)
     = Val (false, Random.consumed (constant_world 2)).
Proof.
  repeat split; reflexivity.
Qed.

(** C8, as the code has it: 2 is answered prime without a draw; an even
    number above 2 gets no shortcut.  Its odd part of [n - 1] is [n - 1]
    itself, the rounds run on bases drawn from [0, min n Int64.max_int),
    and a round passes exactly when [a ^ (n - 1) mod n = 1]. *)
Theorem miller_rabin_test_even (n : Z) (trails fuel : nat) (w : world) :
  2 < n -> Z.even n = true ->
  Z.log2 n + Z.of_nat trails + 2 <= Z.of_nat fuel ->
  (forall (fuel' : nat) (trails' : option Z) (w' : world),
      miller_rabin_test fuel' trails' 2 w' = Val (true, w'))
  /\ miller_rabin_test fuel (Some (Z.of_nat trails)) n w
     = Val (run_trials (fun a => a ^ (n - 1) mod n =? 1)
                       (Z.min n Int64.max_int) trails w).
Proof.
  intros Hn Heven Hfuel. split; [reflexivity|].
  destruct (miller_rabin_test_spec n trails fuel w Hn Hfuel)
    as (q & s & Hq & Hpos & Hdec & Hrun).
  assert (Hs : s = 0%nat).
  { destruct s as [|s]; [reflexivity|]. exfalso.
    rewrite Nat2Z.inj_succ, Z.pow_succ_r in Hdec by lia.
    apply Z.even_spec in Heven. destruct Heven as [k Hk]. lia. }
  subst s. change (Z.of_nat 0) with 0 in Hdec. rewrite Z.pow_0_r in Hdec.
  assert (Hqn : q = n - 1) by lia. subst q.
  rewrite Hrun. f_equal. apply run_trials_ext.
  intros a. unfold round_passes. cbv zeta.
  rewrite Z.eqb_refl, andb_false_r, orb_false_r. reflexivity.
Qed.

Lemma miller_rabin_test_even_witness :
  (forall (fuel' : nat) (trails' : option Z) (w' : world),
      miller_rabin_test fuel' trails' 2 w' = Val (true, w'))
  /\ miller_rabin_test 10 (Some (Z.of_nat 3)) 4 (constant_world 1)
     = Val (run_trials (fun a => a ^ (4 - 1) mod 4 =? 1)
                       (Z.min 4 Int64.max_int) 3 (constant_world 1)).
Proof.
  apply (miller_rabin_test_even 4 3 10 (constant_world 1)).
  - lia.
  - reflexivity.
  - vm_compute. discriminate.
Defined.

(** The even number 4 is answered prime after fifty random rounds when
    every base drawn is 1. *)
Lemma miller_rabin_test_accepts_4 :
  2 < 4 /\ Z.even 4 = true
  /\ miller_rabin_test 100 None 4 (constant_world 1)
     = Val (true, mkWorld (entropy (constant_world 1)) 50 []).
Proof.
  split; [lia|]. split; reflexivity.
Qed.

(** *** Key generation *)

Lemma bind_val_inv {A B : Type} (m : io A) (k : A -> io B) (w : world)
    (r : B * world) :
  (x <- m ;; k x) w = Val r ->
  exists (a : A) (w' : world), m w = Val (a, w') /\ k a w' = Val r.
Proof.
  unfold bind. destruct (m w) as [[a w']| |]; try discriminate.
  intros H. now exists a, w'.
Qed.

Lemma lift_val_inv {A : Type} (m : outcome A) (w : world) (r : A * world) :
  lift m w = Val r -> m = Val (fst r) /\ snd r = w.
Proof.
  unfold lift. destruct m; try discriminate.
  intros H. injection H as <-. auto.
Qed.

Lemma same_residue_abs (m x y : Z) :
  x mod Z.abs m = y mod Z.abs m -> x mod m = y mod m.
Proof.
  destruct (Z.abs_eq_or_opp m) as [-> | ->]; [auto|].
  apply Z.eq_mod_opp.
Qed.

(** [Z.invert] returns an inverse. *)
Lemma invert_spec (a m d : Z) :
  Zarith.invert a m = Val d ->
  Z.gcd a m = 1 /\ (a * d) mod m = 1 mod m
  /\ (m <> 0 -> 0 <= d < Z.abs m) /\ (m = 0 -> d = a).
Proof.
  unfold Zarith.invert.
  destruct (Z.eqb_spec (Z.gcd a m) 1) as [Hg|]; [|discriminate].
  cbn [negb].
  destruct (Z.eqb_spec m 0) as [Hm|Hm]; intros H; injection H as <-.
  - subst m. rewrite Z.gcd_0_r in Hg.
    split; [now rewrite Z.gcd_0_r|]. split; [|split; [contradiction | reflexivity]].
    rewrite !Z.mod_0_r. nia.
  - split; [exact Hg|]. split; [|split; [|contradiction]].
    + apply same_residue_abs. rewrite Z.mul_comm.
      apply Z.invmod_coprime'. unfold Z.coprime. now rewrite Z.gcd_abs_r.
    + intros _. rewrite <- Z.mod_invmod. apply Z.mod_pos_bound. lia.
Qed.

(** The exponent search returns only a candidate that passed [coprime]. *)
Lemma e_gen_coprime (fuel : nat) (rc : rsa_config) (phi : Z) :
  forall (w : world) (e : Z) (w' : world),
    e_gen' fuel rc phi w = Val (e, w') -> coprime e phi = true.
Proof.
  induction fuel as [|fuel IH]; intros w e w' H; [discriminate|].
  cbn [e_gen'] in H. apply bind_val_inv in H.
  destruct H as (cand & w1 & _ & H).
  destruct (coprime cand phi) eqn:Hc.
  - injection H as <- _. exact Hc.
  - eapply IH; eauto.
Qed.

Lemma z_gen'_nonneg (fuel : nat) :
  forall (len acc : Z) (w : world) (v : Z) (w' : world),
    0 <= acc -> z_gen' fuel len acc w = Val (v, w') -> 0 <= v.
Proof.
  induction fuel as [|fuel IH]; intros len acc w v w' Hacc H; [discriminate|].
  cbn [z_gen'] in H. destruct (len =? 0).
  - injection H as <- _. exact Hacc.
  - apply bind_val_inv in H. destruct H as (digit & w1 & Hdigit & H).
    cbn in Hdigit. injection Hdigit as <- _.
    apply IH in H; [exact H|].
    pose proof (Z.mod_pos_bound (entropy w (cursor w)) 10 ltac:(lia)). lia.
Qed.

Lemma e_gen_nonneg (fuel : nat) (rc : rsa_config) (phi : Z) :
  forall (w : world) (e : Z) (w' : world),
    e_gen' fuel rc phi w = Val (e, w') -> 0 <= e.
Proof.
  induction fuel as [|fuel IH]; intros w e w' H; [discriminate|].
  cbn [e_gen'] in H. apply bind_val_inv in H.
  destruct H as (cand & w1 & Hcand & H).
  destruct (coprime cand phi).
  - injection H as <- _. eapply z_gen'_nonneg; [|exact Hcand]. lia.
  - eapply IH; eauto.
Qed.

(** What holds of every key [private_key_gen] returns. *)
Lemma generated_key_facts (fuel : nat) (rc : rsa_config)
    (w w' : world) (k : private_key) :
  private_key_gen fuel rc w = Val (k, w') ->
  n k = p k * q k
  /\ (e k * d k) mod ((p k - 1) * (q k - 1)) = 1 mod ((p k - 1) * (q k - 1))
  /\ Z.gcd (e k) ((p k - 1) * (q k - 1)) = 1
  /\ 0 <= e k /\ 0 <= d k.
Proof.
  unfold private_key_gen. intros H.
  apply bind_val_inv in H. destruct H as (p0 & w1 & _ & H).
  apply bind_val_inv in H. destruct H as (q0 & w2 & _ & H).
  apply bind_val_inv in H. destruct H as (e0 & w3 & He & H).
  apply bind_val_inv in H. destruct H as (d0 & w4 & Hd & H).
  injection H as <- _. cbn [n p q e d].
  apply lift_val_inv in Hd. destruct Hd as [Hd _]. cbn [fst] in Hd.
  apply invert_spec in Hd. destruct Hd as (Hg & Hinv & Hrange & Hzero).
  apply e_gen_nonneg in He.
  repeat split; auto.
  destruct (Z.eq_dec ((p0 - 1) * (q0 - 1)) 0) as [Hphi|Hphi].
  - now rewrite (Hzero Hphi).
  - apply Hrange in Hphi. lia.
Qed.

(** C9: a key pair that [private_key_gen] returns satisfies [n = p * q],
    [e * d = 1] modulo [(p - 1) * (q - 1)], and
    [gcd e ((p - 1) * (q - 1)) = 1]. *)
Theorem private_key_gen_invariant (fuel : nat) (rc : rsa_config)
    (w w' : world) (k : private_key) :
  private_key_gen fuel rc w = Val (k, w') ->
  n k = p k * q k
  /\ (e k * d k) mod ((p k - 1) * (q k - 1)) = 1 mod ((p k - 1) * (q k - 1))
  /\ Z.gcd (e k) ((p k - 1) * (q k - 1)) = 1.
Proof.
  unfold private_key_gen. intros H.
  apply bind_val_inv in H. destruct H as (p0 & w1 & _ & H).
  apply bind_val_inv in H. destruct H as (q0 & w2 & _ & H).
  apply bind_val_inv in H. destruct H as (e0 & w3 & He & H).
  apply bind_val_inv in H. destruct H as (d0 & w4 & Hd & H).
  injection H as <- _. cbn [n p q e d].
  split; [reflexivity|].
  apply e_gen_coprime in He. unfold coprime in He. apply Z.eqb_eq in He.
  apply lift_val_inv in Hd. destruct Hd as [Hd _]. cbn [fst] in Hd.
  apply invert_spec in Hd. destruct Hd as (_ & Hinv & _).
  split; [exact Hinv | exact He].
Qed.

Lemma sample_key_generated :
  private_key_gen 100 sample_config sample_world
  = Val (sample_key, mkWorld (entropy sample_world) 109 []).
Proof. vm_compute. reflexivity. Qed.

Lemma private_key_gen_invariant_witness :
  n sample_key = p sample_key * q sample_key
  /\ (e sample_key * d sample_key) mod ((p sample_key - 1) * (q sample_key - 1))
     = 1 mod ((p sample_key - 1) * (q sample_key - 1))
  /\ Z.gcd (e sample_key) ((p sample_key - 1) * (q sample_key - 1)) = 1.
Proof.
  apply (private_key_gen_invariant 100 sample_config sample_world
           (mkWorld (entropy sample_world) 109 []) sample_key).
  vm_compute. reflexivity.
Defined.

(** *** Fuel: a larger budget never changes a result *)

Lemma z_gen'_mono (f1 : nat) :
  forall (f2 : nat) (len acc : Z) (w : world),
    (f1 <= f2)%nat -> z_gen' f1 len acc w <> OutOfFuel ->
    z_gen' f2 len acc w = z_gen' f1 len acc w.
Proof.
  induction f1 as [|f1 IH]; intros f2 len acc w Hle Hne.
  - now contradict Hne.
  - destruct f2 as [|f2]; [lia|]. cbn [z_gen'] in *.
    destruct (len =? 0); [reflexivity|].
    unfold bind in *.
    destruct (Random.int 10 w) as [[digit w1]| |]; try reflexivity.
    apply IH; [lia | exact Hne].
Qed.

Lemma get_factor_q_mono (f1 : nat) :
  forall (f2 : nat) (num : Z),
    (f1 <= f2)%nat -> get_factor_q f1 num <> OutOfFuel ->
    get_factor_q f2 num = get_factor_q f1 num.
Proof.
  induction f1 as [|f1 IH]; intros f2 num Hle Hne.
  - now contradict Hne.
  - destruct f2 as [|f2]; [lia|]. cbn [get_factor_q] in *.
    rewrite rem_by_2 in *. cbn [obind] in *.
    destruct (Z.rem num 2 =? 0); [|reflexivity].
    rewrite div_by_2 in *. cbn [obind] in *.
    apply IH; [lia | exact Hne].
Qed.

Lemma miller_rabin_test''_mono (f1 : nat) :
  forall (f2 : nat) (n a : Z) (next1 next2 : io bool) (expp : Z) (w : world),
    (f1 <= f2)%nat ->
    (forall w', next1 w' <> OutOfFuel -> next2 w' = next1 w') ->
    miller_rabin_test'' f1 n a next1 expp w <> OutOfFuel ->
    miller_rabin_test'' f2 n a next2 expp w
    = miller_rabin_test'' f1 n a next1 expp w.
Proof.
  induction f1 as [|f1 IH]; intros f2 n a next1 next2 expp w Hle Hnext Hne.
  - now contradict Hne.
  - destruct f2 as [|f2]; [lia|]. cbn [miller_rabin_test''] in *.
    unfold bind, lift in *.
    destruct (Zarith.powm a expp n) as [x| |]; try reflexivity.
    destruct (Z.abs x =? 1); [now apply Hnext|].
    destruct (expp =? n - 1); [reflexivity|].
    destruct (Zarith.rem x n) as [r| |]; try reflexivity.
    destruct (r =? n - 1); [|reflexivity].
    apply IH; [lia | exact Hnext | exact Hne].
Qed.

Lemma miller_rabin_test'_mono (f1 : nat) :
  forall (f2 : nat) (n q trails : Z) (w : world),
    (f1 <= f2)%nat -> miller_rabin_test' f1 n q trails w <> OutOfFuel ->
    miller_rabin_test' f2 n q trails w = miller_rabin_test' f1 n q trails w.
Proof.
  induction f1 as [|f1 IH]; intros f2 n q trails w Hle Hne.
  - now contradict Hne.
  - destruct f2 as [|f2]; [lia|]. cbn [miller_rabin_test'] in *.
    destruct (trails =? 0); [reflexivity|].
    unfold bind in Hne |- *.
    destruct (lift (Zarith.to_int64 (Z.min n Int64.max_int)) w)
      as [[bound w1]| |]; try reflexivity.
    destruct (Random.int64 bound w1) as [[a w2]| |]; try reflexivity.
    apply miller_rabin_test''_mono; [lia | | exact Hne].
    intros w' Hw'. apply IH; [lia | exact Hw'].
Qed.

Lemma miller_rabin_test_mono (f1 f2 : nat) (trails : option Z) (n : Z)
    (w : world) :
  (f1 <= f2)%nat -> miller_rabin_test f1 trails n w <> OutOfFuel ->
  miller_rabin_test f2 trails n w = miller_rabin_test f1 trails n w.
Proof.
  intros Hle Hne. unfold miller_rabin_test in *.
  destruct (2 =? n); [reflexivity|].
  unfold bind, lift in *.
  destruct (get_factor_q f1 (n - 1)) as [q| |] eqn:Hq.
  - rewrite (get_factor_q_mono f1 f2) by (auto; congruence).
    rewrite Hq. now apply miller_rabin_test'_mono.
  - rewrite (get_factor_q_mono f1 f2) by (auto; congruence).
    now rewrite Hq.
  - now contradict Hne.
Qed.

Lemma prime_gen'_mono (f1 : nat) :
  forall (f2 : nat) (trails : option Z) (len : Z) (w : world),
    (f1 <= f2)%nat -> prime_gen' f1 trails len w <> OutOfFuel ->
    prime_gen' f2 trails len w = prime_gen' f1 trails len w.
Proof.
  induction f1 as [|f1 IH]; intros f2 trails len w Hle Hne.
  - now contradict Hne.
  - destruct f2 as [|f2]; [lia|]. cbn [prime_gen'] in *.
    unfold bind in Hne |- *. unfold z_gen in *.
    destruct (z_gen' f1 len 0 w) as [[cand w1]| |] eqn:Hz.
    + rewrite (z_gen'_mono f1 f2) by (auto; try lia; congruence).
      rewrite Hz.
      destruct (miller_rabin_test f1 (Some (default_trails trails)) cand w1)
        as [[verdict w2]| |] eqn:Hmr.
      * rewrite (miller_rabin_test_mono f1 f2) by (auto; try lia; congruence).
        rewrite Hmr. destruct verdict; [reflexivity|].
        apply IH; [lia | exact Hne].
      * rewrite (miller_rabin_test_mono f1 f2) by (auto; try lia; congruence).
        now rewrite Hmr.
      * now contradict Hne.
    + rewrite (z_gen'_mono f1 f2) by (auto; try lia; congruence).
      now rewrite Hz.
    + now contradict Hne.
Qed.

(** Once a prime search returned with some budget, every budget yields
    either that result or runs out. *)
Lemma prime_gen_settled (f0 : nat) (trails : option Z) (len : Z)
    (w : world) (r : Z * world) :
  prime_gen f0 trails len w = Val r ->
  forall fuel : nat,
    prime_gen fuel trails len w = OutOfFuel
    \/ prime_gen fuel trails len w = Val r.
Proof.
  unfold prime_gen. intros H0 fuel.
  destruct (Nat.le_ge_cases fuel f0) as [Hle|Hge].
  - destruct (prime_gen' fuel trails len w) as [r'| |] eqn:E; auto.
    + right. rewrite <- H0, <- E. symmetry.
      apply prime_gen'_mono; [exact Hle | congruence].
    + exfalso.
      pose proof (prime_gen'_mono fuel f0 trails len w Hle ltac:(congruence)).
      congruence.
  - right. rewrite <- H0. apply prime_gen'_mono; [exact Hge | congruence].
Qed.

(** *** The retry loops *)

(** With no digits the only exponent candidate is 0, which is coprime to
    [phi] only when [|phi| = 1]: the search goes round for ever. *)
Lemma e_gen_no_digits_diverges (fuel : nat) (rc : rsa_config) (phi : Z)
    (w : world) :
  e_len rc = 0 -> Z.abs phi <> 1 -> e_gen fuel rc phi w = OutOfFuel.
Proof.
  intros Hlen Hphi. unfold e_gen.
  induction fuel as [|fuel IH]; [reflexivity|].
  cbn [e_gen']. rewrite Hlen. unfold bind, z_gen.
  destruct fuel as [|fuel]; [reflexivity|].
  cbn [z_gen']. cbn [Z.eqb ret].
  unfold coprime. rewrite Z.gcd_0_l.
  destruct (Z.eqb_spec (Z.abs phi) 1) as [|_]; [contradiction|].
  exact IH.
Qed.

(** The prime search draws again after a rejected candidate: the digit 9
    is rejected on the base 0, and the next candidate 3 passes its fifty
    rounds. *)
Lemma prime_gen_retries_after_rejection :
  miller_rabin_test 100 None 9 (mkWorld (entropy (scripted_world [9; 0; 3] 1)) 1 [])
  = Val (false, mkWorld (entropy (scripted_world [9; 0; 3] 1)) 2 [])
  /\ prime_gen 100 None 1 (scripted_world [9; 0; 3] 1)
     = Val (3, mkWorld (entropy (scripted_world [9; 0; 3] 1)) 53 []).
Proof.
  split; vm_compute; reflexivity.
Qed.

Lemma degenerate_first_prime :
  prime_gen 100 None (p_len degenerate_config) (constant_world 13)
  = Val (3, mkWorld (entropy (constant_world 13)) 51 []).
Proof. vm_compute. reflexivity. Qed.

Lemma degenerate_second_prime :
  prime_gen 100 None (q_len degenerate_config)
            (mkWorld (entropy (constant_world 13)) 51 [])
  = Val (3, mkWorld (entropy (constant_world 13)) 102 []).
Proof. vm_compute. reflexivity. Qed.

(** With one-digit primes, no digit for the exponent and an entropy stream
    of 13s, both prime searches return 3 and the generator then neither
    returns nor fails, for any budget. *)
Lemma private_key_gen_loops_forever :
  ~ (exists fuel : nat,
        private_key_gen fuel degenerate_config (constant_world 13) <> OutOfFuel).
Proof.
  intros [fuel H]. apply H. unfold private_key_gen. unfold bind at 1.
  destruct (prime_gen_settled 100 None _ _ _ degenerate_first_prime fuel)
    as [-> | ->]; [reflexivity|].
  unfold bind at 1.
  destruct (prime_gen_settled 100 None _ _ _ degenerate_second_prime fuel)
    as [-> | ->]; [reflexivity|].
  unfold bind at 1.
  rewrite e_gen_no_digits_diverges; [reflexivity | reflexivity |].
  vm_compute. discriminate.
Qed.

(** *** Splitting the message into blocks *)

Lemma substring_list (s : string) :
  forall ofs len : nat,
    list_ascii_of_string (String.substring ofs len s)
    = firstn len (skipn ofs (list_ascii_of_string s)).
Proof.
  induction s as [|ch s IH]; intros ofs len.
  - destruct ofs, len; reflexivity.
  - destruct ofs as [|ofs].
    + destruct len as [|len]; [reflexivity|].
      cbn [String.substring list_ascii_of_string skipn firstn].
      now rewrite IH.
    + cbn [String.substring list_ascii_of_string skipn]. apply IH.
Qed.

Lemma string_of_list_inj (s t : string) :
  list_ascii_of_string s = list_ascii_of_string t -> s = t.
Proof.
  intros H. rewrite <- (string_of_list_ascii_of_string s),
    <- (string_of_list_ascii_of_string t). now rewrite H.
Qed.

Lemma chunks_aux_fuel {A : Type} (size : nat) :
  (1 <= size)%nat ->
  forall (fuel1 fuel2 : nat) (l : list A),
    (List.length l <= fuel1)%nat -> (List.length l <= fuel2)%nat ->
    chunks_aux fuel1 size l = chunks_aux fuel2 size l.
Proof.
  intros Hsize.
  induction fuel1 as [|fuel1 IH]; intros fuel2 l H1 H2.
  - destruct l; [now destruct fuel2 | cbn in H1; lia].
  - destruct l as [|x l]; [now destruct fuel2|].
    destruct fuel2 as [|fuel2]; [cbn in H2; lia|].
    cbn [chunks_aux]. f_equal.
    assert (Hskip : (List.length (skipn size (x :: l)) <= List.length l)%nat).
    { rewrite length_skipn. cbn [List.length]. lia. }
    cbn [List.length] in H1, H2. apply IH; lia.
Qed.

Lemma chunks_aux_enough {A : Type} (size : nat) (fuel : nat) (l : list A) :
  (1 <= size)%nat -> (List.length l <= fuel)%nat ->
  chunks_aux fuel size l = chunks size l.
Proof.
  intros Hsize Hlen. unfold chunks. now apply chunks_aux_fuel.
Qed.

Lemma chunks_cons {A : Type} (size : nat) (x : A) (l : list A) :
  (1 <= size)%nat ->
  chunks size (x :: l)
  = firstn size (x :: l) :: chunks size (skipn size (x :: l)).
Proof.
  intros Hsize. unfold chunks at 1. cbn [List.length chunks_aux]. f_equal.
  apply chunks_aux_enough; [exact Hsize|].
  rewrite length_skipn. cbn [List.length]. lia.
Qed.

(** The chunks, put back together in order, are the message. *)
Lemma chunks_concat {A : Type} (size : nat) (l : list A) :
  (1 <= size)%nat -> List.concat (chunks size l) = l.
Proof.
  intros Hsize.
  remember (List.length l) as len eqn:Hlen.
  revert l Hlen. induction len as [len IH] using lt_wf_ind. intros l Hlen.
  destruct l as [|x l]; [reflexivity|].
  rewrite chunks_cons by exact Hsize. cbn [List.concat].
  rewrite (IH (List.length (skipn size (x :: l)))); [| |reflexivity].
  - apply firstn_skipn.
  - subst len. rewrite length_skipn. cbn [List.length]. lia.
Qed.

(** Every chunk is non-empty and at most [size] long; every chunk except
    the last is exactly [size] long. *)
Lemma chunks_lengths {A : Type} (size : nat) (l : list A) :
  (1 <= size)%nat ->
  Forall (fun chunk => (1 <= List.length chunk <= size)%nat) (chunks size l)
  /\ Forall (fun chunk => List.length chunk = size) (removelast (chunks size l)).
Proof.
  intros Hsize.
  remember (List.length l) as len eqn:Hlen.
  revert l Hlen. induction len as [len IH] using lt_wf_ind. intros l Hlen.
  destruct l as [|x l]; [split; constructor|].
  rewrite chunks_cons by exact Hsize.
  destruct (IH (List.length (skipn size (x :: l)))
              ltac:(subst len; rewrite length_skipn; cbn [List.length]; lia)
              (skipn size (x :: l)) eq_refl) as [IH1 IH2].
  split.
  - constructor; [|exact IH1].
    rewrite length_firstn. cbn [List.length]. lia.
  - destruct (chunks size (skipn size (x :: l))) as [|c cs] eqn:E.
    + constructor.
    + cbn [removelast]. constructor; [|exact IH2].
      rewrite length_firstn.
      destruct (Nat.le_gt_cases size (List.length (x :: l))) as [|Hshort]; [lia|].
      rewrite skipn_all2 in E by lia. discriminate.
Qed.

Lemma firstn_min_length {A : Type} (k : nat) (l : list A) :
  firstn (Nat.min k (List.length l)) l = firstn k l.
Proof.
  destruct (Nat.le_ge_cases k (List.length l)) as [H|H].
  - now rewrite Nat.min_l.
  - rewrite Nat.min_r by exact H. now rewrite !firstn_all2 by lia.
Qed.

Lemma skipn_min_length {A : Type} (k : nat) (l : list A) :
  skipn (Nat.min k (List.length l)) l = skipn k l.
Proof.
  destruct (Nat.le_ge_cases k (List.length l)) as [H|H].
  - now rewrite Nat.min_l.
  - rewrite Nat.min_r by exact H. now rewrite !skipn_all2 by lia.
Qed.

Lemma plaintext_input_string_value (s : string) :
  message (plaintext_input_string s) = base256_value (list_ascii_of_string s).
Proof.
  unfold plaintext_input_string; cbn [message]. rewrite encode_base256. lia.
Qed.

(** One turn of [encode_blocks] on a non-empty message, for a block size of
    at least 1: the first chunk is encrypted and the loop goes on with the
    rest of the message. *)
Lemma encode_blocks_step (fuel : nat) (pk : public_key) (block_size : Z)
    (msg : string) (acc : list string) :
  0 < pub_n pk -> 0 <= pub_e pk -> 1 <= block_size -> msg <> ""%string ->
  exists remaining : string,
    list_ascii_of_string remaining
    = skipn (Z.to_nat block_size) (list_ascii_of_string msg)
    /\ encode_blocks (S fuel) pk block_size msg acc
       = encode_blocks fuel pk block_size remaining
           (serialize_ciphertext
              (chunk_cipher pk (firstn (Z.to_nat block_size)
                                       (list_ascii_of_string msg))) :: acc).
Proof.
  intros Hn He Hbs Hmsg.
  set (len := Str.length msg).
  set (k := Z.min block_size len).
  assert (Hlen : 1 <= len).
  { unfold len, Str.length. destruct msg; [contradiction | cbn [String.length]; lia]. }
  assert (Hk : 1 <= k <= len) by (unfold k; lia).
  exists (String.substring (Z.to_nat k) (Z.to_nat (len - k)) msg).
  assert (Hknat : Z.to_nat k
                  = Nat.min (Z.to_nat block_size)
                            (List.length (list_ascii_of_string msg))).
  { unfold k, len, Str.length. rewrite <- string_length_list. lia. }
  split.
  - rewrite substring_list, Hknat, skipn_min_length.
    apply firstn_all2. rewrite length_skipn.
    unfold len, Str.length. rewrite <- string_length_list. lia.
  - cbn [encode_blocks].
    destruct (String.eqb_spec msg "") as [|_]; [contradiction|].
    fold len. fold k. unfold Str.sub. fold len.
    destruct (Z.ltb_spec 0 0); [lia|].
    destruct (Z.ltb_spec k 0); [lia|].
    destruct (Z.ltb_spec len (0 + k)); [lia|].
    destruct (Z.ltb_spec (len - k) 0); [lia|].
    destruct (Z.ltb_spec len (k + (len - k))); [lia|].
    cbn [orb obind]. unfold plaintext_encrypt.
    rewrite powm_nonneg_exponent by assumption. cbn [obind c].
    rewrite plaintext_input_string_value, substring_list.
    change (Z.to_nat 0) with 0%nat. cbn [skipn].
    rewrite Hknat, firstn_min_length. reflexivity.
Qed.

(** [encode_blocks] returns, in message order, the serialized ciphertext of
    each chunk. *)
Lemma encode_blocks_spec (pk : public_key) (block_size : Z) :
  0 < pub_n pk -> 0 <= pub_e pk -> 1 <= block_size ->
  forall (fuel : nat) (msg : string) (acc : list string),
    (String.length msg < fuel)%nat ->
    encode_blocks fuel pk block_size msg acc
    = Val (rev acc ++
           map (fun chunk => serialize_ciphertext (chunk_cipher pk chunk))
               (chunks (Z.to_nat block_size) (list_ascii_of_string msg)))%list.
Proof.
  intros Hn He Hbs. induction fuel as [|fuel IH]; intros msg acc Hfuel; [lia|].
  destruct (String.eqb_spec msg "") as [->|Hmsg].
  - cbn. now rewrite app_nil_r.
  - destruct (encode_blocks_step fuel pk block_size msg acc Hn He Hbs Hmsg)
      as (remaining & Hrem & Hstep).
    rewrite Hstep.
    assert (Hshort : (String.length remaining < fuel)%nat).
    { rewrite (string_length_list remaining), Hrem, length_skipn,
        <- string_length_list.
      destruct msg; [contradiction | cbn [String.length] in *; lia]. }
    rewrite (IH remaining _ Hshort), Hrem. f_equal.
    destruct (list_ascii_of_string msg) as [|x l] eqn:El.
    + exfalso. apply Hmsg. apply string_of_list_inj. now rewrite El.
    + rewrite (chunks_cons (Z.to_nat block_size) x l) by lia.
      cbn [rev map]. now rewrite <- app_assoc.
Qed.

Lemma block_size_positive (modulus : Z) :
  16 <= Zarith.numbits modulus -> 1 <= block_size_of modulus.
Proof.
  intros H. unfold block_size_of.
  rewrite Z.quot_div_nonneg by lia.
  assert (2 <= Zarith.numbits modulus / 8) by (apply Z.div_le_lower_bound; lia).
  lia.
Qed.

(** C6, as the code has it: for a public key whose modulus has at least 16
    bits (so that the block size is at least 1), [encode_blocks] returns for
    every message, given fuel for its length.  The message is cut into
    consecutive chunks of exactly [numbits n / 8 - 1] bytes, the last one
    possibly shorter; each chunk is read as a big-endian integer and
    encrypted on its own, and the ciphertexts come out in chunk order. *)
Theorem encode_blocks_partition (pk : public_key) (msg : string) (fuel : nat) :
  0 < pub_n pk -> 0 <= pub_e pk -> 16 <= Zarith.numbits (pub_n pk) ->
  (String.length msg < fuel)%nat ->
  let size := Z.to_nat (block_size_of (pub_n pk)) in
  let blocks := chunks size (list_ascii_of_string msg) in
  encode_blocks fuel pk (block_size_of (pub_n pk)) msg []
  = Val (map (fun chunk =>
                serialize_ciphertext (base256_value chunk ^ pub_e pk mod pub_n pk))
             blocks)
  /\ List.concat blocks = list_ascii_of_string msg
  /\ Forall (fun chunk => (1 <= List.length chunk <= size)%nat) blocks
  /\ Forall (fun chunk => List.length chunk = size) (removelast blocks).
Proof.
  intros Hn He Hbits Hfuel size blocks.
  pose proof (block_size_positive (pub_n pk) Hbits) as Hbs.
  assert (Hsize : (1 <= size)%nat) by (unfold size; lia).
  split; [|split].
  - now rewrite encode_blocks_spec.
  - now apply chunks_concat.
  - now apply chunks_lengths.
Qed.

Lemma encode_blocks_partition_witness :
  let pk := public_key_gen sample_key in
  let size := Z.to_nat (block_size_of (pub_n pk)) in
  let blocks := chunks size (list_ascii_of_string "OCaml") in
  encode_blocks 10 pk (block_size_of (pub_n pk)) "OCaml" []
  = Val (map (fun chunk =>
                serialize_ciphertext (base256_value chunk ^ pub_e pk mod pub_n pk))
             blocks)
  /\ List.concat blocks = list_ascii_of_string "OCaml"
  /\ Forall (fun chunk => (1 <= List.length chunk <= size)%nat) blocks
  /\ Forall (fun chunk => List.length chunk = size) (removelast blocks).
Proof.
  apply (encode_blocks_partition (public_key_gen sample_key) "OCaml" 10).
  - reflexivity.
  - discriminate.
  - vm_compute. discriminate.
  - cbn. lia.
Defined.

(** With the modulus 143 the block size is 0: every turn of the loop
    encrypts an empty block and leaves the message as it was, so
    [encode_blocks] never returns on a non-empty message. *)
Lemma encode_blocks_tiny_key_diverges (fuel : nat) :
  forall acc : list string,
    encode_blocks fuel tiny_public_key (block_size_of (pub_n tiny_public_key))
                  "A" acc = OutOfFuel.
Proof.
  induction fuel as [|fuel IH]; intros acc; [reflexivity|].
  cbn [encode_blocks]. cbn -[encode_blocks]. apply IH.
Qed.

Lemma encode_blocks_loops_on_tiny_key :
  pub_n tiny_public_key = 11 * 13
  /\ block_size_of (pub_n tiny_public_key) = 0
  /\ ~ (exists fuel : nat,
          encode_blocks fuel tiny_public_key
                        (block_size_of (pub_n tiny_public_key)) "A" []
          <> OutOfFuel).
Proof.
  split; [reflexivity|]. split; [reflexivity|].
  intros [fuel H]. apply H. apply encode_blocks_tiny_key_diverges.
Qed.

(** *** Fermat's little theorem and the correctness of RSA *)

Lemma in_residues (m y : Z) :
  In y (map Z.of_nat (seq 1 (Z.to_nat (m - 1)))) <-> 1 <= y <= m - 1.
Proof.
  rewrite in_map_iff. split.
  - intros (k & <- & Hk). apply in_seq in Hk. lia.
  - intros Hy. exists (Z.to_nat y). split; [lia|]. apply in_seq. lia.
Qed.

Lemma residues_nodup (m : Z) :
  NoDup (map Z.of_nat (seq 1 (Z.to_nat (m - 1)))).
Proof.
  apply Injective_map_NoDup; [|apply seq_NoDup].
  intros x y. apply Nat2Z.inj.
Qed.

Lemma product_permutation (l l' : list Z) :
  Permutation l l' -> fold_right Z.mul 1 l = fold_right Z.mul 1 l'.
Proof.
  induction 1; cbn [fold_right]; try congruence; lia.
Qed.

Lemma product_of_multiples (a m : Z) (l : list Z) :
  fold_right Z.mul 1 (map (fun x => (a * x) mod m) l) mod m
  = (a ^ Z.of_nat (List.length l) * fold_right Z.mul 1 l) mod m.
Proof.
  induction l as [|x l IH]; cbn [map fold_right List.length].
  - now rewrite Z.pow_0_r, Z.mul_1_l.
  - rewrite Nat2Z.inj_succ, Z.pow_succ_r by lia.
    rewrite Zmult_mod_idemp_l, <- Zmult_mod_idemp_r, IH, Zmult_mod_idemp_r.
    f_equal. ring.
Qed.

Lemma product_coprime (m : Z) (l : list Z) :
  (forall x, In x l -> Z.coprime x m) -> Z.coprime (fold_right Z.mul 1 l) m.
Proof.
  induction l as [|x l IH]; intros H; cbn [fold_right].
  - apply Z.coprime_1_l.
  - apply Z.coprime_mul_l; [apply H; now left|].
    apply IH. intros y Hy. apply H. now right.
Qed.

Lemma coprime_sym (a b : Z) : Z.coprime a b -> Z.coprime b a.
Proof. unfold Z.coprime. now rewrite Z.gcd_comm. Qed.

(** Fermat's little theorem: [a ^ (pr - 1)] is 1 modulo a prime [pr] that
    does not divide [a]. *)
Theorem fermat_little (a pr : Z) :
  Z.prime pr -> ~ (pr | a) -> a ^ (pr - 1) mod pr = 1.
Proof.
  intros Hp Ha. pose proof (Z.prime_ge_2 pr Hp) as Hge.
  set (l := map Z.of_nat (seq 1 (Z.to_nat (pr - 1)))).
  assert (Hmul : forall x, 1 <= x <= pr - 1 -> ~ (pr | a * x)).
  { intros x Hx Hd. apply Z.divide_prime_mul in Hd; [|exact Hp].
    destruct Hd as [Hd|Hd]; [contradiction|].
    apply Z.divide_pos_le in Hd; lia. }
  assert (Hperm : Permutation (map (fun x => (a * x) mod pr) l) l).
  { apply Permutation_map_same_l.
    - apply Injective_map_NoDup_in; [|apply residues_nodup].
      intros x y Hx Hy Hxy. apply in_residues in Hx, Hy.
      assert (Hd : (pr | a * (x - y))).
      { apply Z.mod_divide; [lia|].
        rewrite Z.mul_sub_distr_l, Zminus_mod, Hxy, Z.sub_diag.
        apply Z.mod_0_l. lia. }
      apply Z.divide_prime_mul in Hd; [|exact Hp].
      destruct Hd as [Hd|Hd]; [contradiction|].
      destruct (Z.eq_dec x y) as [|Hne]; [assumption|]. exfalso.
      apply Z.divide_abs_r in Hd.
      apply Z.divide_pos_le in Hd; lia.
    - intros y Hy. apply in_map_iff in Hy. destruct Hy as (x & <- & Hx).
      apply in_residues in Hx. apply in_residues.
      pose proof (Z.mod_pos_bound (a * x) pr ltac:(lia)).
      assert ((a * x) mod pr <> 0).
      { intros Hz. apply (Hmul x Hx). apply Z.mod_divide; [lia | exact Hz]. }
      lia. }
  apply product_permutation in Hperm.
  pose proof (product_of_multiples a pr l) as Hprod.
  rewrite Hperm in Hprod.
  assert (Hlen : Z.of_nat (List.length l) = pr - 1).
  { unfold l. rewrite length_map, length_seq. lia. }
  rewrite Hlen in Hprod.
  assert (Hcop : Z.coprime (fold_right Z.mul 1 l) pr).
  { apply product_coprime. intros x Hx. apply in_residues in Hx.
    apply coprime_sym. apply Z.coprime_prime_small; [exact Hp | lia]. }
  assert (Hzero : ((a ^ (pr - 1) - 1) * fold_right Z.mul 1 l) mod pr = 0).
  { rewrite Z.mul_sub_distr_r, Z.mul_1_l, Zminus_mod, <- Hprod, Z.sub_diag.
    apply Z.mod_0_l. lia. }
  apply Z.cong_mul_cancel_r_coprime in Hzero; [|lia|exact Hcop].
  apply Z.mod_divide in Hzero; [|lia]. destruct Hzero as [k Hk].
  replace (a ^ (pr - 1)) with (1 + k * pr) by lia.
  rewrite Z.mod_add by lia. apply Z.mod_small. lia.
Qed.

(** Modulo a prime, an exponent that is 1 more than a multiple of [pr - 1]
    acts as the identity. *)
Lemma power_identity_mod_prime (pr m t : Z) :
  Z.prime pr -> 0 <= t ->
  (pr | m ^ (1 + t * (pr - 1)) - m).
Proof.
  intros Hp Ht. pose proof (Z.prime_ge_2 pr Hp) as Hge.
  rewrite Z.pow_add_r, Z.pow_1_r by nia.
  replace (m * m ^ (t * (pr - 1)) - m) with (m * (m ^ (t * (pr - 1)) - 1)) by ring.
  destruct (Z.BoolSpec_divide_nz pr m ltac:(lia)) as [Hd|Hnd].
  - now apply Z.divide_mul_l.
  - apply Z.divide_mul_r. apply Z.mod_divide; [lia|].
    rewrite Zminus_mod, Z.mul_comm, Z.pow_mul_r by lia.
    rewrite <- Z.mod_pow_l, (fermat_little m pr Hp Hnd), Z.pow_1_l by lia.
    rewrite Z.sub_diag. apply Z.mod_0_l. lia.
Qed.

(** RSA: with distinct primes [p] and [q] and [e * d = 1] modulo
    [(p - 1) * (q - 1)], raising to [e] and then to [d] modulo [p * q] gives
    back every [m] in [0, p * q). *)
Theorem rsa_block_roundtrip (p0 q0 e0 d0 m : Z) :
  Z.prime p0 -> Z.prime q0 -> p0 <> q0 ->
  0 <= e0 -> 0 <= d0 ->
  (e0 * d0) mod ((p0 - 1) * (q0 - 1)) = 1 mod ((p0 - 1) * (q0 - 1)) ->
  0 <= m < p0 * q0 ->
  (m ^ e0 mod (p0 * q0)) ^ d0 mod (p0 * q0) = m.
Proof.
  intros Hp Hq Hne He Hd Hinv Hm.
  pose proof (Z.prime_ge_2 p0 Hp) as Hp2.
  pose proof (Z.prime_ge_2 q0 Hq) as Hq2.
  assert (Hphi : 2 <= (p0 - 1) * (q0 - 1)) by nia.
  rewrite (Z.mod_small 1) in Hinv by lia.
  rewrite Z.mod_pow_l, <- Z.pow_mul_r by lia.
  pose proof (Z.div_mod (e0 * d0) ((p0 - 1) * (q0 - 1)) ltac:(lia)) as Hdm.
  rewrite Hinv in Hdm.
  set (t := e0 * d0 / ((p0 - 1) * (q0 - 1))) in *.
  assert (Ht : 0 <= t) by (apply Z.div_pos; nia).
  assert (Hdivp : (p0 | m ^ (e0 * d0) - m)).
  { replace (e0 * d0) with (1 + (t * (q0 - 1)) * (p0 - 1)) by lia.
    apply power_identity_mod_prime; [exact Hp | nia]. }
  assert (Hdivq : (q0 | m ^ (e0 * d0) - m)).
  { replace (e0 * d0) with (1 + (t * (p0 - 1)) * (q0 - 1)) by lia.
    apply power_identity_mod_prime; [exact Hq | nia]. }
  assert (Hcop : Z.coprime q0 p0).
  { apply Z.coprime_prime_l; [exact Hq|].
    intros Hdiv. apply Z.divide_prime_prime in Hdiv; auto. }
  destruct Hdivp as [u Hu].
  assert (Hqu : (q0 | u)).
  { apply (Z.gauss q0 p0 u); [|exact Hcop].
    rewrite Z.mul_comm, <- Hu. exact Hdivq. }
  destruct Hqu as [v Hv].
  replace (m ^ (e0 * d0)) with (m + v * (p0 * q0)) by (subst u; lia).
  rewrite Z.mod_add by nia. apply Z.mod_small. lia.
Qed.

(** *** Decoding a block *)

Lemma encode_snoc (l : list ascii) (b : ascii) (acc : Z) :
  encode acc (l ++ [b]) = encode acc l * 256 + char_code b.
Proof.
  revert acc. induction l as [|h t IH]; intros acc; cbn [app encode].
  - reflexivity.
  - apply IH.
Qed.

Lemma base256_value_encode (l : list ascii) : base256_value l = encode 0 l.
Proof. rewrite encode_base256. lia. Qed.

Lemma base256_value_snoc (l : list ascii) (b : ascii) :
  base256_value (l ++ [b]) = base256_value l * 256 + char_code b.
Proof. rewrite !base256_value_encode. apply encode_snoc. Qed.

Lemma base256_value_bounds (l : list ascii) :
  0 <= base256_value l < 256 ^ Z.of_nat (List.length l).
Proof.
  induction l as [|h t IH]; cbn [base256_value List.length].
  - cbn. lia.
  - pose proof (char_code_range h).
    rewrite Nat2Z.inj_succ, Z.pow_succ_r by lia. nia.
Qed.

Lemma char_code_nonzero (ch : ascii) : ch <> zero -> 0 < char_code ch.
Proof.
  intros Hne. pose proof (char_code_range ch).
  destruct (Z.eq_dec (char_code ch) 0) as [Hz|]; [|lia].
  exfalso. apply Hne. unfold char_code in Hz.
  rewrite <- (ascii_nat_embedding ch).
  replace (nat_of_ascii ch) with 0%nat by lia. reflexivity.
Qed.

Lemma base256_value_positive (l : list ascii) :
  hd zero l <> zero -> 0 < base256_value l.
Proof.
  destruct l as [|h t]; cbn [hd base256_value]; [contradiction|].
  intros Hh. pose proof (char_code_nonzero h Hh).
  pose proof (base256_value_bounds t).
  assert (0 < 256 ^ Z.of_nat (List.length t)) by (apply Z.pow_pos_nonneg; lia).
  nia.
Qed.

Lemma hd_snoc (l : list ascii) (b : ascii) :
  l <> [] -> hd zero (l ++ [b]) = hd zero l.
Proof. destruct l; [contradiction | reflexivity]. Qed.

(** The digit loop rebuilds a byte string from its value, provided the
    string does not start with a zero byte. *)
Lemma integer_to_bytes_aux_value (l : list ascii) :
  forall (fuel : nat) (acc : list ascii),
    (l = [] \/ hd zero l <> zero) -> (List.length l <= fuel)%nat ->
    integer_to_bytes_aux fuel (base256_value l) acc = (l ++ acc)%list.
Proof.
  induction l as [|b l IH] using rev_ind; intros fuel acc Hhd Hfuel.
  - destruct fuel; reflexivity.
  - rewrite length_app in Hfuel. cbn [List.length] in Hfuel.
    destruct fuel as [|fuel]; [lia|].
    assert (Hl : l = [] \/ hd zero l <> zero).
    { destruct l as [|h t]; [now left | right].
      destruct Hhd as [Hnil|Hhd]; [discriminate | exact Hhd]. }
    assert (Hpos : 0 < base256_value (l ++ [b])).
    { destruct Hhd as [Hnil|Hhd].
      - destruct l; discriminate.
      - now apply base256_value_positive. }
    cbn [integer_to_bytes_aux].
    destruct (Z.leb_spec (base256_value (l ++ [b])) 0) as [|_]; [lia|].
    rewrite base256_value_snoc.
    pose proof (char_code_range b) as Hb.
    assert (Hq : (base256_value l * 256 + char_code b) / 256 = base256_value l).
    { rewrite Z.div_add_l by lia. rewrite Z.div_small by lia. lia. }
    assert (Hr : (base256_value l * 256 + char_code b) mod 256 = char_code b).
    { rewrite Z.add_comm, Z.mod_add by lia. apply Z.mod_small. lia. }
    rewrite Hq, Hr. unfold char_code.
    rewrite Nat2Z.id, ascii_nat_embedding.
    rewrite IH by (auto; lia). now rewrite <- app_assoc.
Qed.

Lemma integer_to_bytes_value (l : list ascii) :
  hd zero l <> zero -> integer_to_bytes (base256_value l) = l.
Proof.
  intros Hhd. unfold integer_to_bytes.
  rewrite integer_to_bytes_aux_value; [apply app_nil_r | now right |].
  destruct l as [|h t]; [cbn; lia|].
  pose proof (base256_value_positive (h :: t) Hhd) as Hpos.
  assert (Hlow : 2 ^ Z.of_nat (List.length t) <= base256_value (h :: t)).
  { cbn [base256_value]. pose proof (char_code_nonzero h Hhd).
    pose proof (base256_value_bounds t).
    assert (2 ^ Z.of_nat (List.length t) <= 256 ^ Z.of_nat (List.length t))
      by (apply Z.pow_le_mono_l; lia).
    nia. }
  apply Z.log2_le_pow2 in Hlow; [|exact Hpos].
  cbn [List.length]. lia.
Qed.

(** A chunk of at most [block_size_of n] bytes encodes to less than [n]. *)
Lemma chunk_below_modulus (modulus : Z) (chunk : list ascii) :
  0 < modulus -> 16 <= Zarith.numbits modulus ->
  (List.length chunk <= Z.to_nat (block_size_of modulus))%nat ->
  0 <= base256_value chunk < modulus.
Proof.
  intros Hn Hbits Hlen.
  pose proof (block_size_positive modulus Hbits) as Hbs.
  pose proof (base256_value_bounds chunk) as [H0 Hup].
  split; [exact H0|].
  unfold block_size_of, Zarith.numbits in *.
  destruct (Z.eqb_spec modulus 0); [lia|].
  rewrite Z.abs_eq in * by lia.
  rewrite Z.quot_div_nonneg in * by (pose proof (Z.log2_nonneg modulus); lia).
  pose proof (Z.log2_spec modulus Hn) as [Hlog _].
  pose proof (Z.log2_nonneg modulus).
  set (bs := (Z.log2 modulus + 1) / 8 - 1) in *.
  assert (Hbs8 : 8 * bs <= Z.log2 modulus).
  { pose proof (Z.mul_div_le (Z.log2 modulus + 1) 8 ltac:(lia)). lia. }
  assert (H256 : 256 ^ Z.of_nat (List.length chunk) <= 2 ^ Z.log2 modulus).
  { change 256 with (2 ^ 8). rewrite <- Z.pow_mul_r by lia.
    apply Z.pow_le_mono_r; lia. }
  lia.
Qed.

Lemma string_of_list_ascii_app (a b : list ascii) :
  string_of_list_ascii (a ++ b)
  = (string_of_list_ascii a ++ string_of_list_ascii b)%string.
Proof.
  induction a as [|x a IH]; cbn; [reflexivity | now rewrite IH].
Qed.

(** *** Encrypting and decrypting a message *)

Lemma no_divisor_below_prime (m : Z) :
  1 < m -> no_divisor_below m = true -> Z.prime m.
Proof.
  intros Hm Hcheck. split; [exact Hm|].
  intros k Hk Hdiv. unfold no_divisor_below in Hcheck.
  rewrite forallb_forall in Hcheck.
  specialize (Hcheck (Z.to_nat k)).
  rewrite Z2Nat.id in Hcheck by lia.
  assert (Hin : In (Z.to_nat k) (seq 2 (Z.to_nat (m - 2)))) by (apply in_seq; lia).
  apply Hcheck in Hin. apply negb_true_iff, Z.eqb_neq in Hin.
  apply Hin. now apply Z.mod0_divide.
Qed.

(** Decrypting the ciphertext of a chunk gives the value of the chunk. *)
Lemma decrypt_chunk_cipher (K : private_key) (chunk : list ascii) :
  Z.prime (p K) -> Z.prime (q K) -> p K <> q K -> n K = p K * q K ->
  0 <= e K -> 0 <= d K ->
  (e K * d K) mod ((p K - 1) * (q K - 1)) = 1 mod ((p K - 1) * (q K - 1)) ->
  16 <= Zarith.numbits (n K) ->
  (List.length chunk <= Z.to_nat (block_size_of (n K)))%nat ->
  decrypt_block (chunk_cipher (public_key_gen K) chunk) K
  = Val (base256_value chunk).
Proof.
  intros Hp Hq Hne Hn He Hd Hinv Hbits Hlen.
  pose proof (Z.prime_ge_2 _ Hp). pose proof (Z.prime_ge_2 _ Hq).
  assert (Hpos : 0 < n K) by nia.
  pose proof (chunk_below_modulus (n K) chunk Hpos Hbits Hlen) as Hm.
  unfold decrypt_block, chunk_cipher, public_key_gen. cbn [pub_n pub_e].
  rewrite powm_nonneg_exponent by assumption. f_equal.
  rewrite Hn in *. now apply rsa_block_roundtrip.
Qed.

(** Decrypting the ciphertexts of a list of chunks gives the bytes of the
    chunks back, in order, when no chunk starts with a zero byte. *)
Lemma decrypt_chunk_ciphers (K : private_key) (blocks : list (list ascii)) :
  Z.prime (p K) -> Z.prime (q K) -> p K <> q K -> n K = p K * q K ->
  0 <= e K -> 0 <= d K ->
  (e K * d K) mod ((p K - 1) * (q K - 1)) = 1 mod ((p K - 1) * (q K - 1)) ->
  16 <= Zarith.numbits (n K) ->
  Forall (fun chunk =>
            (List.length chunk <= Z.to_nat (block_size_of (n K)))%nat
            /\ hd zero chunk <> zero) blocks ->
  decrypt_message (map (chunk_cipher (public_key_gen K)) blocks) K
  = Val (string_of_list_ascii (List.concat blocks)).
Proof.
  intros Hp Hq Hne Hn He Hd Hinv Hbits Hblocks.
  induction Hblocks as [|chunk blocks [Hlen Hhd] _ IH]; [reflexivity|].
  cbn [map decrypt_message List.concat].
  rewrite decrypt_chunk_cipher by assumption. cbn [obind].
  rewrite IH. cbn [obind]. f_equal.
  rewrite integer_to_bytes_value by exact Hhd.
  now rewrite string_of_list_ascii_app.
Qed.

(** [encrypt_and_return_message] generates a key, saves it, and joins the
    output of [encode_blocks] for the block size of its modulus. *)
Lemma encrypt_and_return_message_blocks (fuel : nat) (message : string)
    (rc : rsa_config) :
  encrypt_and_return_message fuel message rc
  = (pk <- private_key_gen_and_save fuel rc "private_key.txt" ;;
     blocks <- lift (encode_blocks fuel (public_key_gen pk)
                                   (block_size_of (n pk)) message []) ;;
     ret (Str.concat " " blocks)).
Proof. reflexivity. Qed.

(** [private_key_gen_and_save] is [private_key_gen] followed by the
    writing of the serialized key. *)
Lemma private_key_gen_and_save_steps (fuel : nat) (rc : rsa_config)
    (filename : string) (w : world) :
  private_key_gen_and_save fuel rc filename w
  = (pk <- private_key_gen fuel rc ;;
     _ <- write_to_file filename (serialize_private_key pk) ;;
     ret pk) w.
Proof.
  unfold private_key_gen_and_save, private_key_gen, bind.
  destruct (prime_gen fuel None (p_len rc) w) as [[p0 w1]| |]; try reflexivity.
  destruct (prime_gen fuel None (q_len rc) w1) as [[q0 w2]| |]; try reflexivity.
  destruct (e_gen fuel rc ((p0 - 1) * (q0 - 1)) w2) as [[e0 w3]| |];
    try reflexivity.
  unfold lift.
  destruct (d_gen e0 ((p0 - 1) * (q0 - 1))) as [d0| |]; reflexivity.
Qed.

(** The key that is saved is the key [private_key_gen] makes. *)
Lemma private_key_gen_and_save_key (fuel : nat) (rc : rsa_config) (w : world) :
  private_key_gen_and_save fuel rc "private_key.txt" w
  = match private_key_gen fuel rc w with
    | Val (pk, w') =>
        Val (pk, mkWorld (entropy w') (cursor w')
                         (("private_key.txt"%string, serialize_private_key pk)
                            :: files w'))
    | Exn e => Exn e
    | OutOfFuel => OutOfFuel
    end.
Proof.
  rewrite private_key_gen_and_save_steps. unfold bind at 1.
  destruct (private_key_gen fuel rc w) as [[pk w']| |]; reflexivity.
Qed.

(** Encryption of a plaintext none of whose chunks starts with a zero
    byte, under a key with distinct primes and a modulus of at least 16
    bits, can be undone. *)
Lemma encode_then_decrypt (K : private_key) (P : string) (fuel : nat) :
  Z.prime (p K) -> Z.prime (q K) -> p K <> q K -> n K = p K * q K ->
  0 <= e K -> 0 <= d K ->
  (e K * d K) mod ((p K - 1) * (q K - 1)) = 1 mod ((p K - 1) * (q K - 1)) ->
  16 <= Zarith.numbits (n K) ->
  Forall (fun chunk => hd zero chunk <> zero)
         (chunks (Z.to_nat (block_size_of (n K))) (list_ascii_of_string P)) ->
  (String.length P < fuel)%nat ->
  exists cs : list Z,
    encode_blocks fuel (public_key_gen K) (block_size_of (n K)) P []
    = Val (map serialize_ciphertext cs)
    /\ decrypt_message cs K = Val P.
Proof.
  intros Hp Hq Hne Hn He Hd Hinv Hbits Hzero Hfuel.
  pose proof (Z.prime_ge_2 _ Hp). pose proof (Z.prime_ge_2 _ Hq).
  assert (Hpos : 0 < n K) by nia.
  pose proof (block_size_positive (n K) Hbits) as Hbs.
  set (size := Z.to_nat (block_size_of (n K))) in *.
  set (blocks := chunks size (list_ascii_of_string P)) in *.
  exists (map (chunk_cipher (public_key_gen K)) blocks). split.
  - rewrite (encode_blocks_spec (public_key_gen K) (block_size_of (n K)))
      by (cbn [public_key_gen pub_n pub_e]; assumption).
    cbn [rev app]. now rewrite map_map.
  - rewrite decrypt_chunk_ciphers; try assumption.
    + unfold blocks. rewrite chunks_concat by (unfold size; lia).
      now rewrite string_of_list_ascii_of_string.
    + destruct (chunks_lengths size (list_ascii_of_string P)
                  ltac:(unfold size; lia)) as [Hlens _].
      fold blocks in Hlens.
      rewrite Forall_forall in *. intros chunk Hin. split.
      * apply Hlens in Hin. fold size. lia.
      * now apply Hzero.
Qed.

(** Reading the ciphertext text back. *)

Lemma split_no_space (s : string) :
  no_space s = true -> split_on_space s = [s].
Proof.
  induction s as [|ch s IH]; cbn [no_space split_on_space]; [reflexivity|].
  intros H. apply andb_true_iff in H. destruct H as [Hch Hs].
  apply negb_true_iff in Hch. rewrite Hch, (IH Hs). reflexivity.
Qed.

Lemma split_word_space (word rest : string) :
  no_space word = true ->
  split_on_space (word ++ String " " rest) = word :: split_on_space rest.
Proof.
  induction word as [|ch word IH]; cbn [no_space split_on_space append].
  - reflexivity.
  - intros H. apply andb_true_iff in H. destruct H as [Hch Hs].
    apply negb_true_iff in Hch. rewrite Hch, (IH Hs). reflexivity.
Qed.

Lemma split_concat (words : list string) :
  words <> [] -> Forall (fun word => no_space word = true) words ->
  split_on_space (Str.concat " " words) = words.
Proof.
  induction words as [|word words IH]; intros Hne Hall; [contradiction|].
  inversion Hall as [|? ? Hword Hrest]; subst.
  destruct words as [|word' words].
  - cbn [Str.concat]. now apply split_no_space.
  - change (Str.concat " " (word :: word' :: words))
      with (word ++ String " " (Str.concat " " (word' :: words)))%string.
    rewrite split_word_space by exact Hword.
    f_equal. apply IH; [discriminate | exact Hrest].
Qed.

Lemma digits_no_space (digits : Decimal.uint) :
  no_space (NilEmpty.string_of_uint digits) = true.
Proof.
  induction digits; cbn [NilEmpty.string_of_uint no_space]; auto.
Qed.

Lemma to_int_not_nil (z : Z) :
  Z.to_int z <> Decimal.Pos Decimal.Nil /\ Z.to_int z <> Decimal.Neg Decimal.Nil.
Proof.
  destruct z as [|pz|pz]; cbn [Z.to_int]; split; try discriminate;
    intros H; injection H as H;
    now apply DecimalPos.Unsigned.to_uint_nonnil in H.
Qed.

Lemma to_string_no_space (z : Z) : no_space (Zarith.to_string z) = true.
Proof.
  unfold Zarith.to_string, NilZero.string_of_int, NilZero.string_of_uint.
  destruct (Z.to_int z) as [digits|digits]; destruct digits;
    try reflexivity; cbn [no_space Ascii.eqb Bool.eqb negb andb];
    apply (digits_no_space (_ digits)) || apply digits_no_space.
Qed.

Lemma to_string_nonempty (z : Z) : Zarith.to_string z <> ""%string.
Proof.
  unfold Zarith.to_string, NilZero.string_of_int, NilZero.string_of_uint.
  destruct (Z.to_int z) as [digits|digits]; destruct digits; discriminate.
Qed.

Lemma parse_block_to_string (z : Z) :
  parse_block (Zarith.to_string z) = Some z.
Proof.
  unfold parse_block, Zarith.to_string.
  destruct (to_int_not_nil z) as [Hpos Hneg].
  rewrite NilZero.isi by assumption. cbn [option_map].
  now rewrite DecimalZ.of_to.
Qed.

Lemma parse_blocks_serialized (cs : list Z) :
  parse_blocks (map serialize_ciphertext cs) = Some cs.
Proof.
  induction cs as [|z cs IH]; cbn [map parse_blocks]; [reflexivity|].
  unfold serialize_ciphertext at 1. now rewrite parse_block_to_string, IH.
Qed.

(** The text [encrypt_and_return_message] builds from a list of ciphertext
    integers reads back as that list. *)
Lemma deserialize_serialized (cs : list Z) :
  deserialize_ciphertext (Str.concat " " (map serialize_ciphertext cs)) = Some cs.
Proof.
  unfold deserialize_ciphertext. destruct cs as [|z cs]; [reflexivity|].
  destruct (String.eqb_spec (Str.concat " " (map serialize_ciphertext (z :: cs))) "")
    as [Hempty|_].
  - exfalso. cbn [map Str.concat] in Hempty.
    pose proof (to_string_nonempty z) as Hz. unfold serialize_ciphertext in Hempty.
    destruct (map Zarith.to_string cs); [contradiction|].
    destruct (Zarith.to_string z); [contradiction | discriminate].
  - rewrite split_concat.
    + apply parse_blocks_serialized.
    + discriminate.
    + apply Forall_forall. intros word Hin. apply in_map_iff in Hin.
      destruct Hin as (x & <- & _). apply to_string_no_space.
Qed.

(** C1, as the code allows it, against decryption as the specification
    describes it.  Let [private_key_gen] return the key pair [K]; if its
    [p] and [q] are distinct primes, its modulus has at least 16 bits, and no
    chunk of the plaintext [P] starts with a zero byte, then
    [encrypt_and_return_message] returns a text (besides saving [K]), and
    decrypting that text with [K] gives [P] back. *)
Theorem encrypt_decrypt_roundtrip (rc : rsa_config) (w w' : world)
    (K : private_key) (P : string) (fuel : nat) :
  private_key_gen fuel rc w = Val (K, w') ->
  Z.prime (p K) -> Z.prime (q K) -> p K <> q K ->
  16 <= Zarith.numbits (n K) ->
  Forall (fun chunk => hd zero chunk <> zero)
         (chunks (Z.to_nat (block_size_of (n K))) (list_ascii_of_string P)) ->
  (String.length P < fuel)%nat ->
  exists text : string,
    encrypt_and_return_message fuel P rc w
    = Val (text,
           mkWorld (entropy w') (cursor w')
                   (("private_key.txt"%string, serialize_private_key K)
                      :: files w'))
    /\ decrypt_text text K = Val P.
Proof.
  intros Hgen Hp Hq Hne Hbits Hzero Hfuel.
  destruct (generated_key_facts fuel rc w w' K Hgen)
    as (Hn & Hinv & _ & He & Hd).
  destruct (encode_then_decrypt K P fuel Hp Hq Hne Hn He Hd Hinv Hbits
              Hzero Hfuel) as (cs & Henc & Hdec).
  exists (Str.concat " " (map serialize_ciphertext cs)). split.
  - rewrite encrypt_and_return_message_blocks. unfold bind at 1.
    rewrite private_key_gen_and_save_key, Hgen.
    unfold bind, lift. now rewrite Henc.
  - unfold decrypt_text. now rewrite deserialize_serialized.
Qed.

Lemma encrypt_decrypt_roundtrip_witness :
  exists text : string,
    encrypt_and_return_message 100 example_plaintext sample_config sample_world
    = Val (text,
           mkWorld (entropy (mkWorld (entropy sample_world) 109 []))
                   (cursor (mkWorld (entropy sample_world) 109 []))
                   (("private_key.txt"%string, serialize_private_key sample_key)
                      :: files (mkWorld (entropy sample_world) 109 [])))
    /\ decrypt_text text sample_key = Val example_plaintext.
Proof.
  apply (encrypt_decrypt_roundtrip sample_config sample_world
           (mkWorld (entropy sample_world) 109 []) sample_key
           example_plaintext 100).
  - vm_compute. reflexivity.
  - apply no_divisor_below_prime; [cbn; lia | vm_compute; reflexivity].
  - apply no_divisor_below_prime; [cbn; lia | vm_compute; reflexivity].
  - cbn. lia.
  - vm_compute. discriminate.
  - vm_compute. repeat constructor; discriminate.
  - vm_compute. lia.
Defined.

(** The generated key [sample_key] and the two-byte plaintext [0; "A"]: the
    single block encodes to 65, the ciphertext is 12512521, and decryption
    returns the one-byte string "A". *)
Lemma roundtrip_loses_leading_zero :
  private_key_gen 100 sample_config sample_world
  = Val (sample_key, mkWorld (entropy sample_world) 109 [])
  /\ encode_blocks 100 (public_key_gen sample_key)
                   (block_size_of (n sample_key)) zero_led_plaintext []
     = Val (map serialize_ciphertext [12512521])
  /\ (exists w' : world,
        encrypt_and_return_message 100 zero_led_plaintext sample_config
                                   sample_world
        = Val ("12512521"%string, w'))
  /\ decrypt_message [12512521] sample_key = Val "A"%string
  /\ decrypt_text "12512521" sample_key = Val "A"%string
  /\ "A"%string <> zero_led_plaintext.
Proof.
  split; [exact sample_key_generated|].
  split; [vm_compute; reflexivity|].
  split; [eexists; vm_compute; reflexivity|].
  split; [vm_compute; reflexivity|].
  split; [vm_compute; reflexivity | discriminate].
Qed.

(** A key whose [p] is not prime is generated when every base drawn for it
    is 1: 4005 = 3 * 3 * 5 * 89 passes all fifty rounds.  Under that key the
    plaintext "OC" does not come back. *)
Lemma roundtrip_fails_on_composite_p :
  private_key_gen 100 sample_config composite_world
  = Val (composite_key, mkWorld (entropy composite_world) 109 [])
  /\ p composite_key = 3 * 3 * 5 * 89
  /\ encode_blocks 100 (public_key_gen composite_key)
                   (block_size_of (n composite_key)) "OC" []
     = Val (map serialize_ciphertext [3393836])
  /\ decrypt_message [3393836] composite_key
     = Val (string_of_list_ascii (map ascii_of_nat [163; 143; 5]%nat))
  /\ string_of_list_ascii (map ascii_of_nat [163; 143; 5]%nat) <> "OC"%string.
Proof.
  split; [vm_compute; reflexivity|].
  split; [reflexivity|].
  split; [vm_compute; reflexivity|].
  split; [vm_compute; reflexivity | discriminate].
Qed.

(* ================================================================== *)
(** ** Further properties of the code                                  *)
(* ================================================================== *)

(** *** Random integers *)

Lemma after_no_draw (w : world) : after_draws w 0 = w.
Proof.
  destruct w as [ent cur fs]. unfold after_draws; cbn [entropy cursor files].
  now rewrite Nat.add_0_r.
Qed.

Lemma after_draws_consumed (w : world) (k : nat) :
  after_draws (Random.consumed w) k = after_draws w (S k).
Proof.
  unfold after_draws, Random.consumed; cbn [entropy cursor files].
  f_equal. lia.
Qed.

Lemma drawn_digits_succ (w : world) (k : nat) :
  drawn_digits w (S k)
  = entropy w (cursor w) mod 10 :: drawn_digits (Random.consumed w) k.
Proof.
  unfold drawn_digits. cbn [seq map]. rewrite Nat.add_0_r. f_equal.
  rewrite <- seq_shift, map_map. apply map_ext. intros i.
  unfold Random.consumed; cbn [entropy cursor]. f_equal. f_equal. lia.
Qed.

Lemma random_digit (w : world) :
  Random.int 10 w = Val (entropy w (cursor w) mod 10, Random.consumed w).
Proof. reflexivity. Qed.

Lemma z_gen'_value (k : nat) :
  forall (fuel : nat) (acc : Z) (w : world),
    (k < fuel)%nat ->
    z_gen' fuel (Z.of_nat k) acc w
    = Val (decimal_value acc (drawn_digits w k), after_draws w k).
Proof.
  induction k as [|k IH]; intros fuel acc w Hfuel;
    (destruct fuel as [|fuel]; [lia|]); cbn [z_gen'].
  - cbn [Z.of_nat Z.eqb]. unfold ret. now rewrite after_no_draw.
  - destruct (Z.eqb_spec (Z.of_nat (S k)) 0) as [|_]; [lia|].
    unfold bind. rewrite random_digit.
    replace (Z.of_nat (S k) - 1) with (Z.of_nat k) by lia.
    rewrite IH by lia.
    now rewrite drawn_digits_succ, after_draws_consumed.
Qed.

Lemma decimal_value_range (digits : list Z) :
  Forall (fun digit => 0 <= digit < 10) digits ->
  forall acc : Z,
    acc * 10 ^ Z.of_nat (List.length digits)
    <= decimal_value acc digits
    < (acc + 1) * 10 ^ Z.of_nat (List.length digits).
Proof.
  unfold decimal_value.
  induction 1 as [|digit digits Hd _ IH]; intros acc; cbn [fold_left List.length].
  - cbn. lia.
  - specialize (IH (acc * 10 + digit)).
    rewrite Nat2Z.inj_succ, Z.pow_succ_r by lia.
    assert (0 < 10 ^ Z.of_nat (List.length digits))
      by (apply Z.pow_pos_nonneg; lia).
    nia.
Qed.

Lemma drawn_digits_range (w : world) (k : nat) :
  Forall (fun digit => 0 <= digit < 10) (drawn_digits w k)
  /\ List.length (drawn_digits w k) = k.
Proof.
  unfold drawn_digits. split.
  - apply Forall_forall. intros digit Hin. apply in_map_iff in Hin.
    destruct Hin as (i & <- & _). apply Z.mod_pos_bound. lia.
  - now rewrite length_map, length_seq.
Qed.

(** X1: [z_gen len] with [len >= 0] draws exactly [len] digits and returns
    the number they write, most significant first; the result lies in
    [0, 10 ^ len), so it may have fewer than [len] digits. *)
Theorem z_gen_value (k fuel : nat) (w : world) :
  (k < fuel)%nat ->
  z_gen fuel (Z.of_nat k) w
  = Val (decimal_value 0 (drawn_digits w k), after_draws w k)
  /\ 0 <= decimal_value 0 (drawn_digits w k) < 10 ^ Z.of_nat k.
Proof.
  intros Hfuel. split.
  - unfold z_gen. now apply z_gen'_value.
  - destruct (drawn_digits_range w k) as [Hall Hlen].
    pose proof (decimal_value_range _ Hall 0) as H. rewrite Hlen in H. lia.
Qed.

Lemma z_gen_value_witness :
  z_gen 5 (Z.of_nat 3) (scripted_world [14; 20; 37] 0)
  = Val (decimal_value 0 (drawn_digits (scripted_world [14; 20; 37] 0) 3),
         after_draws (scripted_world [14; 20; 37] 0) 3)
  /\ 0 <= decimal_value 0 (drawn_digits (scripted_world [14; 20; 37] 0) 3)
       < 10 ^ Z.of_nat 3.
Proof.
  apply (z_gen_value 3 5 (scripted_world [14; 20; 37] 0)). lia.
Defined.

(** What [z_gen'] returns, whatever the length asked for: the length was
    not negative and the digits were appended to [acc]. *)
Lemma z_gen'_returns (fuel : nat) :
  forall (len acc : Z) (w : world) (v : Z) (w' : world),
    0 <= acc -> z_gen' fuel len acc w = Val (v, w') ->
    0 <= len /\ acc * 10 ^ len <= v < (acc + 1) * 10 ^ len.
Proof.
  induction fuel as [|fuel IH]; intros len acc w v w' Hacc H; [discriminate|].
  cbn [z_gen'] in H. destruct (Z.eqb_spec len 0) as [->|Hne].
  - injection H as <- _. cbn. lia.
  - unfold bind in H. rewrite random_digit in H.
    pose proof (Z.mod_pos_bound (entropy w (cursor w)) 10 ltac:(lia)) as Hd.
    apply IH in H; [|lia]. destruct H as [Hlen Hv].
    split; [lia|].
    replace len with (Z.succ (len - 1)) by lia.
    rewrite Z.pow_succ_r by lia.
    assert (0 < 10 ^ (len - 1)) by (apply Z.pow_pos_nonneg; lia).
    nia.
Qed.

(** *** The primality test at its edges *)

(** X2: [miller_rabin_test] does not terminate on 1: the odd part of
    [1 - 1 = 0] is never found. *)
Theorem miller_rabin_test_one_diverges (fuel : nat) (trails : option Z)
    (w : world) :
  miller_rabin_test fuel trails 1 w = OutOfFuel.
Proof.
  unfold miller_rabin_test. cbn [Z.eqb Z.sub Z.add Z.opp Z.pos_sub].
  unfold bind, lift. now rewrite get_factor_q_zero_diverges.
Qed.

(** [get_factor_q] returns on every number other than 0, negative ones
    included. *)
Lemma get_factor_q_returns (fuel : nat) :
  forall num : Z,
    num <> 0 -> Z.log2 (Z.abs num) < Z.of_nat fuel ->
    exists q : Z, get_factor_q fuel num = Val q /\ q <> 0.
Proof.
  induction fuel as [|fuel IH]; intros num Hne Hfuel.
  - pose proof (Z.log2_nonneg (Z.abs num)). lia.
  - cbn [get_factor_q]. rewrite rem_by_2. cbn [obind].
    destruct (Z.eqb_spec (Z.rem num 2) 0) as [Hz|Hnz].
    + rewrite div_by_2. cbn [obind].
      pose proof (Z.quot_rem' num 2) as Hqr. rewrite Hz in Hqr.
      destruct (IH (Z.quot num 2)) as (q & Hq & Hq0); [lia | | eauto].
      replace (Z.abs num) with (2 * Z.abs (Z.quot num 2)) in Hfuel by lia.
      rewrite Z.log2_double in Hfuel by lia. lia.
    + exists num. auto.
Qed.

(** X3: on a number that is not positive, with at least one round asked
    for, [miller_rabin_test] raises: [Invalid_argument] from [Random.int64],
    whose bound is then not positive, or [Overflow] from [Z.to_int64] below
    the 64-bit range. *)
Theorem miller_rabin_test_nonpositive_raises (fuel : nat) (trails : option Z)
    (n : Z) (w : world) :
  n <= 0 -> default_trails trails <> 0 ->
  Z.log2 (1 - n) < Z.of_nat fuel ->
  miller_rabin_test fuel trails n w
  = Exn (if Int64.min_int <=? n then Invalid_argument "Random.int64"
         else Overflow).
Proof.
  intros Hn Htrails Hfuel. unfold miller_rabin_test.
  destruct (Z.eqb_spec 2 n); [lia|].
  destruct (get_factor_q_returns fuel (n - 1)) as (q & Hq & _); [lia | |].
  { replace (Z.abs (n - 1)) with (1 - n) by lia. exact Hfuel. }
  rewrite Hq, io_bind_lift_val.
  destruct fuel as [|fuel]; [pose proof (Z.log2_nonneg (1 - n)); lia|].
  cbn [miller_rabin_test'].
  destruct (Z.eqb_spec (default_trails trails) 0); [contradiction|].
  unfold bind, lift, Zarith.to_int64.
  rewrite Z.min_l by (unfold Int64.max_int; lia).
  destruct (Z.leb_spec Int64.min_int n); cbn [andb].
  - destruct (Z.leb_spec n Int64.max_int); [|unfold Int64.max_int in *; lia].
    unfold Random.int64. destruct (Z.leb_spec n 0); [reflexivity | lia].
  - reflexivity.
Qed.

Lemma miller_rabin_test_nonpositive_raises_witness :
  miller_rabin_test 5 None 0 (constant_world 7)
  = Exn (if Int64.min_int <=? 0 then Invalid_argument "Random.int64"
         else Overflow).
Proof.
  apply (miller_rabin_test_nonpositive_raises 5 None 0 (constant_world 7)).
  - lia.
  - discriminate.
  - vm_compute. reflexivity.
Defined.

(** X4: with no round asked for ([~trails:0]) every integer except 1 is
    answered prime, and nothing is drawn. *)
Theorem miller_rabin_test_no_trials (fuel : nat) (n : Z) (w : world) :
  n <> 1 -> Z.log2 (Z.abs (n - 1)) < Z.of_nat fuel ->
  miller_rabin_test fuel (Some 0) n w = Val (true, w).
Proof.
  intros Hn Hfuel. unfold miller_rabin_test.
  destruct (Z.eqb_spec 2 n); [reflexivity|].
  destruct (get_factor_q_returns fuel (n - 1)) as (q & Hq & _); [lia | exact Hfuel |].
  rewrite Hq, io_bind_lift_val.
  destruct fuel as [|fuel]; [pose proof (Z.log2_nonneg (Z.abs (n - 1))); lia|].
  reflexivity.
Qed.

Lemma miller_rabin_test_no_trials_witness :
  miller_rabin_test 10 (Some 0) 91 (constant_world 7)
  = Val (true, constant_world 7).
Proof.
  apply (miller_rabin_test_no_trials 10 91 (constant_world 7)).
  - discriminate.
  - vm_compute. reflexivity.
Defined.

(** *** The rounds of the primality test *)

Lemma drawn_base_first (w : world) (bound : Z) :
  drawn_base w bound 0 = entropy w (cursor w) mod bound.
Proof. unfold drawn_base. now rewrite Nat.add_0_r. Qed.

Lemma drawn_base_consumed (w : world) (bound : Z) (i : nat) :
  drawn_base (Random.consumed w) bound i = drawn_base w bound (S i).
Proof.
  unfold drawn_base, Random.consumed; cbn [entropy cursor].
  f_equal. f_equal. lia.
Qed.

(** The rounds answer [true] exactly when every base drawn passes, and
    then one base per round was drawn. *)
Lemma run_trials_true (pass : Z -> bool) (bound : Z) (trails : nat) :
  forall (w w' : world),
    run_trials pass bound trails w = (true, w') <->
    (forall i : nat, (i < trails)%nat -> pass (drawn_base w bound i) = true)
    /\ w' = after_draws w trails.
Proof.
  induction trails as [|trails IH]; intros w w'; cbn [run_trials].
  - rewrite after_no_draw. split.
    + intros H. injection H as <-. split; [intros i Hi; lia | reflexivity].
    + intros [_ ->]. reflexivity.
  - rewrite <- drawn_base_first.
    destruct (pass (drawn_base w bound 0)) eqn:Hpass.
    + rewrite IH, after_draws_consumed. split.
      * intros [Hall ->]. split; [|reflexivity].
        intros [|i] Hi; [exact Hpass|].
        rewrite <- drawn_base_consumed. apply Hall. lia.
      * intros [Hall ->]. split; [|reflexivity].
        intros i Hi. rewrite drawn_base_consumed. apply Hall. lia.
    + split; [discriminate|].
      intros [Hall _]. rewrite Hall in Hpass by lia. discriminate.
Qed.

(** X5: the base 0 fails its round on every number above 2, the primes
    included: when the first base drawn is 0 the answer is [false]. *)
Theorem miller_rabin_test_base_zero (n : Z) (trails fuel : nat) (w : world) :
  2 < n -> (1 <= trails)%nat ->
  Z.log2 n + Z.of_nat trails + 2 <= Z.of_nat fuel ->
  drawn_base w (Z.min n Int64.max_int) 0 = 0 ->
  miller_rabin_test fuel (Some (Z.of_nat trails)) n w
  = Val (false, Random.consumed w).
Proof.
  intros Hn Htrails Hfuel Hbase.
  destruct (miller_rabin_test_spec n trails fuel w Hn Hfuel)
    as (q & s & _ & Hq & _ & Hrun).
  rewrite Hrun. destruct trails as [|trails]; [lia|].
  cbn [run_trials]. rewrite <- drawn_base_first, Hbase.
  unfold round_passes. cbv zeta.
  rewrite Z.pow_0_l, Z.mod_0_l by lia.
  destruct (Z.eqb_spec 0 (n - 1)); [lia|]. reflexivity.
Qed.

Lemma miller_rabin_test_base_zero_witness :
  miller_rabin_test 60 (Some (Z.of_nat 50)) 7 (constant_world 14)
  = Val (false, Random.consumed (constant_world 14)).
Proof.
  apply (miller_rabin_test_base_zero 7 50 60 (constant_world 14)).
  - lia.
  - lia.
  - vm_compute. discriminate.
  - reflexivity.
Defined.

Lemma power_of_minus_one (n : Z) (s : nat) :
  1 < n -> (1 <= s)%nat -> (n - 1) ^ (2 ^ Z.of_nat s) mod n = 1.
Proof.
  intros Hn Hs. destruct s as [|s]; [lia|].
  rewrite Nat2Z.inj_succ, Z.pow_succ_r by lia.
  assert (0 <= 2 ^ Z.of_nat s) by (apply Z.pow_nonneg; lia).
  rewrite Z.pow_mul_r, Z.pow_2_r by lia.
  rewrite <- Z.mod_pow_l, square_of_minus_one, Z.pow_1_l by lia.
  apply Z.mod_small. lia.
Qed.

(** A base that passes the round of the code passes the Fermat test. *)
Lemma round_passes_fermat (n q a : Z) (s : nat) :
  2 < n -> 0 < q -> n - 1 = 2 ^ Z.of_nat s * q ->
  round_passes n q a = true -> a ^ (n - 1) mod n = 1.
Proof.
  intros Hn Hq Hdec Hpass. unfold round_passes in Hpass. cbv zeta in Hpass.
  assert (H2s : 0 <= 2 ^ Z.of_nat s) by (apply Z.pow_nonneg; lia).
  rewrite Hdec, Z.mul_comm, Z.pow_mul_r, <- Z.mod_pow_l by lia.
  apply orb_true_iff in Hpass. destruct Hpass as [H1|Hm1].
  - apply Z.eqb_eq in H1. rewrite H1, Z.pow_1_l by lia.
    apply Z.mod_small. lia.
  - apply andb_true_iff in Hm1. destruct Hm1 as [Hx Hqn].
    apply Z.eqb_eq in Hx. apply negb_true_iff, Z.eqb_neq in Hqn.
    rewrite Hx. apply power_of_minus_one; [lia|].
    destruct s as [|s]; [|lia]. exfalso.
    change (Z.of_nat 0) with 0 in Hdec. rewrite Z.pow_0_r in Hdec. lia.
Qed.

(** X6: a number above 2 that [miller_rabin_test] answers prime passed the
    Fermat test on every base drawn: [a ^ (n - 1) mod n = 1] for each of the
    [trails] bases, one drawn per round. *)
Theorem miller_rabin_test_accepts_fermat (n : Z) (trails fuel : nat)
    (w w' : world) :
  2 < n -> Z.log2 n + Z.of_nat trails + 2 <= Z.of_nat fuel ->
  miller_rabin_test fuel (Some (Z.of_nat trails)) n w = Val (true, w') ->
  w' = after_draws w trails
  /\ forall i : nat, (i < trails)%nat ->
       drawn_base w (Z.min n Int64.max_int) i ^ (n - 1) mod n = 1.
Proof.
  intros Hn Hfuel Hrun.
  destruct (miller_rabin_test_spec n trails fuel w Hn Hfuel)
    as (q & s & _ & Hq & Hdec & Hspec).
  rewrite Hspec in Hrun. injection Hrun as Hrun.
  apply run_trials_true in Hrun. destruct Hrun as [Hall ->].
  split; [reflexivity|]. intros i Hi.
  apply (round_passes_fermat n q _ s); auto.
Qed.

Lemma miller_rabin_test_accepts_fermat_witness :
  mkWorld (entropy (constant_world 2)) 50 [] = after_draws (constant_world 2) 50
  /\ forall i : nat, (i < 50)%nat ->
       drawn_base (constant_world 2) (Z.min 7 Int64.max_int) i ^ (7 - 1) mod 7 = 1.
Proof.
  apply (miller_rabin_test_accepts_fermat 7 50 60 (constant_world 2)
           (mkWorld (entropy (constant_world 2)) 50 [])).
  - lia.
  - vm_compute. discriminate.
  - vm_compute. reflexivity.
Defined.

(** Modulo a prime the square roots of 1 are 1 and -1. *)
Lemma square_root_of_one (pr x : Z) :
  Z.prime pr -> 0 <= x < pr -> (x * x) mod pr = 1 -> x = 1 \/ x = pr - 1.
Proof.
  intros Hp Hx Hsq. pose proof (Z.prime_ge_2 pr Hp).
  assert (Hd : (pr | (x - 1) * (x + 1))).
  { apply Z.mod_divide; [lia|].
    replace ((x - 1) * (x + 1)) with (x * x - 1) by ring.
    rewrite Zminus_mod, Hsq, (Z.mod_small 1), Z.sub_diag by lia.
    apply Z.mod_0_l. lia. }
  apply Z.divide_prime_mul in Hd; [|exact Hp].
  destruct Hd as [[k Hk]|[k Hk]].
  - left. assert (k = 0) by nia. lia.
  - right. assert (k = 1) by nia. lia.
Qed.

(** X7: a prime [n] with [n mod 4 = 3] is answered prime whenever none of
    the bases drawn is 0. *)
Theorem miller_rabin_test_accepts_prime_3_mod_4 (n : Z) (trails fuel : nat)
    (w : world) :
  Z.prime n -> n mod 4 = 3 ->
  Z.log2 n + Z.of_nat trails + 2 <= Z.of_nat fuel ->
  (forall i : nat, (i < trails)%nat ->
     drawn_base w (Z.min n Int64.max_int) i <> 0) ->
  miller_rabin_test fuel (Some (Z.of_nat trails)) n w
  = Val (true, after_draws w trails).
Proof.
  intros Hp Hmod Hfuel Hbases. pose proof (Z.prime_ge_2 n Hp) as Hge.
  pose proof (Z.div_mod n 4 ltac:(lia)) as Hdm. rewrite Hmod in Hdm.
  assert (Hn : 2 < n) by lia.
  destruct (miller_rabin_test_spec n trails fuel w Hn Hfuel)
    as (q & s & Hodd & Hq & Hdec & Hrun).
  rewrite Hrun. f_equal. apply run_trials_true. split; [|reflexivity].
  intros i Hi. specialize (Hbases i Hi).
  set (a := drawn_base w (Z.min n Int64.max_int) i) in *.
  assert (Ha : 0 <= a < n).
  { pose proof (Z.mod_pos_bound (entropy w (cursor w + i))
                  (Z.min n Int64.max_int)
                  ltac:(unfold Int64.max_int; lia)) as Hb.
    unfold a, drawn_base. lia. }
  assert (Hs : s = 1%nat).
  { apply Zodd_bool_iff, Zodd_ex in Hodd. destruct Hodd as [j Hj].
    destruct s as [|[|s]]; [exfalso | reflexivity | exfalso].
    - change (Z.of_nat 0) with 0 in Hdec. rewrite Z.pow_0_r in Hdec. lia.
    - rewrite !Nat2Z.inj_succ, !Z.pow_succ_r in Hdec by lia.
      assert (0 <= 2 ^ Z.of_nat s) by (apply Z.pow_nonneg; lia). nia. }
  subst s. change (2 ^ Z.of_nat 1) with 2 in Hdec.
  assert (Hfermat : a ^ (n - 1) mod n = 1).
  { apply fermat_little; [exact Hp|].
    intros Hd. apply Z.divide_pos_le in Hd; lia. }
  rewrite Hdec, Z.mul_comm, Z.pow_mul_r, Z.pow_2_r in Hfermat by lia.
  rewrite Z.mul_mod in Hfermat by lia.
  apply square_root_of_one in Hfermat;
    [|exact Hp | apply Z.mod_pos_bound; lia].
  unfold round_passes. cbv zeta.
  destruct Hfermat as [-> | ->].
  - reflexivity.
  - destruct (Z.eqb_spec (n - 1) 1); [lia|].
    destruct (Z.eqb_spec q (n - 1)); [lia|].
    now rewrite Z.eqb_refl.
Qed.

Lemma miller_rabin_test_accepts_prime_3_mod_4_witness :
  miller_rabin_test 60 (Some (Z.of_nat 50)) 7 (constant_world 2)
  = Val (true, after_draws (constant_world 2) 50).
Proof.
  apply (miller_rabin_test_accepts_prime_3_mod_4 7 50 60 (constant_world 2)).
  - apply no_divisor_below_prime; [lia | reflexivity].
  - reflexivity.
  - vm_compute. discriminate.
  - intros i _. vm_compute. discriminate.
Defined.

(** *** The prime search and the exponent search *)

Lemma z_gen'_settled (f0 : nat) (len acc : Z) (w : world) (r : Z * world) :
  z_gen' f0 len acc w = Val r ->
  forall fuel : nat,
    z_gen' fuel len acc w = OutOfFuel \/ z_gen' fuel len acc w = Val r.
Proof.
  intros H0 fuel.
  destruct (Nat.le_ge_cases fuel f0) as [Hle|Hge].
  - destruct (z_gen' fuel len acc w) as [r'| |] eqn:E; auto.
    + right. rewrite <- H0, <- E. symmetry.
      apply z_gen'_mono; [exact Hle | congruence].
    + exfalso.
      pose proof (z_gen'_mono fuel f0 len acc w Hle ltac:(congruence)).
      congruence.
  - right. rewrite <- H0. apply z_gen'_mono; [exact Hge | congruence].
Qed.

Lemma z_gen'_never_raises (fuel : nat) :
  forall (len acc : Z) (w : world) (ex : exn),
    z_gen' fuel len acc w <> Exn ex.
Proof.
  induction fuel as [|fuel IH]; intros len acc w ex; [discriminate|].
  cbn [z_gen']. destruct (len =? 0); [discriminate|].
  unfold bind. rewrite random_digit. apply IH.
Qed.

(** The test on the candidate 0, with at least one round asked for. *)
Lemma miller_rabin_test_zero (fuel : nat) (trails : option Z) (w : world) :
  default_trails trails <> 0 ->
  miller_rabin_test (S fuel) trails 0 w = Exn (Invalid_argument "Random.int64").
Proof.
  intros Htrails. unfold miller_rabin_test.
  assert (Hq : get_factor_q (S fuel) (0 - 1) = Val (-1)) by reflexivity.
  destruct (Z.eqb_spec 2 0); [lia|].
  rewrite Hq, io_bind_lift_val. cbn [miller_rabin_test'].
  destruct (Z.eqb_spec (default_trails trails) 0); [contradiction|].
  reflexivity.
Qed.

(** X8: when the candidate drawn is 0 (for instance with [len = 0]) the
    prime search fails with [Invalid_argument]: the test asks [Random.int64]
    for a base below 0. *)
Theorem prime_gen_zero_candidate_raises (fuel : nat) (trails : option Z)
    (len : Z) (w w1 : world) :
  default_trails trails <> 0 ->
  z_gen (S fuel) len w = Val (0, w1) ->
  prime_gen (S (S fuel)) trails len w = Exn (Invalid_argument "Random.int64").
Proof.
  intros Htrails Hz. unfold prime_gen. cbn [prime_gen'].
  unfold bind at 1. rewrite Hz. unfold bind at 1.
  rewrite miller_rabin_test_zero; [reflexivity|].
  cbn [default_trails]. exact Htrails.
Qed.

Lemma prime_gen_zero_candidate_raises_witness :
  prime_gen (S (S 3)) None 0 (constant_world 5)
  = Exn (Invalid_argument "Random.int64").
Proof.
  apply (prime_gen_zero_candidate_raises 3 None 0 (constant_world 5)
           (constant_world 5)).
  - discriminate.
  - reflexivity.
Defined.

(** X9: when the candidate drawn is 1 the prime search never returns: the
    test does not terminate on 1. *)
Theorem prime_gen_one_candidate_diverges (fuel f0 : nat) (trails : option Z)
    (len : Z) (w w1 : world) :
  z_gen f0 len w = Val (1, w1) ->
  prime_gen fuel trails len w = OutOfFuel.
Proof.
  intros Hz. unfold prime_gen. destruct fuel as [|fuel]; [reflexivity|].
  cbn [prime_gen']. unfold bind at 1. unfold z_gen in *.
  destruct (z_gen'_settled f0 len 0 w (1, w1) Hz fuel) as [-> | ->];
    [reflexivity|].
  unfold bind at 1. unfold miller_rabin_test.
  cbn [Z.eqb Z.sub Z.add Z.opp Z.pos_sub].
  unfold bind, lift. now rewrite get_factor_q_zero_diverges.
Qed.

Lemma prime_gen_one_candidate_diverges_witness :
  prime_gen 1000 None 1 (constant_world 1) = OutOfFuel.
Proof.
  apply (prime_gen_one_candidate_diverges 1000 5 None 1 (constant_world 1)
           (Random.consumed (constant_world 1))).
  reflexivity.
Defined.

(** A number the test answers prime, with at least one round asked for, is
    at least 2. *)
Lemma miller_rabin_test_true_at_least_2 (fuel : nat) (trails : option Z)
    (n : Z) (w w' : world) :
  default_trails trails <> 0 ->
  miller_rabin_test fuel trails n w = Val (true, w') -> 2 <= n.
Proof.
  intros Htrails H.
  destruct (Z.le_gt_cases 2 n) as [|Hsmall]; [assumption|]. exfalso.
  unfold miller_rabin_test in H.
  destruct (Z.eqb_spec 2 n); [lia|].
  unfold bind, lift in H.
  destruct (get_factor_q fuel (n - 1)) as [q| |] eqn:Hq; try discriminate.
  destruct (Z.eq_dec n 1) as [->|Hn1].
  { change (1 - 1) with 0 in Hq. rewrite get_factor_q_zero_diverges in Hq.
    discriminate. }
  destruct fuel as [|fuel]; [discriminate|].
  cbn [miller_rabin_test'] in H.
  destruct (Z.eqb_spec (default_trails trails) 0); [contradiction|].
  unfold bind, lift, Zarith.to_int64 in H.
  destruct ((Int64.min_int <=? Z.min n Int64.max_int)
            && (Z.min n Int64.max_int <=? Int64.max_int)); [|discriminate].
  unfold Random.int64 in H.
  destruct (Z.leb_spec (Z.min n Int64.max_int) 0); [discriminate|].
  unfold Int64.max_int in *. lia.
Qed.

Lemma prime_gen'_returns (fuel : nat) :
  forall (trails : option Z) (len : Z) (w : world) (pr : Z) (w' : world),
    default_trails trails <> 0 ->
    prime_gen' fuel trails len w = Val (pr, w') ->
    0 <= len /\ 2 <= pr < 10 ^ len.
Proof.
  induction fuel as [|fuel IH]; intros trails len w pr w' Htrails H;
    [discriminate|].
  cbn [prime_gen'] in H.
  apply bind_val_inv in H. destruct H as (cand & w1 & Hcand & H).
  apply bind_val_inv in H. destruct H as (verdict & w2 & Htest & H).
  destruct verdict.
  - injection H as <- _.
    apply z_gen'_returns in Hcand; [|lia].
    apply miller_rabin_test_true_at_least_2 in Htest; [|exact Htrails].
    lia.
  - eapply IH; eauto.
Qed.

(** X10: a number the prime search returns lies in [2, 10 ^ len). *)
Theorem prime_gen_range (fuel : nat) (trails : option Z) (len : Z)
    (w w' : world) (pr : Z) :
  default_trails trails <> 0 ->
  prime_gen fuel trails len w = Val (pr, w') ->
  0 <= len /\ 2 <= pr < 10 ^ len.
Proof.
  intros Htrails H. unfold prime_gen in H.
  induction fuel as [|fuel IH] in w, H |- *; [discriminate|].
  cbn [prime_gen'] in H.
  apply bind_val_inv in H. destruct H as (cand & w1 & Hcand & H).
  apply bind_val_inv in H. destruct H as (verdict & w2 & Htest & H).
  destruct verdict; [|now apply (IH w2)].
  injection H as <- _.
  apply z_gen'_returns in Hcand; [|lia].
  apply miller_rabin_test_true_at_least_2 in Htest; [|exact Htrails].
  lia.
Qed.

Lemma prime_gen_range_witness :
  0 <= 4 /\ 2 <= 4003 < 10 ^ 4.
Proof.
  apply (prime_gen_range 100 None 4 sample_world
           (mkWorld (entropy sample_world) 54 []) 4003).
  - discriminate.
  - vm_compute. reflexivity.
Defined.

Lemma e_gen'_returns (fuel : nat) (rc : rsa_config) (phi : Z) :
  forall (w : world) (e0 : Z) (w' : world),
    e_gen' fuel rc phi w = Val (e0, w') ->
    Z.gcd e0 phi = 1 /\ 0 <= e0 < 10 ^ e_len rc.
Proof.
  induction fuel as [|fuel IH]; intros w e0 w' H; [discriminate|].
  cbn [e_gen'] in H. apply bind_val_inv in H.
  destruct H as (cand & w1 & Hcand & H).
  destruct (coprime cand phi) eqn:Hc.
  - injection H as <- _. split.
    + unfold coprime in Hc. now apply Z.eqb_eq in Hc.
    + apply z_gen'_returns in Hcand; lia.
  - eapply IH; eauto.
Qed.

(** X11: the exponent search accepts the candidate 1 for every [phi], and
    under a public exponent 1 [plaintext_encrypt] returns the block
    itself. *)
Theorem e_gen_accepts_one (fuel : nat) (rc : rsa_config) (phi : Z)
    (w w1 : world) :
  z_gen fuel (e_len rc) w = Val (1, w1) ->
  e_gen (S fuel) rc phi w = Val (1, w1)
  /\ forall (m modulus : Z) (ty : string),
       0 <= m < modulus ->
       plaintext_encrypt {| message := m; types := ty |}
                         {| pub_n := modulus; pub_e := 1 |}
       = Val {| c := m; c_types := ty |}.
Proof.
  intros Hz. split.
  - unfold e_gen. cbn [e_gen']. unfold bind. rewrite Hz.
    unfold coprime. now rewrite Z.gcd_1_l.
  - intros m modulus ty Hm. unfold plaintext_encrypt. cbn [message types pub_n pub_e].
    rewrite powm_nonneg_exponent by lia. cbn [obind].
    now rewrite Z.pow_1_r, Z.mod_small.
Qed.

Lemma e_gen_accepts_one_witness :
  e_gen (S 5) sample_config 16032012 (constant_world 1)
  = Val (1, Random.consumed (constant_world 1))
  /\ forall (m modulus : Z) (ty : string),
       0 <= m < modulus ->
       plaintext_encrypt {| message := m; types := ty |}
                         {| pub_n := modulus; pub_e := 1 |}
       = Val {| c := m; c_types := ty |}.
Proof.
  apply (e_gen_accepts_one 5 sample_config 16032012 (constant_world 1)
           (Random.consumed (constant_world 1))).
  reflexivity.
Defined.

(** *** Generated keys *)

(** X12: every key that [private_key_gen] returns has [p] and [q] of at
    least 2 and below [10 ^ p_len] and [10 ^ q_len], a totient
    [(p - 1) * (q - 1)] of at least 1, a public exponent in
    [0, 10 ^ e_len) and a private exponent in [0, (p - 1) * (q - 1)). *)
Theorem private_key_gen_ranges (fuel : nat) (rc : rsa_config)
    (w w' : world) (k : private_key) :
  private_key_gen fuel rc w = Val (k, w') ->
  2 <= p k < 10 ^ p_len rc
  /\ 2 <= q k < 10 ^ q_len rc
  /\ 1 <= (p k - 1) * (q k - 1)
  /\ 0 <= e k < 10 ^ e_len rc
  /\ 0 <= d k < (p k - 1) * (q k - 1).
Proof.
  unfold private_key_gen, prime_gen, e_gen. intros H.
  apply bind_val_inv in H. destruct H as (p0 & w1 & Hp & H).
  apply bind_val_inv in H. destruct H as (q0 & w2 & Hq & H).
  apply bind_val_inv in H. destruct H as (e0 & w3 & He & H).
  apply bind_val_inv in H. destruct H as (d0 & w4 & Hd & H).
  injection H as <- _. cbn [n p q e d].
  apply prime_gen'_returns in Hp; [|discriminate].
  apply prime_gen'_returns in Hq; [|discriminate].
  apply e_gen'_returns in He.
  apply lift_val_inv in Hd. destruct Hd as [Hd _]. cbn [fst] in Hd.
  apply invert_spec in Hd. destruct Hd as (_ & _ & Hrange & _).
  assert (1 <= (p0 - 1) * (q0 - 1)) by nia.
  specialize (Hrange ltac:(lia)).
  repeat split; try lia.
Qed.

Lemma private_key_gen_ranges_witness :
  2 <= p sample_key < 10 ^ p_len sample_config
  /\ 2 <= q sample_key < 10 ^ q_len sample_config
  /\ 1 <= (p sample_key - 1) * (q sample_key - 1)
  /\ 0 <= e sample_key < 10 ^ e_len sample_config
  /\ 0 <= d sample_key < (p sample_key - 1) * (q sample_key - 1).
Proof.
  apply (private_key_gen_ranges 100 sample_config sample_world
           (mkWorld (entropy sample_world) 109 []) sample_key).
  vm_compute. reflexivity.
Defined.

(** On a number above 2 the test raises nothing, whatever the budget. *)
Lemma miller_rabin_test_never_raises (fuel trails : nat) (n : Z) (w : world)
    (ex : exn) :
  2 < n -> miller_rabin_test fuel (Some (Z.of_nat trails)) n w <> Exn ex.
Proof.
  intros Hn Hraise.
  pose proof (Z.log2_nonneg n) as Hlog.
  set (big := (fuel + Z.to_nat (Z.log2 n) + trails + 2)%nat).
  destruct (miller_rabin_test_spec n trails big w Hn ltac:(unfold big; lia))
    as (q & s & _ & _ & _ & Hrun).
  rewrite (miller_rabin_test_mono fuel big) in Hrun;
    [congruence | unfold big; lia | congruence].
Qed.

Lemma prime_gen'_raises (fuel : nat) :
  forall (len : Z) (w : world) (ex : exn),
    prime_gen' fuel None len w = Exn ex ->
    ex = Invalid_argument "Random.int64".
Proof.
  induction fuel as [|fuel IH]; intros len w ex H; [discriminate|].
  cbn [prime_gen'] in H. unfold bind at 1 in H. unfold z_gen in H.
  destruct (z_gen' fuel len 0 w) as [[cand w1]| |] eqn:Hcand;
    [| now apply z_gen'_never_raises in Hcand | discriminate].
  apply z_gen'_returns in Hcand; [|lia]. destruct Hcand as [_ [Hcand _]].
  rewrite Z.mul_0_l in Hcand.
  unfold bind at 1 in H. cbn [default_trails] in H.
  destruct (miller_rabin_test fuel (Some 50) cand w1)
    as [[verdict w2]| |] eqn:Htest; [| |discriminate].
  - destruct verdict; [discriminate | eapply IH; eauto].
  - injection H as <-.
    assert (Hcases : cand = 0 \/ cand = 1 \/ cand = 2 \/ 2 < cand) by lia.
    destruct Hcases as [-> | [-> | [-> | Hbig]]].
    + destruct fuel as [|fuel]; [discriminate|].
      rewrite miller_rabin_test_zero in Htest by discriminate. congruence.
    + unfold miller_rabin_test in Htest.
      change (1 - 1) with 0 in Htest. cbn [Z.eqb] in Htest.
      unfold bind, lift in Htest.
      rewrite get_factor_q_zero_diverges in Htest. discriminate.
    + discriminate.
    + exfalso. change 50 with (Z.of_nat 50) in Htest.
      now apply miller_rabin_test_never_raises in Htest.
Qed.

Lemma e_gen'_never_raises (fuel : nat) (rc : rsa_config) (phi : Z) :
  forall (w : world) (ex : exn), e_gen' fuel rc phi w <> Exn ex.
Proof.
  induction fuel as [|fuel IH]; intros w ex; [discriminate|].
  cbn [e_gen']. unfold bind, z_gen.
  destruct (z_gen' fuel (e_len rc) 0 w) as [[cand w1]| |] eqn:Hcand;
    [| now apply z_gen'_never_raises in Hcand | discriminate].
  destruct (coprime cand phi); [discriminate | apply IH].
Qed.

(** X13: the only exception [private_key_gen] raises is the
    [Invalid_argument] of [Random.int64], which happens when a prime
    candidate is 0; the modular inverse never fails. *)
Theorem private_key_gen_raises (fuel : nat) (rc : rsa_config) (w : world)
    (ex : exn) :
  private_key_gen fuel rc w = Exn ex -> ex = Invalid_argument "Random.int64".
Proof.
  unfold private_key_gen, prime_gen, e_gen. intros H.
  unfold bind at 1 in H.
  destruct (prime_gen' fuel None (p_len rc) w) as [[p0 w1]| |] eqn:Hp;
    [| injection H as <-; eapply prime_gen'_raises; eauto | discriminate].
  unfold bind at 1 in H.
  destruct (prime_gen' fuel None (q_len rc) w1) as [[q0 w2]| |] eqn:Hq;
    [| injection H as <-; eapply prime_gen'_raises; eauto | discriminate].
  unfold bind at 1 in H.
  destruct (e_gen' fuel rc ((p0 - 1) * (q0 - 1)) w2) as [[e0 w3]| |] eqn:He;
    [| now apply e_gen'_never_raises in He | discriminate].
  exfalso.
  apply prime_gen'_returns in Hp; [|discriminate].
  apply prime_gen'_returns in Hq; [|discriminate].
  apply e_gen'_returns in He. destruct He as [Hg _].
  unfold bind, lift, d_gen, mod_minv, Zarith.invert in H.
  rewrite Hg in H. cbn [Z.eqb Pos.eqb negb] in H.
  destruct ((p0 - 1) * (q0 - 1) =? 0); discriminate.
Qed.

Lemma private_key_gen_raises_witness :
  Invalid_argument "Random.int64" = Invalid_argument "Random.int64".
Proof.
  apply (private_key_gen_raises 10 sample_config (constant_world 0)
           (Invalid_argument "Random.int64")).
  vm_compute. reflexivity.
Defined.

(** *** Saving the key *)

(** X14: [private_key_gen_and_save], whose body repeats the steps of
    [private_key_gen], behaves as [private_key_gen] followed by
    [write_to_file] of the serialized key and the return of that key: the
    same key from the same draws, and the failure or divergence of either
    step.  When the file is written, it is the one thing added. *)
Theorem private_key_gen_and_save_writes_key (fuel : nat) (rc : rsa_config)
    (filename : string) (w : world) :
  private_key_gen_and_save fuel rc filename w
  = (pk <- private_key_gen fuel rc ;;
     _ <- write_to_file filename (serialize_private_key pk) ;;
     ret pk) w
  /\ forall (K : private_key) (w' w'' : world),
       private_key_gen fuel rc w = Val (K, w') ->
       write_to_file filename (serialize_private_key K) w' = Val (tt, w'') ->
       private_key_gen_and_save fuel rc filename w = Val (K, w'')
       /\ entropy w'' = entropy w' /\ cursor w'' = cursor w'
       /\ files w'' = (filename, serialize_private_key K) :: files w'.
Proof.
  assert (Hsteps : private_key_gen_and_save fuel rc filename w
                   = (pk <- private_key_gen fuel rc ;;
                      _ <- write_to_file filename (serialize_private_key pk) ;;
                      ret pk) w).
  { unfold private_key_gen_and_save, private_key_gen, bind.
    destruct (prime_gen fuel None (p_len rc) w) as [[p0 w1]| |]; try reflexivity.
    destruct (prime_gen fuel None (q_len rc) w1) as [[q0 w2]| |];
      try reflexivity.
    destruct (e_gen fuel rc ((p0 - 1) * (q0 - 1)) w2) as [[e0 w3]| |];
      try reflexivity.
    unfold lift.
    destruct (d_gen e0 ((p0 - 1) * (q0 - 1))) as [d0| |]; reflexivity. }
  split; [exact Hsteps|].
  intros K w' w'' Hgen Hwrite. rewrite Hsteps. unfold bind at 1.
  rewrite Hgen. unfold bind at 1. rewrite Hwrite.
  split; [reflexivity|].
  unfold write_to_file in Hwrite.
  destruct (unopenable filename); [discriminate|].
  injection Hwrite as <-. cbn [entropy cursor files]. auto.
Qed.

Lemma private_key_gen_and_save_writes_key_witness :
  private_key_gen_and_save 100 sample_config "key.txt" sample_world
  = Val (sample_key,
         mkWorld (entropy sample_world) 109
                 [("key.txt"%string, serialize_private_key sample_key)])
  /\ entropy (mkWorld (entropy sample_world) 109
                 [("key.txt"%string, serialize_private_key sample_key)])
     = entropy (mkWorld (entropy sample_world) 109 [])
  /\ cursor (mkWorld (entropy sample_world) 109
                 [("key.txt"%string, serialize_private_key sample_key)])
     = cursor (mkWorld (entropy sample_world) 109 [])
  /\ files (mkWorld (entropy sample_world) 109
                 [("key.txt"%string, serialize_private_key sample_key)])
     = ("key.txt"%string, serialize_private_key sample_key)
         :: files (mkWorld (entropy sample_world) 109 []).
Proof.
  apply (proj2 (private_key_gen_and_save_writes_key 100 sample_config "key.txt"
                  sample_world)).
  - vm_compute. reflexivity.
  - vm_compute. reflexivity.
Defined.

Lemma split_at_first (ch : ascii) (a a' r r' : string) :
  lacks ch a = true -> lacks ch a' = true ->
  (a ++ String ch r)%string = (a' ++ String ch r')%string ->
  a = a' /\ r = r'.
Proof.
  revert a'. induction a as [|x a IH]; intros [|x' a'] Ha Ha' H;
    cbn [append lacks] in *.
  - injection H as ->. auto.
  - injection H as <- _. apply andb_true_iff in Ha'. destruct Ha' as [Hx _].
    rewrite Ascii.eqb_refl in Hx. discriminate.
  - injection H as -> _. apply andb_true_iff in Ha. destruct Ha as [Hx _].
    rewrite Ascii.eqb_refl in Hx. discriminate.
  - injection H as <- H.
    apply andb_true_iff in Ha, Ha'. destruct Ha as [_ Ha], Ha' as [_ Ha'].
    destruct (IH a' Ha Ha' H) as [-> ->]. auto.
Qed.

Lemma digits_lack_line_feed (digits : Decimal.uint) :
  lacks line_feed (NilEmpty.string_of_uint digits) = true.
Proof.
  induction digits; cbn [NilEmpty.string_of_uint lacks]; auto.
Qed.

Lemma to_string_lacks_line_feed (z : Z) :
  lacks line_feed (Zarith.to_string z) = true.
Proof.
  unfold Zarith.to_string, NilZero.string_of_int, NilZero.string_of_uint.
  destruct (Z.to_int z) as [digits|digits]; destruct digits;
    try reflexivity; cbn [lacks];
    apply (digits_lack_line_feed (_ digits)) || apply digits_lack_line_feed.
Qed.

Lemma to_string_inj (z z' : Z) :
  Zarith.to_string z = Zarith.to_string z' -> z = z'.
Proof.
  intros H. apply (f_equal parse_block) in H.
  rewrite !parse_block_to_string in H. now injection H.
Qed.

(** X15: the text [serialize_private_key] writes determines the key: two
    keys with the same text are equal. *)
Theorem serialize_private_key_inj (k1 k2 : private_key) :
  serialize_private_key k1 = serialize_private_key k2 -> k1 = k2.
Proof.
  destruct k1 as [n1 p1 q1 e1 d1], k2 as [n2 p2 q2 e2 d2].
  unfold serialize_private_key, newline. cbn [n p q e d append].
  fold line_feed. intros H.
  injection H as H.
  apply split_at_first in H; try apply to_string_lacks_line_feed.
  destruct H as [Hn H]. injection H as H.
  apply split_at_first in H; try apply to_string_lacks_line_feed.
  destruct H as [Hp H]. injection H as H.
  apply split_at_first in H; try apply to_string_lacks_line_feed.
  destruct H as [Hq H]. injection H as H.
  apply split_at_first in H; try apply to_string_lacks_line_feed.
  destruct H as [He H]. injection H as Hd.
  apply to_string_inj in Hn, Hp, Hq, He, Hd. now subst.
Qed.

Lemma serialize_private_key_inj_witness :
  {| n := 16040021; p := 4003; q := 4007; e := 7; d := 4580575 |} = sample_key.
Proof.
  apply (serialize_private_key_inj
           {| n := 16040021; p := 4003; q := 4007; e := 7; d := 4580575 |}
           sample_key).
  vm_compute. reflexivity.
Defined.

(** *** The encoding of a block *)

Lemma char_code_inj (x y : ascii) : char_code x = char_code y -> x = y.
Proof.
  unfold char_code. intros H. apply Nat2Z.inj in H.
  rewrite <- (ascii_nat_embedding x), <- (ascii_nat_embedding y).
  now rewrite H.
Qed.

Lemma base256_value_inj (l : list ascii) :
  forall l' : list ascii,
    List.length l = List.length l' ->
    base256_value l = base256_value l' -> l = l'.
Proof.
  induction l as [|h t IH]; intros [|h' t'] Hlen Hval;
    try discriminate; [reflexivity|].
  cbn [List.length] in Hlen. injection Hlen as Hlen.
  cbn [base256_value] in Hval. rewrite <- Hlen in Hval.
  pose proof (base256_value_bounds t) as Ht.
  pose proof (base256_value_bounds t') as Ht'. rewrite <- Hlen in Ht'.
  set (k := 256 ^ Z.of_nat (List.length t)) in *.
  assert (Hh : char_code h = char_code h').
  { destruct (Z.lt_trichotomy (char_code h) (char_code h')) as [Hlt|[Heq|Hgt]];
      [exfalso | exact Heq | exfalso]; nia. }
  rewrite Hh in Hval. apply char_code_inj in Hh. subst h'.
  f_equal. apply IH; [exact Hlen | lia].
Qed.

Lemma no_leading_zero_list (s : string) :
  no_leading_zero s = true ->
  list_ascii_of_string s = [] \/ hd zero (list_ascii_of_string s) <> zero.
Proof.
  destruct s as [|ch s]; cbn [no_leading_zero list_ascii_of_string hd];
    [now left|].
  intros H. right. apply negb_true_iff in H. now apply Ascii.eqb_neq in H.
Qed.

(** X16: [plaintext_input_string] is injective on strings of one length,
    and on strings without a leading zero byte: such strings with the same
    integer are equal. *)
Theorem plaintext_input_string_inj (s t : string) :
  String.length s = String.length t
  \/ (no_leading_zero s = true /\ no_leading_zero t = true) ->
  message (plaintext_input_string s) = message (plaintext_input_string t) ->
  s = t.
Proof.
  intros Hcase Hval. rewrite !plaintext_input_string_value in Hval.
  apply string_of_list_inj. destruct Hcase as [Hlen|[Hs Ht]].
  - apply base256_value_inj; [|exact Hval].
    now rewrite <- !string_length_list.
  - apply no_leading_zero_list in Hs, Ht.
    set (ls := list_ascii_of_string s) in *.
    set (lt := list_ascii_of_string t) in *.
    set (fuel := (List.length ls + List.length lt)%nat).
    pose proof (integer_to_bytes_aux_value ls fuel [] Hs ltac:(unfold fuel; lia))
      as H1.
    pose proof (integer_to_bytes_aux_value lt fuel [] Ht ltac:(unfold fuel; lia))
      as H2.
    rewrite Hval, H2, !app_nil_r in H1. now symmetry.
Qed.

Lemma plaintext_input_string_inj_witness :
  "ab"%string = "ab"%string.
Proof.
  apply (plaintext_input_string_inj "ab" "ab").
  - left. reflexivity.
  - reflexivity.
Defined.

Lemma encode_app (l l' : list ascii) (acc : Z) :
  encode acc (l ++ l') = encode (encode acc l) l'.
Proof.
  revert acc. induction l as [|h t IH]; intros acc; cbn [app encode];
    [reflexivity | apply IH].
Qed.

(** X17: the integer of a string lies in [0, 256 ^ length), and the integer
    of [s ++ t] is the integer of [s] shifted by the length of [t] plus the
    integer of [t]. *)
Theorem plaintext_input_string_append (s t : string) :
  0 <= message (plaintext_input_string s) < 256 ^ Z.of_nat (String.length s)
  /\ message (plaintext_input_string (s ++ t))
     = message (plaintext_input_string s) * 256 ^ Z.of_nat (String.length t)
       + message (plaintext_input_string t).
Proof.
  split.
  - rewrite plaintext_input_string_value, string_length_list.
    apply base256_value_bounds.
  - unfold plaintext_input_string; cbn [message].
    rewrite list_ascii_of_string_app, encode_app.
    rewrite (encode_base256 _ (encode 0 _)), <- !base256_value_encode.
    now rewrite <- string_length_list.
Qed.

(** *** Encryption of a block *)

(** X18: [plaintext_encrypt] raises [Division_by_zero] exactly when the
    modulus is 0, or the exponent is negative and the block is not
    invertible modulo the modulus; and every ciphertext it returns lies in
    [0, |n|) and carries the type tag of the plaintext. *)
Theorem plaintext_encrypt_outcome (pt : plaintext) (pk : public_key) :
  (plaintext_encrypt pt pk = Exn Division_by_zero <->
   pub_n pk = 0 \/ (pub_e pk < 0 /\ Z.gcd (message pt) (pub_n pk) <> 1))
  /\ (forall ct : ciphertext,
        plaintext_encrypt pt pk = Val ct ->
        0 <= c ct < Z.abs (pub_n pk) /\ c_types ct = types pt)
  /\ plaintext_encrypt pt pk <> OutOfFuel.
Proof.
  unfold plaintext_encrypt, Zarith.powm, Zarith.invert.
  destruct (Z.eqb_spec (pub_n pk) 0) as [Hz|Hnz].
  { cbn [obind]. repeat split; auto; discriminate. }
  assert (Hrange : forall a b, 0 <= b ->
            0 <= Zpow_mod a b (Z.abs (pub_n pk)) < Z.abs (pub_n pk)).
  { intros a b Hb. rewrite Zpow_mod_correct by lia.
    apply Z.mod_pos_bound. lia. }
  destruct (Z.leb_spec 0 (pub_e pk)) as [He|He].
  - cbn [obind]. split; [|split; [|discriminate]].
    + split; [discriminate | intros [?|[? _]]; lia].
    + intros ct H. injection H as <-. cbn [c c_types]. auto.
  - cbn [orb]. destruct (Z.eqb_spec (Z.gcd (message pt) (pub_n pk)) 1) as [Hg|Hg];
      cbn [negb obind].
    + split; [|split; [|discriminate]].
      * split; [discriminate | intros [?|[_ ?]]; contradiction].
      * intros ct H. injection H as <-. cbn [c c_types].
        split; [apply Hrange; lia | reflexivity].
    + split; [|split; [|discriminate]].
      * split; auto.
      * discriminate.
Qed.

(** X19: under a generated key whose [p] and [q] are distinct primes,
    [mod_exp] with the private exponent undoes [plaintext_encrypt] on every
    block in [0, n). *)
Theorem generated_key_block_roundtrip (fuel : nat) (rc : rsa_config)
    (w w' : world) (K : private_key) (m : Z) (ty : string) :
  private_key_gen fuel rc w = Val (K, w') ->
  Z.prime (p K) -> Z.prime (q K) -> p K <> q K ->
  0 <= m < n K ->
  exists ct : ciphertext,
    plaintext_encrypt {| message := m; types := ty |} (public_key_gen K) = Val ct
    /\ mod_exp (c ct) (d K) (n K) = Val m.
Proof.
  intros Hgen Hp Hq Hne Hm.
  destruct (generated_key_facts fuel rc w w' K Hgen)
    as (Hn & Hinv & _ & He & Hd).
  unfold plaintext_encrypt, public_key_gen, mod_exp.
  cbn [message types pub_n pub_e].
  rewrite powm_nonneg_exponent by lia. cbn [obind].
  eexists. split; [reflexivity|]. cbn [c].
  rewrite powm_nonneg_exponent by lia. f_equal.
  rewrite Hn in *. now apply rsa_block_roundtrip.
Qed.

Lemma generated_key_block_roundtrip_witness :
  exists ct : ciphertext,
    plaintext_encrypt {| message := 65; types := "String" |}
                      (public_key_gen sample_key) = Val ct
    /\ mod_exp (c ct) (d sample_key) (n sample_key) = Val 65.
Proof.
  apply (generated_key_block_roundtrip 100 sample_config sample_world
           (mkWorld (entropy sample_world) 109 []) sample_key 65 "String").
  - vm_compute. reflexivity.
  - apply no_divisor_below_prime; [cbn; lia | vm_compute; reflexivity].
  - apply no_divisor_below_prime; [cbn; lia | vm_compute; reflexivity].
  - cbn. lia.
  - cbn. lia.
Defined.

(** *** The ciphertext text *)

(** X20: the text [encrypt_and_return_message] joins from the blocks
    determines them: two lists of ciphertext integers with the same
    space-joined decimal text are equal. *)
Theorem ciphertext_text_inj (cs cs' : list Z) :
  Str.concat " " (map serialize_ciphertext cs)
  = Str.concat " " (map serialize_ciphertext cs') ->
  cs = cs'.
Proof.
  intros H. apply (f_equal deserialize_ciphertext) in H.
  rewrite !deserialize_serialized in H. now injection H.
Qed.

Lemma ciphertext_text_inj_witness : [12; 7] = [12; 7].
Proof.
  apply (ciphertext_text_inj [12; 7] [12; 7]). reflexivity.
Defined.

(** *** The block loop at its edges *)

(** X21: on the empty message [encrypt_and_return_message] still generates
    and saves a key, whatever its size, and returns the empty text. *)
Theorem encrypt_empty_message (fuel : nat) (rc : rsa_config) (w w' : world)
    (K : private_key) :
  private_key_gen fuel rc w = Val (K, w') ->
  encrypt_and_return_message fuel "" rc w
  = Val (""%string,
         mkWorld (entropy w') (cursor w')
                 (("private_key.txt"%string, serialize_private_key K)
                    :: files w')).
Proof.
  intros Hgen. destruct fuel as [|fuel]; [discriminate|].
  rewrite encrypt_and_return_message_blocks. unfold bind at 1.
  rewrite private_key_gen_and_save_key, Hgen. reflexivity.
Qed.

Lemma encrypt_empty_message_witness :
  encrypt_and_return_message 100 "" degenerate_tiny_config (constant_world 13)
  = Val (""%string,
         mkWorld (entropy (mkWorld (entropy (constant_world 13)) 103 []))
                 (cursor (mkWorld (entropy (constant_world 13)) 103 []))
                 (("private_key.txt"%string, serialize_private_key tiny_key)
                    :: files (mkWorld (entropy (constant_world 13)) 103 []))).
Proof.
  apply (encrypt_empty_message 100 degenerate_tiny_config (constant_world 13)
           (mkWorld (entropy (constant_world 13)) 103 []) tiny_key).
  vm_compute. reflexivity.
Defined.

Lemma numbits_below (modulus : Z) (k : Z) :
  0 < modulus -> 0 <= k -> modulus < 2 ^ k -> Zarith.numbits modulus <= k.
Proof.
  intros Hpos Hk Hlt. unfold Zarith.numbits.
  destruct (Z.eqb_spec modulus 0); [lia|].
  rewrite Z.abs_eq by lia. apply Z.log2_lt_pow2 in Hlt; lia.
Qed.

Lemma numbits_at_least (modulus : Z) (k : Z) :
  0 <= k -> 2 ^ k <= modulus -> k + 1 <= Zarith.numbits modulus.
Proof.
  intros Hk Hge. assert (0 < 2 ^ k) by (apply Z.pow_pos_nonneg; lia).
  unfold Zarith.numbits.
  destruct (Z.eqb_spec modulus 0); [lia|].
  rewrite Z.abs_eq by lia. apply Z.log2_le_pow2 in Hge; lia.
Qed.

Lemma encode_blocks_negative_size (fuel : nat) (pk : public_key)
    (block_size : Z) (msg : string) (acc : list string) :
  block_size < 0 -> msg <> ""%string ->
  encode_blocks (S fuel) pk block_size msg acc
  = Exn (Invalid_argument "String.sub / Bytes.sub").
Proof.
  intros Hbs Hmsg. cbn [encode_blocks].
  destruct (String.eqb_spec msg ""); [contradiction|].
  unfold Str.sub at 1.
  assert (0 <= Str.length msg) by (unfold Str.length; lia).
  destruct (Z.ltb_spec (Z.min block_size (Str.length msg)) 0); [|lia].
  now rewrite orb_true_r.
Qed.

(** X22: when the generated modulus is below 128 the block size is -1, and
    [encrypt_and_return_message] fails on every non-empty message with the
    [Invalid_argument] of [String.sub]. *)
Theorem encrypt_small_modulus_raises (fuel : nat) (rc : rsa_config)
    (w w' : world) (K : private_key) (P : string) :
  private_key_gen fuel rc w = Val (K, w') ->
  0 < n K < 128 -> P <> ""%string ->
  encrypt_and_return_message fuel P rc w
  = Exn (Invalid_argument "String.sub / Bytes.sub").
Proof.
  intros Hgen Hn HP. destruct fuel as [|fuel]; [discriminate|].
  rewrite encrypt_and_return_message_blocks. unfold bind at 1.
  rewrite private_key_gen_and_save_key, Hgen.
  unfold bind, lift. cbn [n public_key_gen].
  rewrite encode_blocks_negative_size; [reflexivity | | exact HP].
  unfold block_size_of.
  pose proof (numbits_below (n K) 7 ltac:(lia) ltac:(lia) ltac:(lia)).
  assert (0 <= Zarith.numbits (n K)).
  { unfold Zarith.numbits. destruct (n K =? 0); [lia|].
    pose proof (Z.log2_nonneg (Z.abs (n K))). lia. }
  rewrite Z.quot_small by lia. lia.
Qed.

Lemma encrypt_small_modulus_raises_witness :
  encrypt_and_return_message 100 "A" degenerate_tiny_config (constant_world 13)
  = Exn (Invalid_argument "String.sub / Bytes.sub").
Proof.
  apply (encrypt_small_modulus_raises 100 degenerate_tiny_config
           (constant_world 13)
           (mkWorld (entropy (constant_world 13)) 103 []) tiny_key "A").
  - vm_compute. reflexivity.
  - cbn. lia.
  - discriminate.
Defined.

Lemma substring_whole (s : string) :
  String.substring 0 (String.length s) s = s.
Proof.
  apply string_of_list_inj. rewrite substring_list. cbn [skipn].
  apply firstn_all2. rewrite <- string_length_list. lia.
Qed.

Lemma substring_nothing (s : string) : String.substring 0 0 s = ""%string.
Proof. destruct s; reflexivity. Qed.

(** X23: when the modulus has 8 to 15 bits the block size is 0, and
    [encode_blocks] never returns on a non-empty message: each turn
    encrypts an empty block and keeps the whole message. *)
Theorem encode_blocks_zero_size_diverges (fuel : nat) (pk : public_key)
    (msg : string) (acc : list string) :
  128 <= pub_n pk < 32768 -> 0 <= pub_e pk -> msg <> ""%string ->
  block_size_of (pub_n pk) = 0
  /\ encode_blocks fuel pk (block_size_of (pub_n pk)) msg acc = OutOfFuel.
Proof.
  intros Hn He Hmsg.
  assert (Hbs : block_size_of (pub_n pk) = 0).
  { unfold block_size_of.
    pose proof (numbits_below (pub_n pk) 15 ltac:(lia) ltac:(lia) ltac:(lia)).
    pose proof (numbits_at_least (pub_n pk) 7 ltac:(lia) ltac:(lia)).
    rewrite Z.quot_div_nonneg by lia.
    assert (Zarith.numbits (pub_n pk) / 8 = 1); [|lia].
    symmetry. apply Z.div_unique with (r := Zarith.numbits (pub_n pk) - 8); lia. }
  split; [exact Hbs|]. rewrite Hbs.
  revert acc. induction fuel as [|fuel IH]; intros acc; [reflexivity|].
  cbn [encode_blocks].
  destruct (String.eqb_spec msg ""); [contradiction|].
  assert (Hlen : 1 <= Str.length msg).
  { unfold Str.length. destruct msg; [contradiction | cbn [String.length]; lia]. }
  rewrite Z.min_l by lia. unfold Str.sub.
  destruct (Z.ltb_spec 0 0); [lia|].
  destruct (Z.ltb_spec (Str.length msg) (0 + 0)); [lia|].
  destruct (Z.ltb_spec (Str.length msg - 0) 0); [lia|].
  destruct (Z.ltb_spec (Str.length msg) (0 + (Str.length msg - 0))); [lia|].
  cbn [orb obind]. change (Z.to_nat 0) with 0%nat.
  rewrite substring_nothing.
  replace (Z.to_nat (Str.length msg - 0)) with (String.length msg)
    by (unfold Str.length; lia).
  rewrite substring_whole. unfold plaintext_encrypt.
  rewrite powm_nonneg_exponent by lia. cbn [obind]. apply IH.
Qed.

Lemma encode_blocks_zero_size_diverges_witness :
  block_size_of (pub_n tiny_public_key) = 0
  /\ encode_blocks 1000 tiny_public_key (block_size_of (pub_n tiny_public_key))
                   "stego" [] = OutOfFuel.
Proof.
  apply (encode_blocks_zero_size_diverges 1000 tiny_public_key "stego" []).
  - cbn. lia.
  - cbn. lia.
  - discriminate.
Defined.

(** *** The blocks of a message *)

Lemma chunks_count {A : Type} (size : nat) (l : list A) :
  (1 <= size)%nat ->
  Z.of_nat (List.length (chunks size l))
  = (Z.of_nat (List.length l) + Z.of_nat size - 1) / Z.of_nat size.
Proof.
  intros Hsize.
  remember (List.length l) as len eqn:Hlen.
  revert l Hlen. induction len as [len IH] using lt_wf_ind. intros l Hlen.
  destruct l as [|x l].
  - cbn in Hlen. subst len. cbn [chunks chunks_aux List.length].
    symmetry. apply Z.div_small. lia.
  - rewrite chunks_cons by exact Hsize. cbn [List.length].
    rewrite Nat2Z.inj_succ.
    rewrite (IH (List.length (skipn size (x :: l)))); [| |reflexivity].
    + rewrite length_skipn, <- Hlen.
      destruct (Nat.le_gt_cases size len) as [Hge|Hlt].
      * replace (Z.of_nat len + Z.of_nat size - 1)
          with ((Z.of_nat (len - size) + Z.of_nat size - 1) + 1 * Z.of_nat size)
          by lia.
        rewrite Z.div_add by lia. lia.
      * replace (len - size)%nat with 0%nat by lia.
        cbn in Hlen.
        rewrite (Z.div_small (Z.of_nat 0 + Z.of_nat size - 1)) by lia.
        apply Z.div_unique with (r := Z.of_nat len - 1); lia.
    + rewrite length_skipn, <- Hlen. cbn in Hlen. lia.
Qed.

(** X24: for a modulus of at least 16 bits, [encode_blocks] returns
    [ceil (len / size)] blocks for a message of [len] bytes, [size] being
    the block size, and every one is the decimal text of an integer in
    [0, n). *)
Theorem encode_blocks_count (pk : public_key) (msg : string) (fuel : nat) :
  0 < pub_n pk -> 0 <= pub_e pk -> 16 <= Zarith.numbits (pub_n pk) ->
  (String.length msg < fuel)%nat ->
  exists cs : list Z,
    encode_blocks fuel pk (block_size_of (pub_n pk)) msg []
    = Val (map serialize_ciphertext cs)
    /\ Z.of_nat (List.length cs)
       = (Str.length msg + block_size_of (pub_n pk) - 1)
         / block_size_of (pub_n pk)
    /\ Forall (fun block => 0 <= block < pub_n pk) cs.
Proof.
  intros Hn He Hbits Hfuel.
  pose proof (block_size_positive (pub_n pk) Hbits) as Hbs.
  exists (map (chunk_cipher pk)
              (chunks (Z.to_nat (block_size_of (pub_n pk)))
                      (list_ascii_of_string msg))).
  split; [|split].
  - rewrite encode_blocks_spec by assumption.
    cbn [rev app]. now rewrite map_map.
  - rewrite length_map, chunks_count by lia.
    rewrite <- string_length_list, Z2Nat.id by lia. reflexivity.
  - apply Forall_forall. intros block Hin. apply in_map_iff in Hin.
    destruct Hin as (chunk & <- & _). unfold chunk_cipher.
    apply Z.mod_pos_bound. exact Hn.
Qed.

Lemma encode_blocks_count_witness :
  exists cs : list Z,
    encode_blocks 100 (public_key_gen sample_key)
                  (block_size_of (pub_n (public_key_gen sample_key)))
                  example_plaintext []
    = Val (map serialize_ciphertext cs)
    /\ Z.of_nat (List.length cs)
       = (Str.length example_plaintext
          + block_size_of (pub_n (public_key_gen sample_key)) - 1)
         / block_size_of (pub_n (public_key_gen sample_key))
    /\ Forall (fun block => 0 <= block < pub_n (public_key_gen sample_key)) cs.
Proof.
  apply (encode_blocks_count (public_key_gen sample_key) example_plaintext 100).
  - reflexivity.
  - discriminate.
  - vm_compute. discriminate.
  - vm_compute. lia.
Defined.

Lemma chunks_app {A : Type} (size j : nat) :
  (1 <= size)%nat ->
  forall l l' : list A,
    List.length l = (j * size)%nat ->
    chunks size (l ++ l') = (chunks size l ++ chunks size l')%list.
Proof.
  intros Hsize. induction j as [|j IH]; intros l l' Hlen.
  - destruct l; [reflexivity | discriminate].
  - destruct l as [|x l]; [cbn in Hlen; lia|].
    change ((x :: l) ++ l')%list with (x :: (l ++ l'))%list.
    rewrite !chunks_cons by exact Hsize.
    change (x :: (l ++ l'))%list with ((x :: l) ++ l')%list.
    assert (Hk : (size <= List.length (x :: l))%nat) by (rewrite Hlen; cbn; lia).
    rewrite firstn_app, skipn_app.
    replace (size - List.length (x :: l))%nat with 0%nat by lia.
    cbn [firstn skipn]. rewrite app_nil_r.
    change ((firstn size (x :: l) :: chunks size (skipn size (x :: l)))
            ++ chunks size l')%list
      with (firstn size (x :: l)
            :: (chunks size (skipn size (x :: l)) ++ chunks size l'))%list.
    f_equal. apply IH. rewrite length_skipn, Hlen. cbn. lia.
Qed.

(** X25: the blocks are encrypted one by one under the key alone: when the
    length of [s] is a multiple of the block size, the blocks of [s ++ t]
    are the blocks of [s] followed by the blocks of [t], so equal chunks of
    plaintext give equal blocks of ciphertext. *)
Theorem encode_blocks_append (pk : public_key) (s t : string) (j fuel : nat) :
  0 < pub_n pk -> 0 <= pub_e pk -> 16 <= Zarith.numbits (pub_n pk) ->
  Str.length s = Z.of_nat j * block_size_of (pub_n pk) ->
  (String.length (s ++ t) < fuel)%nat ->
  exists blocks_s blocks_t : list string,
    encode_blocks fuel pk (block_size_of (pub_n pk)) s [] = Val blocks_s
    /\ encode_blocks fuel pk (block_size_of (pub_n pk)) t [] = Val blocks_t
    /\ encode_blocks fuel pk (block_size_of (pub_n pk)) (s ++ t) []
       = Val (blocks_s ++ blocks_t)%list.
Proof.
  intros Hn He Hbits Hlen Hfuel.
  pose proof (block_size_positive (pub_n pk) Hbits) as Hbs.
  assert (Happ : String.length (s ++ t) = (String.length s + String.length t)%nat).
  { now rewrite !string_length_list, list_ascii_of_string_app, length_app. }
  eexists. eexists.
  rewrite !encode_blocks_spec by (assumption || lia).
  split; [reflexivity|]. split; [reflexivity|].
  cbn [rev app]. rewrite list_ascii_of_string_app.
  rewrite (chunks_app _ j) by
    (try lia; rewrite <- string_length_list; unfold Str.length in Hlen; nia).
  now rewrite map_app.
Qed.

Lemma encode_blocks_append_witness :
  exists blocks_s blocks_t : list string,
    encode_blocks 100 (public_key_gen sample_key)
                  (block_size_of (pub_n (public_key_gen sample_key))) "OCOC" []
    = Val blocks_s
    /\ encode_blocks 100 (public_key_gen sample_key)
                     (block_size_of (pub_n (public_key_gen sample_key))) "OC" []
       = Val blocks_t
    /\ encode_blocks 100 (public_key_gen sample_key)
                     (block_size_of (pub_n (public_key_gen sample_key)))
                     ("OCOC" ++ "OC") []
       = Val (blocks_s ++ blocks_t)%list.
Proof.
  apply (encode_blocks_append (public_key_gen sample_key) "OCOC" "OC" 2 100).
  - reflexivity.
  - discriminate.
  - vm_compute. discriminate.
  - reflexivity.
  - vm_compute. lia.
Defined.

(** *** Reading the carrier *)

Lemma image_size_in_range (w h : Z) :
  0 <= w -> 0 <= h -> w * h * 3 <= Bytes.max_length ->
  int_mul (int_mul w h) 3 = w * h * 3.
Proof.
  intros Hw Hh Hmax. unfold int_mul, Bytes.max_length in *.
  assert (0 <= w * h) by nia.
  rewrite (int_wrap_small (w * h)) by lia.
  apply int_wrap_small. lia.
Qed.

(** X26: when the buffer of [image_size] bytes has been allocated and the
    file holds fewer bytes than that after its header, [insert_message]
    ends with [End_of_file], raised by [really_input], whatever the
    message.  [image_size] is the code's [width * height * 3], in native
    integers. *)
Theorem insert_message_short_file (string_to_binary : string -> string)
    (file : ppm) (message : string) (buffer : Bytes.t) :
  Bytes.create (int_mul (int_mul (width file) (height file)) 3) = Val buffer ->
  Bytes.length (pixels file) < int_mul (int_mul (width file) (height file)) 3 ->
  insert_message string_to_binary file message = Exn End_of_file.
Proof.
  intros Hcreate Hshort. unfold insert_message.
  rewrite Hcreate. cbn [obind].
  set (size := int_mul (int_mul (width file) (height file)) 3) in *.
  unfold Bytes.create in Hcreate.
  destruct (Z.ltb_spec size 0) as [|Hlo]; [discriminate|].
  destruct (Z.ltb_spec Bytes.max_length size) as [|Hhi]; [discriminate|].
  cbn [orb] in Hcreate. injection Hcreate as <-.
  unfold really_input, Bytes.length in *.
  rewrite repeat_length, Z2Nat.id by lia.
  destruct (Z.ltb_spec 0 0); [lia|].
  destruct (Z.ltb_spec size 0); [lia|].
  destruct (Z.ltb_spec size (0 + size)); [lia|].
  destruct (Z.ltb_spec (Z.of_nat (List.length (pixels file))) size); [|lia].
  reflexivity.
Qed.

Lemma insert_message_short_file_witness :
  insert_message already_binary short_image "1" = Exn End_of_file.
Proof.
  apply (insert_message_short_file already_binary short_image "1"
           (repeat zero 6)).
  - vm_compute. reflexivity.
  - vm_compute. reflexivity.
Defined.

Lemma really_input_firstn (ic : list ascii) (buf : Bytes.t) (len : Z) :
  0 <= len <= Z.of_nat (List.length ic) ->
  really_input ic buf 0 len = really_input (firstn (Z.to_nat len) ic) buf 0 len.
Proof.
  intros Hlen. unfold really_input.
  destruct ((0 <? 0) || (len <? 0) || (Bytes.length buf <? 0 + len));
    [reflexivity|].
  rewrite length_firstn, firstn_firstn, Nat.min_id.
  destruct (Z.ltb_spec (Z.of_nat (List.length ic)) len); [lia|].
  destruct (Z.ltb_spec (Z.of_nat (Nat.min (Z.to_nat len) (List.length ic))) len);
    [lia | reflexivity].
Qed.

Lemma insert_message_truncate (string_to_binary : string -> string)
    (file : ppm) (message : string) :
  0 <= width file -> 0 <= height file ->
  width file * height file * 3 <= Bytes.max_length ->
  width file * height file * 3 <= Bytes.length (pixels file) ->
  insert_message string_to_binary file message
  = insert_message string_to_binary (truncate file) message.
Proof.
  intros Hw Hh Hmax Hlong. unfold insert_message.
  cbn [truncate width height max_val pixels].
  rewrite image_size_in_range by assumption.
  assert (Hsz : 0 <= width file * height file * 3) by nia.
  destruct (Bytes.create (width file * height file * 3)) as [buffer| |];
    cbn [obind]; try reflexivity.
  rewrite really_input_firstn by (unfold Bytes.length in Hlong; lia).
  reflexivity.
Qed.

Lemma truncate_well_formed (file : ppm) :
  0 <= width file -> 0 <= height file ->
  width file * height file * 3 <= Bytes.max_length ->
  width file * height file * 3 <= Bytes.length (pixels file) ->
  well_formed_image (truncate file).
Proof.
  intros Hw Hh Hmax Hlong. unfold well_formed_image, Bytes.length in *.
  cbn [truncate width height pixels].
  assert (Hsz : 0 <= width file * height file * 3) by nia.
  rewrite length_firstn. repeat split; try assumption. lia.
Qed.

(** X27: when the file holds more bytes than its header announces,
    [insert_message] succeeds and writes exactly [width * height * 3] pixel
    bytes: the result is that of the file cut after its pixel data, and the
    bytes that follow are not copied to the output. *)
Theorem insert_message_drops_trailing_bytes
    (string_to_binary : string -> string) (file : ppm) (message : string) :
  0 <= width file -> 0 <= height file ->
  width file * height file * 3 <= Bytes.max_length ->
  width file * height file * 3 <= Bytes.length (pixels file) ->
  is_bitstream (string_to_binary message) = true ->
  exists out,
    insert_message string_to_binary file message = Val out
    /\ insert_message string_to_binary (truncate file) message = Val out
    /\ Bytes.length (pixels out) = width file * height file * 3.
Proof.
  intros Hw Hh Hmax Hlong Hbits.
  pose proof (truncate_well_formed file Hw Hh Hmax Hlong) as Hwf.
  destruct (insert_message_spec string_to_binary (truncate file) message Hwf Hbits)
    as (out & Hrun & _ & _ & _ & Hlen & _).
  exists out. rewrite insert_message_truncate by assumption.
  split; [exact Hrun|]. split; [exact Hrun|].
  destruct Hwf as (_ & _ & Hpix & _). cbn [truncate width height] in Hpix.
  unfold Bytes.length in *. now rewrite Hlen.
Qed.

Lemma insert_message_drops_trailing_bytes_witness :
  exists out,
    insert_message already_binary padded_image "11" = Val out
    /\ insert_message already_binary (truncate padded_image) "11" = Val out
    /\ Bytes.length (pixels out) = width padded_image * height padded_image * 3.
Proof.
  apply (insert_message_drops_trailing_bytes already_binary padded_image "11").
  - cbn. lia.
  - cbn. lia.
  - unfold Bytes.max_length. cbn. lia.
  - unfold Bytes.length. cbn. lia.
  - reflexivity.
Defined.

(** *** Symbols that are not bits *)

Lemma string_get_length (s : string) (k : nat) (ch : ascii) :
  String.get k s = Some ch -> Z.of_nat k < Str.length s.
Proof.
  rewrite string_get_nth_error. intros H.
  assert (nth_error (list_ascii_of_string s) k <> None) by congruence.
  apply nth_error_Some in H0. unfold Str.length.
  rewrite string_length_list. lia.
Qed.

(** One iteration of the loop at a symbol of the message, bit or not. *)
Lemma insert_step_symbol (bits : string) (i : Z) (buffer : Bytes.t) (c : ascii) :
  0 <= i < Bytes.length buffer ->
  String.get (Z.to_nat i) bits = Some c ->
  insert_step bits i (buffer, i)
  = if is_bit c
    then Val (Bytes.update buffer (Z.to_nat i)
                (stego_byte (nth (Z.to_nat i) buffer zero) c), i + 1)
    else Exn (Failure "Message bit must be '0' or '1'").
Proof.
  intros Hi Hget.
  pose proof (string_get_length _ _ _ Hget) as Hlen.
  rewrite Z2Nat.id in Hlen by lia.
  unfold insert_step, Bytes.get, Bytes.set, string_get, Char.chr, Char.code.
  destruct (Z.ltb_spec i (Str.length bits)) as [_|]; [|lia].
  destruct (Z.ltb_spec i 0) as [|_]; [lia|].
  destruct (Z.leb_spec (Bytes.length buffer) i) as [|_]; [lia|].
  cbn [orb obind]. rewrite Hget. cbn [obind].
  unfold overwrite_last_bit, stego_byte.
  destruct (is_bit c) eqn:Hbit.
  - pose proof (stego_byte_facts (nth (Z.to_nat i) buffer zero) c Hbit)
      as (Hr & _).
    cbv zeta in Hr.
    assert (Hcases : c = "0"%char \/ c = "1"%char).
    { unfold is_bit in Hbit. apply orb_true_iff in Hbit.
      destruct Hbit as [H|H]; apply Ascii.eqb_eq in H; auto. }
    destruct Hcases as [-> | ->]; cbn [Ascii.eqb Bool.eqb obind] in *;
      (destruct (Z.ltb_spec (Z.lor (char_code (nth (Z.to_nat i) buffer zero)) 1) 0);
       destruct (Z.ltb_spec 255 (Z.lor (char_code (nth (Z.to_nat i) buffer zero)) 1));
       destruct (Z.ltb_spec (Z.land (char_code (nth (Z.to_nat i) buffer zero)) 254) 0);
       destruct (Z.ltb_spec 255 (Z.land (char_code (nth (Z.to_nat i) buffer zero)) 254));
       try lia; reflexivity).
  - unfold is_bit in Hbit. apply orb_false_iff in Hbit.
    destruct Hbit as [H0 H1]. now rewrite H1, H0.
Qed.

(** The loop stops at the first symbol that is not a bit. *)
Lemma for_loop_insert_fails (bits : string) (k : nat) (ch : ascii) :
  String.get k bits = Some ch -> is_bit ch = false ->
  forall (count : nat) (i : Z) (buffer : Bytes.t),
    0 <= i <= Z.of_nat k -> Z.of_nat k < i + Z.of_nat count ->
    i + Z.of_nat count <= Bytes.length buffer ->
    for_loop count i (insert_step bits) (buffer, i)
    = Exn (Failure "Message bit must be '0' or '1'").
Proof.
  intros Hget Hbad. pose proof (string_get_length _ _ _ Hget) as Hk.
  induction count as [|count IH]; intros i buffer Hi Hcount Hlen; [lia|].
  cbn [for_loop].
  destruct (String.get (Z.to_nat i) bits) as [c|] eqn:Hc.
  - rewrite (insert_step_symbol bits i buffer c) by (assumption || lia).
    destruct (is_bit c) eqn:Hbit; [|reflexivity].
    cbn [obind]. apply IH.
    + assert (Z.of_nat k <> i); [|lia].
      intros <-. rewrite Nat2Z.id in Hc. congruence.
    + lia.
    + unfold Bytes.length in *. rewrite update_length. lia.
  - rewrite string_get_nth_error in Hc. apply nth_error_None in Hc.
    unfold Str.length in Hk. rewrite string_length_list in Hk. lia.
Qed.

Lemma full_bitstream_get (payload : string) (k : nat) :
  String.get (30 + k) (full_bitstream payload) = String.get k payload.
Proof.
  unfold full_bitstream. rewrite !string_get_nth_error, list_ascii_of_string_app.
  rewrite nth_error_app2 by (rewrite <- string_length_list, header_length; lia).
  rewrite <- string_length_list, header_length. f_equal. lia.
Qed.

(** X28: [insert_message] checks the symbols of the converted message only
    as it embeds them: if a symbol that is neither '0' nor '1' stands at an
    index that fits in the image, the call ends with the [Failure] of
    [overwrite_last_bit]. *)
Theorem insert_message_rejects_symbol (string_to_binary : string -> string)
    (file : ppm) (message : string) (k : nat) (ch : ascii) :
  well_formed_image file ->
  String.get k (string_to_binary message) = Some ch ->
  is_bit ch = false ->
  30 + Z.of_nat k < width file * height file * 3 ->
  insert_message string_to_binary file message
  = Exn (Failure "Message bit must be '0' or '1'").
Proof.
  intros Hwf Hget Hbad Hfits. unfold insert_message.
  rewrite (image_size_exact file Hwf).
  pose proof (load_buffer file Hwf) as Hload.
  destruct (Bytes.create (width file * height file * 3)) as [b0| |];
    cbn [obind] in Hload |- *; try discriminate.
  rewrite Hload. cbn [obind].
  destruct Hwf as (Hw & Hh & Hlen & Hmax).
  fold (full_bitstream (string_to_binary message)).
  rewrite (for_loop_insert_fails (full_bitstream (string_to_binary message))
             (30 + k) ch); try reflexivity; try lia.
  - now rewrite full_bitstream_get.
  - exact Hbad.
Qed.

Lemma insert_message_rejects_symbol_witness :
  insert_message already_binary eleven_pixel_image "1x"
  = Exn (Failure "Message bit must be '0' or '1'").
Proof.
  apply (insert_message_rejects_symbol already_binary eleven_pixel_image "1x"
           1 "x"%char).
  - unfold well_formed_image, Bytes.length, Bytes.max_length; cbn. lia.
  - reflexivity.
  - reflexivity.
  - cbn. lia.
Defined.

(** *** Embedding twice *)

Lemma stego_byte_twice (byte x y : ascii) :
  stego_byte (stego_byte byte x) y = stego_byte byte y.
Proof.
  unfold stego_byte.
  destruct (Ascii.eqb x "1"), (Ascii.eqb y "1");
    destruct byte as [[] [] [] [] [] [] [] []]; vm_compute; reflexivity.
Qed.

(** X29: embedding a second message into the output of a first one gives
    the image the second message alone would give, provided the second
    payload is at least as long as the first: every bit of the first is
    overwritten and no other trace of it is left. *)
Theorem insert_message_overwrites (string_to_binary : string -> string)
    (file : ppm) (first second : string) :
  well_formed_image file ->
  is_bitstream (string_to_binary first) = true ->
  is_bitstream (string_to_binary second) = true ->
  Str.length (string_to_binary first) <= Str.length (string_to_binary second) ->
  exists out1 out2,
    insert_message string_to_binary file first = Val out1
    /\ insert_message string_to_binary file second = Val out2
    /\ insert_message string_to_binary out1 second = Val out2.
Proof.
  intros Hwf Hb1 Hb2 Hle.
  destruct (insert_message_spec string_to_binary file first Hwf Hb1)
    as (out1 & Hrun1 & Hw1 & Hh1 & Hm1 & Hlen1 & Hnth1).
  destruct (insert_message_spec string_to_binary file second Hwf Hb2)
    as (out2 & Hrun2 & Hw2 & Hh2 & Hm2 & Hlen2 & Hnth2).
  assert (Hwf1 : well_formed_image out1).
  { destruct Hwf as (Hw & Hh & Hlen & Hmax).
    unfold well_formed_image, Bytes.length in *.
    rewrite Hw1, Hh1, Hlen1. auto. }
  destruct (insert_message_spec string_to_binary out1 second Hwf1 Hb2)
    as (out3 & Hrun3 & Hw3 & Hh3 & Hm3 & Hlen3 & Hnth3).
  exists out1, out2. split; [exact Hrun1|]. split; [exact Hrun2|].
  rewrite Hrun3. f_equal.
  rewrite Hw1, Hh1 in *.
  destruct Hwf as (Hw & Hh & Hlen & Hmax). unfold Bytes.length in Hlen.
  destruct out2 as [w2 h2 m2 px2], out3 as [w3 h3 m3 px3].
  cbn [width height max_val pixels] in *.
  subst w2 h2 m2 w3 h3 m3. f_equal; try assumption.
  apply (nth_ext _ _ zero zero); [congruence|].
  intros j Hj.
  assert (Hk : 0 <= Z.of_nat j < width file * height file * 3) by lia.
  specialize (Hnth1 _ Hk). specialize (Hnth2 _ Hk). specialize (Hnth3 _ Hk).
  rewrite !Nat2Z.id in Hnth1, Hnth2, Hnth3. rewrite Hnth3, Hnth2, Hnth1.
  destruct (Z.ltb_spec (Z.of_nat j) (30 + Str.length (string_to_binary second)));
    destruct (Z.ltb_spec (Z.of_nat j) (30 + Str.length (string_to_binary first)));
    try reflexivity; try lia.
  apply stego_byte_twice.
Qed.

Lemma insert_message_overwrites_witness :
  exists out1 out2,
    insert_message already_binary eleven_pixel_image "1" = Val out1
    /\ insert_message already_binary eleven_pixel_image "00" = Val out2
    /\ insert_message already_binary out1 "00" = Val out2.
Proof.
  apply (insert_message_overwrites already_binary eleven_pixel_image "1" "00").
  - unfold well_formed_image, Bytes.length, Bytes.max_length; cbn. lia.
  - reflexivity.
  - reflexivity.
  - cbn. lia.
Defined.

(** X30: whatever the size of the payload, [insert_message] keeps the
    header fields and the number of pixel bytes, and touches nothing but
    least significant bits: every byte keeps its seven upper bits and
    moves by at most 1. *)
Theorem insert_message_keeps_upper_bits (string_to_binary : string -> string)
    (file : ppm) (message : string) :
  well_formed_image file ->
  is_bitstream (string_to_binary message) = true ->
  exists out,
    insert_message string_to_binary file message = Val out
    /\ width out = width file /\ height out = height file
    /\ max_val out = max_val file
    /\ Bytes.length (pixels out) = Bytes.length (pixels file)
    /\ forall k : Z, 0 <= k < width file * height file * 3 ->
         byte_at (pixels out) k / 2 = byte_at (pixels file) k / 2
         /\ Z.abs (byte_at (pixels out) k - byte_at (pixels file) k) <= 1.
Proof.
  intros Hwf Hbits.
  destruct (insert_message_spec string_to_binary file message Hwf Hbits)
    as (out & Hrun & Hw & Hh & Hm & Hlen & Hnth).
  exists out. split; [exact Hrun|].
  repeat (split; [assumption|]).
  split; [unfold Bytes.length; now rewrite Hlen|].
  intros k Hk. specialize (Hnth k Hk). unfold byte_at. rewrite Hnth.
  destruct (Z.ltb_spec k (30 + Str.length (string_to_binary message)));
    [|split; [reflexivity | rewrite Z.sub_diag; cbn; lia]].
  assert (Hsym : is_bit (symbol_at (full_bitstream (string_to_binary message))
                                   (Z.to_nat k)) = true).
  { apply symbol_is_bit; [now apply full_bitstream_bits|].
    rewrite full_bitstream_length. lia. }
  pose proof (stego_byte_code (nth (Z.to_nat k) (pixels file) zero) _ Hsym)
    as (Hv & _ & Habs).
  split; [|exact Habs].
  rewrite Hv. unfold with_last_bit.
  symmetry. apply Z.div_unique with
    (r := Z.b2z (Ascii.eqb (symbol_at (full_bitstream (string_to_binary message))
                                      (Z.to_nat k)) "1")); [|reflexivity].
  destruct (Ascii.eqb _ "1"); cbn; lia.
Qed.

Lemma insert_message_keeps_upper_bits_witness :
  exists out,
    insert_message already_binary one_pixel_image "1011" = Val out
    /\ width out = width one_pixel_image /\ height out = height one_pixel_image
    /\ max_val out = max_val one_pixel_image
    /\ Bytes.length (pixels out) = Bytes.length (pixels one_pixel_image)
    /\ forall k : Z,
         0 <= k < width one_pixel_image * height one_pixel_image * 3 ->
         byte_at (pixels out) k / 2 = byte_at (pixels one_pixel_image) k / 2
         /\ Z.abs (byte_at (pixels out) k - byte_at (pixels one_pixel_image) k) <= 1.
Proof.
  apply (insert_message_keeps_upper_bits already_binary one_pixel_image "1011").
  - unfold well_formed_image, Bytes.length, Bytes.max_length; cbn. lia.
  - reflexivity.
Defined.

(** ** The retry loops of key generation *)

Lemma miller_rabin_test_settled (f0 : nat) (trails : option Z) (n : Z)
    (w : world) (r : bool * world) :
  miller_rabin_test f0 trails n w = Val r ->
  forall fuel : nat,
    miller_rabin_test fuel trails n w = OutOfFuel
    \/ miller_rabin_test fuel trails n w = Val r.
Proof.
  intros H0 fuel.
  destruct (Nat.le_ge_cases fuel f0) as [Hle|Hge].
  - destruct (miller_rabin_test fuel trails n w) as [r'| |] eqn:E; auto.
    + right. rewrite <- H0, <- E. symmetry.
      apply miller_rabin_test_mono; [exact Hle | congruence].
    + exfalso.
      pose proof (miller_rabin_test_mono fuel f0 trails n w Hle
                    ltac:(congruence)).
      congruence.
  - right. rewrite <- H0. apply miller_rabin_test_mono; [exact Hge | congruence].
Qed.

(** C5, as the code has it: the retry loops have no attempt ceiling and no
    failure of their own.  After any number [k] of rejected candidates the
    prime search and the exponent search draw again, and return what the
    search from there returns; when every candidate is rejected they never
    return and never fail.  [private_key_gen] raises no [Failure].  With
    [e_len = 0], once the prime searches have returned [p] and [q] with
    [|(p - 1) * (q - 1)| <> 1], the exponent search never finds a candidate
    and [private_key_gen] does not return, whatever the budget. *)
Theorem private_key_gen_unbounded_retry :
  (forall (trails : option Z) (len : Z) (f0 k : nat) (ws : nat -> world)
          (r : Z * world),
      (forall i : nat, (i < k)%nat ->
         rejected_prime f0 trails len (ws i) (ws (S i))) ->
      prime_gen f0 trails len (ws k) = Val r ->
      prime_gen (f0 + k) trails len (ws 0%nat) = Val r)
  /\ (forall (trails : option Z) (len : Z) (f0 : nat) (ws : nat -> world),
        (forall i : nat, rejected_prime f0 trails len (ws i) (ws (S i))) ->
        forall fuel : nat, prime_gen fuel trails len (ws 0%nat) = OutOfFuel)
  /\ (forall (rc : rsa_config) (phi : Z) (f0 k : nat) (ws : nat -> world)
             (r : Z * world),
        (forall i : nat, (i < k)%nat ->
           rejected_exponent f0 rc phi (ws i) (ws (S i))) ->
        e_gen f0 rc phi (ws k) = Val r ->
        e_gen (f0 + k) rc phi (ws 0%nat) = Val r)
  /\ (forall (rc : rsa_config) (phi : Z) (f0 : nat) (ws : nat -> world),
        (forall i : nat, rejected_exponent f0 rc phi (ws i) (ws (S i))) ->
        forall fuel : nat, e_gen fuel rc phi (ws 0%nat) = OutOfFuel)
  /\ (forall (fuel : nat) (rc : rsa_config) (w : world) (msg : string),
        private_key_gen fuel rc w <> Exn (Failure msg))
  /\ (forall (fuel f0 : nat) (rc : rsa_config) (w w1 w2 : world) (p0 q0 : Z),
        e_len rc = 0 ->
        prime_gen f0 None (p_len rc) w = Val (p0, w1) ->
        prime_gen f0 None (q_len rc) w1 = Val (q0, w2) ->
        Z.abs ((p0 - 1) * (q0 - 1)) <> 1 ->
        private_key_gen fuel rc w = OutOfFuel).
Proof.
  split; [|split; [|split; [|split; [|split]]]].
  - (* the prime search after [k] rejections *)
    intros trails len f0 k. unfold prime_gen.
    induction k as [|k IH]; intros ws r Hrej Hret.
    + now rewrite Nat.add_0_r.
    + rewrite Nat.add_succ_r. cbn [prime_gen'].
      destruct (Hrej 0%nat ltac:(lia)) as (cand & mid & Hz & Hmr).
      unfold bind, z_gen in *.
      rewrite (z_gen'_mono f0 (f0 + k)) by (try lia; congruence).
      rewrite Hz.
      rewrite (miller_rabin_test_mono f0 (f0 + k)) by (try lia; congruence).
      rewrite Hmr.
      apply (IH (fun i => ws (S i))); [|exact Hret].
      intros i Hi. apply Hrej. lia.
  - (* the prime search when every candidate is rejected *)
    intros trails len f0 ws Hrej fuel. unfold prime_gen.
    generalize 0%nat as i.
    induction fuel as [|fuel IH]; intros i; [reflexivity|].
    cbn [prime_gen'].
    destruct (Hrej i) as (cand & mid & Hz & Hmr).
    unfold bind, z_gen in *.
    destruct (z_gen'_settled f0 len 0 (ws i) _ Hz fuel) as [-> | ->];
      [reflexivity|].
    destruct (miller_rabin_test_settled f0 _ cand mid _ Hmr fuel) as [-> | ->];
      [reflexivity|].
    apply IH.
  - (* the exponent search after [k] rejections *)
    intros rc phi f0 k. unfold e_gen.
    induction k as [|k IH]; intros ws r Hrej Hret.
    + now rewrite Nat.add_0_r.
    + rewrite Nat.add_succ_r. cbn [e_gen'].
      destruct (Hrej 0%nat ltac:(lia)) as (cand & Hz & Hco).
      unfold bind, z_gen in *.
      rewrite (z_gen'_mono f0 (f0 + k)) by (try lia; congruence).
      rewrite Hz, Hco.
      apply (IH (fun i => ws (S i))); [|exact Hret].
      intros i Hi. apply Hrej. lia.
  - (* the exponent search when every candidate is rejected *)
    intros rc phi f0 ws Hrej fuel. unfold e_gen.
    generalize 0%nat as i.
    induction fuel as [|fuel IH]; intros i; [reflexivity|].
    cbn [e_gen'].
    destruct (Hrej i) as (cand & Hz & Hco).
    unfold bind, z_gen in *.
    destruct (z_gen'_settled f0 (e_len rc) 0 (ws i) _ Hz fuel) as [-> | ->];
      [reflexivity|].
    rewrite Hco. apply IH.
  - (* no [Failure] *)
    intros fuel rc w msg H.
    unfold private_key_gen, prime_gen, e_gen in H.
    unfold bind at 1 in H.
    destruct (prime_gen' fuel None (p_len rc) w) as [[p0 w1]| |] eqn:Hp;
      [| apply prime_gen'_raises in Hp; congruence | discriminate].
    unfold bind at 1 in H.
    destruct (prime_gen' fuel None (q_len rc) w1) as [[q0 w2]| |] eqn:Hq;
      [| apply prime_gen'_raises in Hq; congruence | discriminate].
    unfold bind at 1 in H.
    destruct (e_gen' fuel rc ((p0 - 1) * (q0 - 1)) w2) as [[e0 w3]| |] eqn:He;
      [| now apply e_gen'_never_raises in He | discriminate].
    apply e_gen'_returns in He. destruct He as [Hg _].
    unfold bind, lift, d_gen, mod_minv, Zarith.invert in H.
    rewrite Hg in H. cbn [Z.eqb Pos.eqb negb] in H.
    destruct ((p0 - 1) * (q0 - 1) =? 0); discriminate.
  - (* no digit for the exponent *)
    intros fuel f0 rc w w1 w2 p0 q0 Hlen Hp Hq Hphi.
    unfold private_key_gen. unfold bind at 1.
    destruct (prime_gen_settled f0 None (p_len rc) w (p0, w1) Hp fuel)
      as [-> | ->]; [reflexivity|].
    unfold bind at 1.
    destruct (prime_gen_settled f0 None (q_len rc) w1 (q0, w2) Hq fuel)
      as [-> | ->]; [reflexivity|].
    unfold bind at 1.
    now rewrite e_gen_no_digits_diverges.
Qed.

Lemma private_key_gen_unbounded_retry_witness :
  prime_gen (100 + 1) None 1 (scripted_world [9; 0; 3] 1)
  = Val (3, mkWorld (entropy (scripted_world [9; 0; 3] 1)) 53 [])
  /\ (forall fuel : nat, prime_gen fuel None 1 (nines 0) = OutOfFuel)
  /\ e_gen (100 + 2) degenerate_tiny_config 4
           (mkWorld (entropy (scripted_world [2; 6; 3] 1)) 0 [])
     = Val (3, mkWorld (entropy (scripted_world [2; 6; 3] 1)) 3 [])
  /\ (forall fuel : nat,
        e_gen fuel degenerate_tiny_config 4 (twos 0) = OutOfFuel)
  /\ private_key_gen 1000 degenerate_config (constant_world 13) = OutOfFuel.
Proof.
  destruct private_key_gen_unbounded_retry
    as (Hprime & Hprimes & Hexp & Hexps & _ & Hnone).
  split; [|split; [|split; [|split]]].
  - apply (Hprime None 1 100%nat 1%nat
             (fun i => mkWorld (entropy (scripted_world [9; 0; 3] 1)) (i * 2) [])).
    + intros i Hi.
      exists 9, (mkWorld (entropy (scripted_world [9; 0; 3] 1)) (S (i * 2)) []).
      destruct i as [|i]; [|lia]. split; vm_compute; reflexivity.
    + vm_compute. reflexivity.
  - apply (Hprimes None 1 100%nat nines). intros i.
    exists 9, (mkWorld (entropy (constant_world 9)) (S (i * 2)) []).
    split; vm_compute; reflexivity.
  - apply (Hexp degenerate_tiny_config 4 100%nat 2%nat
             (fun i => mkWorld (entropy (scripted_world [2; 6; 3] 1)) i [])).
    + intros i Hi.
      destruct i as [|[|i]]; [exists 2 | exists 6 | lia];
        split; vm_compute; reflexivity.
    + vm_compute. reflexivity.
  - apply (Hexps degenerate_tiny_config 4 100%nat twos). intros i.
    exists 2. split; vm_compute; reflexivity.
  - apply (Hnone 1000%nat 100%nat degenerate_config (constant_world 13)
             (mkWorld (entropy (constant_world 13)) 51 [])
             (mkWorld (entropy (constant_world 13)) 102 []) 3 3).
    + reflexivity.
    + vm_compute. reflexivity.
    + vm_compute. reflexivity.
    + vm_compute. discriminate.
Defined.
